(** * Thermal trail camera pipeline (main.py): a shallow embedding

    The definitions come first, module by module: configuration constants,
    blob geometry and merging, tracking, frame decoding, hot-object
    segmentation and the recording loop of [main].  The facts proved about
    each module follow in the same order.

    Modelling conventions.
    - Python ints are [Z]; numpy fixed-width integers are [Z] with the
      wrap-around written out ([wrap_u16], [wrap_i32]).
    - Python floats and numpy float32 values are modelled as exact rationals
      [Q]: rounding is not modelled.  Every float the tracker and the merger
      compare is a half-integer pixel coordinate or a sum of squares of such,
      which binary floating point represents exactly.
    - OpenCV, the file system and the clock are the environment: their
      answers are inputs of the embedded functions, their calls are recorded
      in an output trace. *)

From Stdlib Require Import String ZArith QArith Qround List Sorted Bool Lia Lqa Arith.
From Stdlib Require Strings.Byte Reals Qreals Lra Permutation DecimalString.
Import ListNotations.

Local Open Scope Z_scope.

(** ** Configuration constants *)

Definition WIDTH : Z := 256.
Definition HEIGHT : Z := 192.
Definition DISPLAY_SCALE : Z := 3.
Definition CAMERA_FPS : Z := 25.

Definition DELTA_TEMP_C : Q := 3 # 2.
(** [int(DELTA_TEMP_C * 64)]: Python's [int] truncates toward zero. *)
Definition Qtrunc (q : Q) : Z :=
  if Qle_bool 0 q then Qfloor q else Qceiling q.
Definition THERMAL_DELTA_RAW : Z := Qtrunc (DELTA_TEMP_C * 64).

Definition BG_UPDATE_ALPHA : Q := 1 # 100.
Definition MIN_HOT_AREA : Z := 30.
Definition SPLIT_DISTANCE_PX : Z := 20.

Definition PRE_ROLL_SEC : Z := 10.
Definition POST_ROLL_SEC : Z := 10.
Definition PHOTO_INTERVAL_SEC : Z := 20.

Definition TRACK_FORGET_SEC : Z := POST_ROLL_SEC.
Definition TRACK_MAX_DIST : Z := 40 * 40.

Definition VIDEO_SCALE : Z := DISPLAY_SCALE.
Definition VIDEO_SIZE : Z * Z := (WIDTH * VIDEO_SCALE, HEIGHT * VIDEO_SCALE).

Definition ENABLE_VISUAL_SMOOTHING : bool := false.
Definition VISUAL_SMOOTH_ALPHA : Q := 4 # 10.

(** Strict comparison of rationals as a boolean ([x < y] in the source). *)
Definition Qltb (x y : Q) : bool := negb (Qle_bool y x).

(** ** Blob geometry *)

Module Geometry.

(** A bounding box is the Python tuple [(x, y, w, h)]. *)
Definition bbox : Type := Z * Z * Z * Z.

Record detection : Type := mkDet {
  det_bbox : bbox;
  cx : Q;
  cy : Q
}.

Definition _rects_intersect (b1 b2 : bbox) (pad : Z) : bool :=
  let '(x1, y1, w1, h1) := b1 in
  let '(x2, y2, w2, h2) := b2 in
  let '(a1x1, a1y1, a1x2, a1y2) := (x1 - pad, y1 - pad, x1 + w1 + pad, y1 + h1 + pad) in
  let '(a2x1, a2y1, a2x2, a2y2) := (x2 - pad, y2 - pad, x2 + w2 + pad, y2 + h2 + pad) in
  negb ((a1x2 <? a2x1) || (a2x2 <? a1x1) || (a1y2 <? a2y1) || (a2y2 <? a1y1)).

Definition _union_bbox (b1 b2 : bbox) : bbox :=
  let '(x1, y1, w1, h1) := b1 in
  let '(x2, y2, w2, h2) := b2 in
  let '(xa1, ya1, xa2, ya2) := (x1, y1, x1 + w1, y1 + h1) in
  let '(xb1, yb1, xb2, yb2) := (x2, y2, x2 + w2, y2 + h2) in
  let x := Z.min xa1 xb1 in
  let y := Z.min ya1 yb1 in
  let xe := Z.max xa2 xb2 in
  let ye := Z.max ya2 yb2 in
  (x, y, xe - x, ye - y).

(** [b[0] + b[2] / 2] and [b[1] + b[3] / 2]: true division. *)
Definition center_x (b : bbox) : Q :=
  let '(x, _, w, _) := b in (inject_Z x + inject_Z w / 2)%Q.
Definition center_y (b : bbox) : Q :=
  let '(_, y, _, h) := b in (inject_Z y + inject_Z h / 2)%Q.

(** Squared distance between two points. *)
Definition dist2 (ax ay bx by_ : Q) : Q :=
  let dx := (ax - bx)%Q in
  let dy := (ay - by_)%Q in
  (dx * dx + dy * dy)%Q.

(** [(dx*dx + dy*dy) ** 0.5 < SPLIT_DISTANCE_PX].  The square root of a
    non-negative number is below the positive bound exactly when the number
    is below the bound's square, which is how the test is written here. *)
Definition close (b1 b2 : bbox) : bool :=
  Qltb (dist2 (center_x b1) (center_y b1) (center_x b2) (center_y b2))
       (inject_Z (SPLIT_DISTANCE_PX * SPLIT_DISTANCE_PX)).

(** The detection appended to [out]: the box and its recomputed centre. *)
Definition recenter (b : bbox) : detection :=
  mkDet b (center_x b) (center_y b).

(** The inner loop [for j in range(i + 1, len(dets))].  [ds] and [used] are
    the suffixes [dets[i+1:]] and [used[i+1:]]; the loop returns the
    accumulated box, the updated flags and the [changed] flag. *)
Fixpoint absorb (merged_bbox : bbox) (ds : list detection) (used : list bool)
         (changed : bool) : bbox * list bool * bool :=
  match ds, used with
  | d :: ds', u :: used' =>
      if u then
        let '(m, us, c) := absorb merged_bbox ds' used' changed in (m, u :: us, c)
      else
        let b2 := det_bbox d in
        let overlap := _rects_intersect merged_bbox b2 0 in
        if close merged_bbox b2 || overlap then
          let '(m, us, c) := absorb (_union_bbox merged_bbox b2) ds' used' true in
          (m, true :: us, c)
        else
          let '(m, us, c) := absorb merged_bbox ds' used' changed in
          (m, false :: us, c)
  | _, _ => (merged_bbox, used, changed)
  end.

(** The outer loop [for i in range(len(dets))] over the suffixes [dets[i:]]
    and [used[i:]]; returns the detections appended to [out] and [changed]. *)
Fixpoint scan (ds : list detection) (used : list bool) (changed : bool)
  : list detection * bool :=
  match ds, used with
  | d :: ds', u :: used' =>
      if u then scan ds' used' changed
      else
        let '(m, us, c) := absorb (det_bbox d) ds' used' changed in
        let '(out, c') := scan ds' us c in
        (recenter m :: out, c')
  | _, _ => ([], changed)
  end.

(** One iteration of the [while changed] body: [(out, changed)]. *)
Definition merge_pass (dets : list detection) : list detection * bool :=
  scan dets (repeat false (length dets)) false.

(** The [while changed] loop.  Every pass that sets [changed] returns a
    strictly shorter list, so [length dets] further passes always suffice
    ([merge_detections_exits] below); [n] bounds the passes still allowed. *)
Fixpoint merge_loop (n : nat) (dets : list detection) : list detection :=
  let '(out, changed) := merge_pass dets in
  if changed then
    match n with
    | O => out
    | S n' => merge_loop n' out
    end
  else out.

Definition merge_detections (detections : list detection) : list detection :=
  merge_loop (length detections) detections.

(** The merge test of the inner loop, [close or overlap]. *)
Definition should_merge (m b2 : bbox) : bool :=
  close m b2 || _rects_intersect m b2 0.

(** [contains o b]: the rectangle [b] lies inside the rectangle [o]. *)
Definition contains (o b : bbox) : Prop :=
  let '(ox, oy, ow, oh) := o in
  let '(x, y, w, h) := b in
  ox <= x /\ oy <= y /\ x + w <= ox + ow /\ y + h <= oy + oh.

(** The detections of [ds] whose [used] flag is still clear. *)
Fixpoint free (ds : list detection) (used : list bool) : list detection :=
  match ds, used with
  | d :: ds', u :: used' => if u then free ds' used' else d :: free ds' used'
  | _, _ => []
  end.

(** No ordered pair of the list passes the merge test. *)
Definition separated (ds : list detection) : Prop :=
  ForallOrdPairs (fun a b => should_merge (det_bbox a) (det_bbox b) = false) ds.

(** What a pass that merges nothing appends to [out]. *)
Definition recentered (ds : list detection) : list detection :=
  map (fun d => recenter (det_bbox d)) ds.

Fixpoint count_free (used : list bool) : nat :=
  match used with
  | [] => 0
  | u :: us => (if u then 0 else 1) + count_free us
  end.

(** Two detections appear in [out] as one detection: some output box
    contains both of their boxes. *)
Definition merged_as_one (out : list detection) (d1 d2 : detection) : Prop :=
  exists u, In u out /\
    contains (det_bbox u) (det_bbox d1) /\ contains (det_bbox u) (det_bbox d2).

(** The centroids stored in two detections are strictly less than
    [SPLIT_DISTANCE_PX] apart. *)
Definition centroids_close (d1 d2 : detection) : bool :=
  Qltb (dist2 (cx d1) (cy d1) (cx d2) (cy d2))
       (inject_Z (SPLIT_DISTANCE_PX * SPLIT_DISTANCE_PX)).

(** The pairwise reading of the merge rule: every close pair of the input is
    merged, every far and non-overlapping pair stays apart. *)
Definition merges_every_close_pair : Prop :=
  forall dets i j d1 d2, i <> j ->
    nth_error dets i = Some d1 -> nth_error dets j = Some d2 ->
    centroids_close d1 d2 = true ->
    merged_as_one (merge_detections dets) d1 d2.

Definition keeps_every_far_pair : Prop :=
  forall dets i j d1 d2, i <> j ->
    nth_error dets i = Some d1 -> nth_error dets j = Some d2 ->
    centroids_close d1 d2 = false ->
    _rects_intersect (det_bbox d1) (det_bbox d2) 0 = false ->
    ~ merged_as_one (merge_detections dets) d1 d2.

(** Three blobs on one image row.  [blob_b] overlaps [blob_a]; [blob_c] is
    10 px from [blob_a] but 40 px from the centre of their union. *)
Definition blob_a : detection := recenter (100, 100, 2, 2).
Definition blob_b : detection := recenter (40, 100, 61, 2).
Definition blob_c : detection := recenter (110, 100, 2, 2).

(** A chain of touching boxes: the ends are 40 px apart and do not touch. *)
Definition link_a : detection := recenter (0, 0, 10, 10).
Definition link_b : detection := recenter (10, 0, 30, 10).
Definition link_c : detection := recenter (40, 0, 10, 10).

End Geometry.

(** ** Tracking *)

Module Tracker.
Import Geometry.

(** [generate_color] seeds a [RandomState] with [tid * 9973 + 12345] and
    draws three channels from it.  The generator is numpy's; a colour is
    represented by the seed that determines it. *)
Definition color : Type := Z.
Definition generate_color (tid : Z) : color := tid * 9973 + 12345.

(** A track is the dict with keys "cx", "cy", "bbox", "last", "color". *)
Record track : Type := mkTrack {
  t_cx : Q;
  t_cy : Q;
  t_bbox : bbox;
  t_last : Q;
  t_color : color
}.

(** The [tracks] dict: keys in insertion order, as Python iterates them. *)
Definition track_dict : Type := list (Z * track).

Definition keys (tracks : track_dict) : list Z := map fst tracks.

Fixpoint dict_get (tid : Z) (tracks : track_dict) : option track :=
  match tracks with
  | [] => None
  | (k, t) :: rest => if k =? tid then Some t else dict_get tid rest
  end.

(** [tracks[tid] = t]: an existing key keeps its position, a new key goes
    last. *)
Fixpoint dict_set (tid : Z) (t : track) (tracks : track_dict) : track_dict :=
  match tracks with
  | [] => [(tid, t)]
  | (k, t0) :: rest =>
      if k =? tid then (k, t) :: rest else (k, t0) :: dict_set tid t rest
  end.

(** [del tracks[tid]]. *)
Definition dict_del (tid : Z) (tracks : track_dict) : track_dict :=
  filter (fun kt => negb (fst kt =? tid)) tracks.

(** [i in used] for the set of claimed detection indices. *)
Definition mem (i : Z) (used : list Z) : bool := existsb (Z.eqb i) used.

(** The loop [for i, d in enumerate(detections)] that looks for the nearest
    unclaimed detection; [ds] is the suffix still to visit, [i] its index. *)
Fixpoint best_match (ds : list detection) (i : Z) (used : list Z) (t : track)
         (best : Z) (best_d2 : Q) : Z * Q :=
  match ds with
  | [] => (best, best_d2)
  | d :: ds' =>
      if mem i used then best_match ds' (i + 1) used t best best_d2
      else
        let d2 := dist2 (cx d) (cy d) (t_cx t) (t_cy t) in
        if Qltb d2 best_d2 then best_match ds' (i + 1) used t i d2
        else best_match ds' (i + 1) used t best best_d2
  end.

(** The track after [t["cx"], t["cy"], t["bbox"] = ...; t["last"] = now]. *)
Definition claim (t : track) (d : detection) (now : Q) : track :=
  mkTrack (cx d) (cy d) (det_bbox d) now (t_color t).

(** The matching loop [for tid, t in list(tracks.items())].  Track values
    are updated in place, so the dict keeps its keys and their order.
    Returns the dict, the set [used] and the entries appended to [visible].
    An entry of [visible] aliases the track object of the dict; each track
    object is written at most once in a call, before it is appended, so the
    copy made here equals the aliased object when the call returns. *)
Fixpoint match_tracks (detections : list detection) (now : Q)
         (items : track_dict) (used : list Z)
  : track_dict * list Z * list (Z * track) :=
  match items with
  | [] => ([], used, [])
  | (tid, t) :: rest =>
      let '(best, _) :=
        best_match detections 0 used t (-1) (inject_Z TRACK_MAX_DIST) in
      match (if 0 <=? best then nth_error detections (Z.to_nat best) else None) with
      | Some d =>
          let t' := claim t d now in
          let '(items', used', vis) :=
            match_tracks detections now rest (best :: used) in
          ((tid, t') :: items', used', (tid, t') :: vis)
      | None =>
          let '(items', used', vis) := match_tracks detections now rest used in
          ((tid, t) :: items', used', vis)
      end
  end.

(** [max([0] + list(tracks.keys())) + 1]. *)
Definition next_track_id (tracks : track_dict) : Z :=
  fold_right Z.max 0 (keys tracks) + 1.

Definition new_track (d : detection) (now : Q) (tid : Z) : track :=
  mkTrack (cx d) (cy d) (det_bbox d) now (generate_color tid).

(** The loop that creates a track for every unclaimed detection. *)
Fixpoint spawn (ds : list detection) (i : Z) (used : list Z) (now : Q)
         (next_id : Z) (tracks : track_dict) : track_dict * list (Z * track) :=
  match ds with
  | [] => (tracks, [])
  | d :: ds' =>
      if mem i used then spawn ds' (i + 1) used now next_id tracks
      else
        let tid := next_id in
        let t := new_track d now tid in
        let '(tracks', vis) :=
          spawn ds' (i + 1) used now (next_id + 1) (dict_set tid t tracks) in
        (tracks', (tid, t) :: vis)
  end.

(** [now - tracks[tid]["last"] > TRACK_FORGET_SEC]. *)
Definition stale (now : Q) (t : track) : bool :=
  Qltb (inject_Z TRACK_FORGET_SEC) (now - t_last t).

(** The loop [for tid in list(tracks.keys())] that deletes stale tracks.
    A key of the snapshot is always present when it is looked up, since the
    loop deletes no key but the one it is visiting. *)
Definition expire_step (now : Q) (tracks : track_dict) (tid : Z) : track_dict :=
  match dict_get tid tracks with
  | Some t => if stale now t then dict_del tid tracks else tracks
  | None => tracks
  end.

Definition expire (now : Q) (tracks : track_dict) : track_dict :=
  fold_left (expire_step now) (keys tracks) tracks.

(** The dict and the [visible] list just before the expiry loop. *)
Definition match_and_spawn (detections : list detection) (tracks : track_dict)
           (now : Q) : track_dict * list (Z * track) * list (Z * track) :=
  let '(tracks1, used, matched) := match_tracks detections now tracks [] in
  let next_id := next_track_id tracks1 in
  let '(tracks2, created) := spawn detections 0 used now next_id tracks1 in
  (tracks2, matched, created).

Definition update_tracks (detections : list detection) (tracks : track_dict)
           (now : Q) : track_dict * list (Z * track) :=
  let '(tracks2, matched, created) := match_and_spawn detections tracks now in
  (expire now tracks2, matched ++ created).

(** The ids given to new tracks by one call, in the order of assignment. *)
Definition assigned_ids (detections : list detection) (tracks : track_dict)
           (now : Q) : list Z :=
  let '(_, _, created) := match_and_spawn detections tracks now in
  map fst created.

(** A process run: successive calls, starting from the empty dict the main
    loop creates.  Returns every id assigned, in the order of assignment. *)
Fixpoint run_assigned (calls : list (list detection * Q)) (tracks : track_dict)
  : list Z :=
  match calls with
  | [] => []
  | (detections, now) :: rest =>
      assigned_ids detections tracks now
      ++ run_assigned rest (fst (update_tracks detections tracks now))
  end.

(** Ids never repeat and only grow over a run. *)
Definition ids_never_reused : Prop :=
  forall calls, StronglySorted Z.lt (run_assigned calls []).

(** [z, z + 1, ..., z + n - 1]. *)
Fixpoint upfrom (z : Z) (n : nat) : list Z :=
  match n with
  | O => []
  | S n' => z :: upfrom (z + 1) n'
  end.

(** A call after which the only track expires, between two calls that each
    see one blob. *)
Definition one_blob : detection := recenter (100, 100, 10, 10).
Definition reuse_run : list (list detection * Q) :=
  [([one_blob], 0%Q); ([], 11%Q); ([one_blob], 12%Q)].

End Tracker.

(** ** Frame decoding *)

Module Decoder.

(** Fixed-width numpy integers. *)
Definition wrap_u16 (z : Z) : Z := z mod 2 ^ 16.
Definition wrap_i32 (z : Z) : Z := (z + 2 ^ 31) mod 2 ^ 32 - 2 ^ 31.

Definition byte : Set := Init.Byte.byte.
Definition u8 (b : byte) : Z := Z.of_N (Strings.Byte.to_N b).

(** A captured frame: a C-contiguous [uint8] array of two or three
    dimensions.  [f_ch] is the size of the third axis, [None] for a 2-D
    array; [f_px] reads the buffer at a flat byte offset. *)
Record raw_frame : Type := mkFrame {
  f_h : Z;
  f_w : Z;
  f_ch : option Z;
  f_px : Z -> byte
}.

(** [frame[r, c, k]] of a 3-D frame with [ch] channels. *)
Definition frame_at (frame : raw_frame) (ch r c k : Z) : byte :=
  f_px frame ((r * f_w frame + c) * ch + k).

(** A decoded array: its shape and, for a 2-D shape, its elements.  A
    [uint8] or [uint16] element is the integer it denotes. *)
Record ndarray (A : Type) : Type := mkArr {
  shape : list Z;
  at2 : Z -> Z -> A
}.
Arguments mkArr {A} _ _.
Arguments shape {A} _.
Arguments at2 {A} _ _ _.

(** Bytes in one item of the first row: [frame[0]] has [f_w] items. *)
Definition item_bytes (frame : raw_frame) : Z :=
  match f_ch frame with
  | None => 1
  | Some c => c
  end.

(** [np.array_split(row, 2)]: the first part takes the odd item. *)
Definition split_first (n : Z) : Z := n / 2 + n mod 2.
Definition split_second (n : Z) : Z := n / 2.

(** [decode_visual]; [None] stands for a raised exception. *)
Definition decode_visual (frame : raw_frame) : option (ndarray Z) :=
  let h := f_h frame in
  let w := f_w frame in
  if (HEIGHT * 2 <=? h) && (w =? WIDTH) then
    (* top = frame[:HEIGHT, :, :] raises IndexError on a 2-D array *)
    match f_ch frame with
    | None => None
    | Some c =>
        if 1 <=? c then
          Some (mkArr [HEIGHT; w] (fun r col => u8 (frame_at frame c r col 0)))
        else
          Some (mkArr [HEIGHT; w; c] (fun r col => u8 (frame_at frame c r col 0)))
    end
  else
    (* row = frame[0] raises IndexError on an empty first axis *)
    if h <=? 0 then None
    else
      (* reshape(HEIGHT, WIDTH, 2) raises ValueError on any other size *)
      if split_first w * item_bytes frame =? HEIGHT * WIDTH * 2 then
        Some (mkArr [HEIGHT; WIDTH]
                (fun r col => u8 (f_px frame ((r * WIDTH + col) * 2 + 0))))
      else None.

(** The little-endian [uint16] made of two [uint8] values,
    [low + (high << 8)] in [uint16] arithmetic. *)
Definition combine (low high : Z) : Z :=
  wrap_u16 (low + wrap_u16 (Z.shiftl high 8)).

(** [decode_thermal_raw]; [None] stands for a raised exception. *)
Definition decode_thermal_raw (frame : raw_frame) : option (ndarray Z) :=
  let h := f_h frame in
  let w := f_w frame in
  if (HEIGHT * 2 <=? h) && (w =? WIDTH) then
    match f_ch frame with
    | None => None
    | Some c =>
        if 2 <=? c then
          Some (mkArr [HEIGHT; w]
                  (fun r col =>
                     let low := u8 (frame_at frame c (HEIGHT + r) col 0) in
                     let high := u8 (frame_at frame c (HEIGHT + r) col 1) in
                     combine low high))
        else
          (* np.frombuffer(buf, dtype=np.uint16, count=WIDTH * HEIGHT) raises
             ValueError when [buf] is shorter than the requested size *)
          let off := HEIGHT * w * c in
          if WIDTH * HEIGHT * 2 <=? HEIGHT * w * c then
            Some (mkArr [HEIGHT; WIDTH]
                    (fun r col =>
                       let i := (r * WIDTH + col) * 2 in
                       combine (u8 (f_px frame (off + i)))
                               (u8 (f_px frame (off + i + 1)))))
          else None
    end
  else
    if h <=? 0 then None
    else
      let off := split_first w * item_bytes frame in
      if split_second w * item_bytes frame =? HEIGHT * WIDTH * 2 then
        Some (mkArr [HEIGHT; WIDTH]
                (fun r col =>
                   let i := (r * WIDTH + col) * 2 in
                   combine (u8 (f_px frame (off + i)))
                           (u8 (f_px frame (off + i + 1)))))
      else None.

(** [visual.shape != (HEIGHT, WIDTH)]. *)
Definition shape_ok (s : list Z) : bool :=
  match s with
  | [h; w] => (h =? HEIGHT) && (w =? WIDTH)
  | _ => false
  end.

End Decoder.

(** ** Hot object segmentation *)

Module Segmentation.
Import Geometry Decoder.

(** [delta = thermal_raw.astype(np.int32) - background.astype(np.int32)],
    at one pixel.  The cast of the float background truncates toward zero. *)
Definition delta_px (t : Z) (b : Q) : Z :=
  wrap_i32 (wrap_i32 t - wrap_i32 (Qtrunc b)).

(** [hot_mask = delta > THERMAL_DELTA_RAW]. *)
Definition hot_px (t : Z) (b : Q) : bool := THERMAL_DELTA_RAW <? delta_px t b.

(** [new_bg[cold] = (1.0 - BG_UPDATE_ALPHA) * new_bg[cold]
                    + BG_UPDATE_ALPHA * thermal_raw[cold]]. *)
Definition new_bg_px (t : Z) (b : Q) : Q :=
  if hot_px t b then b
  else ((1 - BG_UPDATE_ALPHA) * b + BG_UPDATE_ALPHA * inject_Z t)%Q.

Definition hot_mask (thermal : ndarray Z) (background : ndarray Q) : ndarray bool :=
  mkArr (shape background)
        (fun r c => hot_px (at2 thermal r c) (at2 background r c)).

(** OpenCV's part of the function, from the mask to the contours: the
    opening, the two dilations, [findContours], and for each contour its
    [contourArea] and [boundingRect]. *)
Definition blob_finder : Type := ndarray bool -> list (Q * bbox).

(** The loop over the contours. *)
Fixpoint keep_blobs (contours : list (Q * bbox)) : list detection :=
  match contours with
  | [] => []
  | (area, b) :: rest =>
      if Qltb area (inject_Z MIN_HOT_AREA) then keep_blobs rest
      else recenter b :: keep_blobs rest
  end.

Definition detect_hot_objects (find_blobs : blob_finder)
           (thermal_raw : ndarray Z) (background : ndarray Q)
  : list detection * ndarray Q :=
  let mask := hot_mask thermal_raw background in
  let new_bg :=
    mkArr (shape background)
          (fun r c => new_bg_px (at2 thermal_raw r c) (at2 background r c)) in
  (keep_blobs (find_blobs mask), new_bg).

(** [thermal.astype(np.float32)]: the start and the reset of the model. *)
Definition as_background (thermal : ndarray Z) : ndarray Q :=
  mkArr (shape thermal) (fun r c => inject_Z (at2 thermal r c)).

End Segmentation.

(** ** The recording loop *)

Module Pipeline.
Import Geometry Tracker Decoder Segmentation.

Local Open Scope string_scope.

Definition path_join (a b : string) : string := a ++ "/" ++ b.

Definition BASE_MEDIA_DIR : string := path_join "/home/kasper" "media".
Definition PHOTO_DIR : string := path_join BASE_MEDIA_DIR "photos".
Definition VIDEO_DIR : string := path_join BASE_MEDIA_DIR "videos".
Definition VIDEO_TRACKED_DIR : string := path_join BASE_MEDIA_DIR "videos_tracked".
Definition LIVE_JPEG_PATH : string := path_join BASE_MEDIA_DIR "live.jpg".
Definition STATUS_PATH : string := path_join BASE_MEDIA_DIR "status.json".

Local Close Scope string_scope.

(** An opened [cv2.VideoWriter]: the file and the codec it was opened
    with. *)
Record writer : Type := mkWriter {
  w_path : string;
  w_codec : string
}.

(** What is handed to a sink: [upscale_gray_to_bgr] of a visual plane,
    with or without the boxes and labels of the visible tracks drawn on. *)
Inductive image : Type :=
| Upscaled (gray : ndarray Z)
| Annotated (gray : ndarray Z) (visible : list (Z * track)).

(** The calls that reach outside the process, in the order they are made. *)
Inductive event : Type :=
| EvOpen (w : writer)
| EvOpenFailed (path codec : string)
| EvRelease (w : writer)
| EvWrite (w : writer) (img : image)
| EvPhoto (path : string) (gray : ndarray Z)
| EvLive (gray : ndarray Z)
| EvStatus (recording : bool) (events : Z)
| EvResetFlagRemoved.

(** What the outside world answers during one loop iteration. *)
Record tick : Type := mkTick {
  now : Q;                               (* time.time() *)
  read : option raw_frame;               (* cap.read(); None: no frame *)
  reset_flag : bool;                     (* os.path.exists(RESET_FLAG_PATH) *)
  ts : string;                           (* strftime at a recording start *)
  ts_p : string;                         (* strftime at a periodic photo *)
  is_windows : bool;                     (* sys.platform.startswith("win") *)
  can_open : string -> string -> bool;   (* VideoWriter(path, fourcc).isOpened() *)
  find_blobs : blob_finder
}.

(** The local variables of [main] that live across iterations.  The three
    variables that only steer console printing are left out. *)
Record state : Type := mkState {
  background : ndarray Q;
  vis_smooth : ndarray Q;
  prebuffer : list (ndarray Z);
  tracks : track_dict;
  recording : bool;
  raw_out : option writer;
  trk_out : option writer;
  last_seen : Q;
  last_photo_time : Q;
  recording_start_time : option Q;
  recording_label : option string;
  events_count : Z
}.

(** [make_writer]: the codecs tried in order; the events of the attempts. *)
Definition codecs_to_try (windows : bool) : list string :=
  if windows then ["mp4v"; "XVID"; "MJPG"]%string
  else ["avc1"; "H264"; "mp4v"; "MJPG"]%string.

Definition ext_of (fourcc_str : string) : string :=
  if existsb (String.eqb fourcc_str) ["mp4v"; "avc1"; "H264"]%string
  then "mp4"%string else "avi"%string.

Fixpoint try_codecs (opens : string -> string -> bool) (path_base : string)
         (codecs : list string) : option writer * list event :=
  match codecs with
  | [] => (None, [])
  | fourcc_str :: rest =>
      let path := (path_base ++ "." ++ ext_of fourcc_str)%string in
      if opens path fourcc_str then
        (Some (mkWriter path fourcc_str), [EvOpen (mkWriter path fourcc_str)])
      else
        let '(w, evs) := try_codecs opens path_base rest in
        (w, EvOpenFailed path fourcc_str :: evs)
  end.

Definition make_writer (tk : tick) (path_base : string)
  : option writer * list event :=
  try_codecs (can_open tk) path_base (codecs_to_try (is_windows tk)).

(** [deque(maxlen=...).append]: at capacity the oldest element is dropped. *)
Definition prebuffer_maxlen : nat := Z.to_nat (PRE_ROLL_SEC * CAMERA_FPS).

Definition deque_append {A} (maxlen : nat) (q : list A) (x : A) : list A :=
  let q' := q ++ [x] in
  if (maxlen <? length q')%nat then tl q' else q'.

(** The optional smoothing of the visual plane. *)
Definition smooth (vs : ndarray Q) (visual : ndarray Z) : ndarray Q :=
  mkArr (shape vs)
        (fun r c => ((1 - VISUAL_SMOOTH_ALPHA) * at2 vs r c
                     + VISUAL_SMOOTH_ALPHA * inject_Z (at2 visual r c))%Q).

Definition as_uint8 (a : ndarray Q) : ndarray Z :=
  mkArr (shape a) (fun r c => Qtrunc (at2 a r c) mod 256).

(** The state before the loop: [main] after the first decoded frame. *)
Definition initial_state (visual thermal : ndarray Z) : state :=
  mkState (as_background thermal) (as_background visual) [] [] false None None
          0 0 None None 0.

(** The frame-processing half of an iteration, from the decoded planes to
    the visible tracks. *)
Record percept : Type := mkPercept {
  p_background : ndarray Q;
  p_vis_smooth : ndarray Q;
  p_visual_out : ndarray Z;
  p_prebuffer : list (ndarray Z);
  p_tracks : track_dict;
  p_visible : list (Z * track)
}.

Definition perceive (tk : tick) (st : state) (visual thermal : ndarray Z)
  : percept :=
  let bg0 := if reset_flag tk then as_background thermal else background st in
  let vs := if ENABLE_VISUAL_SMOOTHING then smooth (vis_smooth st) visual
            else vis_smooth st in
  let visual_out := if ENABLE_VISUAL_SMOOTHING then as_uint8 vs else visual in
  let pb := deque_append prebuffer_maxlen (prebuffer st) visual_out in
  let '(detections, bg) := detect_hot_objects (find_blobs tk) thermal bg0 in
  let merged := merge_detections detections in
  let '(trs, visible) := update_tracks merged (tracks st) (now tk) in
  mkPercept bg vs visual_out pb trs visible.

(** The writes of the pre-roll flush, oldest frame first. *)
Fixpoint flush (raw trk : writer) (frames : list (ndarray Z)) : list event :=
  match frames with
  | [] => []
  | f :: rest =>
      EvWrite raw (Upscaled f) :: EvWrite trk (Upscaled f) :: flush raw trk rest
  end.

Definition release_if_open (w : option writer) : list event :=
  match w with
  | Some x => [EvRelease x]
  | None => []
  end.

Definition photo_path (stamp : string) : string :=
  path_join PHOTO_DIR (stamp ++ ".jpg")%string.

(** The block under [if objects_present and not recording].  Returns the
    state after the block and its events. *)
Definition start_recording (tk : tick) (p : percept) (st : state)
  : state * list event :=
  let raw_base := path_join VIDEO_DIR (ts tk) in
  let trk_base := path_join VIDEO_TRACKED_DIR (ts tk) in
  let '(raw, ev_raw) := make_writer tk raw_base in
  let '(trk, ev_trk) := make_writer tk trk_base in
  let snapshot := [EvPhoto (photo_path (ts tk)) (p_visual_out p)] in
  match raw, trk with
  | Some rw, Some tw =>
      (mkState (background st) (vis_smooth st) (prebuffer st) (tracks st)
               true (Some rw) (Some tw) (now tk) 0 (Some (now tk))
               (Some (ts tk)) (events_count st + 1),
       ev_raw ++ ev_trk ++ flush rw tw (prebuffer st)
       ++ [EvStatus true (events_count st + 1)] ++ snapshot)
  | _, _ =>
      (mkState (background st) (vis_smooth st) (prebuffer st) (tracks st)
               false None None (last_seen st) (last_photo_time st)
               (recording_start_time st) (Some (ts tk)) (events_count st),
       ev_raw ++ ev_trk ++ release_if_open raw ++ release_if_open trk
       ++ snapshot)
  end.

(** The block under [if recording].  [None]: a sink handle is [None] and the
    call of its [write] raises. *)
Definition while_recording (tk : tick) (p : percept) (st : state)
  : option (state * list event) :=
  let objects_present := (0 <? length (p_visible p))%nat in
  let last_seen1 := if objects_present then now tk else last_seen st in
  let photo_due :=
    objects_present
    && Qle_bool (inject_Z PHOTO_INTERVAL_SEC) (now tk - last_photo_time st) in
  let ev_photo :=
    if photo_due then [EvPhoto (photo_path (ts_p tk)) (p_visual_out p)] else [] in
  let last_photo1 := if photo_due then now tk else last_photo_time st in
  match raw_out st, trk_out st with
  | Some rw, Some tw =>
      let ev_frame :=
        [EvWrite rw (Upscaled (p_visual_out p));
         EvWrite tw (Annotated (p_visual_out p) (p_visible p))] in
      if negb objects_present
         && Qltb (inject_Z POST_ROLL_SEC) (now tk - last_seen1) then
        Some (mkState (background st) (vis_smooth st) [] (tracks st)
                      false None None last_seen1 last_photo1 None
                      (recording_label st) (events_count st),
              ev_photo ++ ev_frame
              ++ [EvRelease rw; EvRelease tw; EvStatus false (events_count st)])
      else
        Some (mkState (background st) (vis_smooth st) (prebuffer st) (tracks st)
                      true (Some rw) (Some tw) last_seen1 last_photo1
                      (recording_start_time st) (recording_label st)
                      (events_count st),
              ev_photo ++ ev_frame)
  | _, _ => None
  end.

(** The state handed to the recording blocks: the new background model,
    pre-roll buffer and track set, everything else as it was. *)
Definition perceived (p : percept) (st : state) : state :=
  mkState (p_background p) (p_vis_smooth p) (p_prebuffer p) (p_tracks p)
          (recording st) (raw_out st) (trk_out st) (last_seen st)
          (last_photo_time st) (recording_start_time st)
          (recording_label st) (events_count st).

(** [os.remove(RESET_FLAG_PATH)] when the flag file exists. *)
Definition ev_reset (tk : tick) : list event :=
  if reset_flag tk then [EvResetFlagRemoved] else [].

(** The part of an iteration after a frame has been decoded and accepted. *)
Definition process (tk : tick) (st : state) (visual thermal : ndarray Z)
  : option (state * list event) :=
  let p := perceive tk st visual thermal in
  let st1 := perceived p st in
  let ev_live := [EvLive (p_visual_out p)] in
  let objects_present := (0 <? length (p_visible p))%nat in
  let '(st2, ev_start) :=
    if objects_present && negb (recording st1) then start_recording tk p st1
    else (st1, []) in
  if recording st2 then
    match while_recording tk p st2 with
    | Some (st3, ev_rec) =>
        Some (st3, ev_reset tk ++ ev_live ++ ev_start ++ ev_rec)
    | None => None
    end
  else Some (st2, ev_reset tk ++ ev_live ++ ev_start).

(** One iteration of [while True].  A frame that cannot be read or decoded,
    or whose visual plane has the wrong shape, is dropped by [continue]. *)
Definition iteration (tk : tick) (st : state) : option (state * list event) :=
  match read tk with
  | None => Some (st, [])
  | Some frame =>
      match decode_visual frame, decode_thermal_raw frame with
      | Some visual, Some thermal =>
          if shape_ok (shape visual) then process tk st visual thermal
          else Some (st, [])
      | _, _ => Some (st, [])
      end
  end.

(** A run of the loop over successive ticks. *)
Fixpoint run (ticks : list tick) (st : state) : option (state * list event) :=
  match ticks with
  | [] => Some (st, [])
  | tk :: rest =>
      match iteration tk st with
      | Some (st1, ev1) =>
          match run rest st1 with
          | Some (st2, ev2) => Some (st2, ev1 ++ ev2)
          | None => None
          end
      | None => None
      end
  end.

(** The sink handles agree with the recording flag: both set while
    recording, both [None] while idle. *)
Definition sinks_consistent (st : state) : Prop :=
  match recording st, raw_out st, trk_out st with
  | true, Some _, Some _ => True
  | false, None, None => True
  | _, _, _ => False
  end.

(** An attempt to open a sink, successful or not. *)
Definition attempt (e : event) : Prop :=
  match e with
  | EvOpen _ | EvOpenFailed _ _ => True
  | _ => False
  end.

(** The loop invariant: the sink handles agree with the recording flag and
    the pre-roll buffer is within its capacity. *)
Definition loop_invariant (st : state) : Prop :=
  sinks_consistent st /\ (length (prebuffer st) <= prebuffer_maxlen)%nat.

(** The two paths handed to [make_writer] at a recording start. *)
Definition raw_base (tk : tick) : string := path_join VIDEO_DIR (ts tk).
Definition trk_base (tk : tick) : string := path_join VIDEO_TRACKED_DIR (ts tk).

(** An Idle-to-Recording attempt in which a sink fails to open. *)
Definition start_attempt_fails (tk : tick) (st : state)
           (visual thermal : ndarray Z) : Prop :=
  recording st = false /\
  p_visible (perceive tk st visual thermal) <> [] /\
  (fst (make_writer tk (raw_base tk)) = None \/
   fst (make_writer tk (trk_base tk)) = None).

(** Writes to a video sink, a snapshot photo or the status file. *)
Definition writes_frame_output (e : event) : bool :=
  match e with
  | EvWrite _ _ | EvPhoto _ _ | EvStatus _ _ => true
  | _ => false
  end.

(** The reading of the roll-back under which a failed start leaves no
    output of the current frame behind. *)
Definition failed_start_leaves_no_output : Prop :=
  forall tk st frame visual thermal st' evs,
    read tk = Some frame ->
    decode_visual frame = Some visual ->
    decode_thermal_raw frame = Some thermal ->
    shape_ok (shape visual) = true ->
    start_attempt_fails tk st visual thermal ->
    iteration tk st = Some (st', evs) ->
    existsb writes_frame_output evs = false.

(** A stacked two-channel frame of zero bytes, and a tick on which OpenCV
    reports one blob and no codec opens. *)
Definition dark_frame : raw_frame :=
  mkFrame (HEIGHT * 2) WIDTH (Some 2) (fun _ => Init.Byte.x00).

Definition one_blob_finder : blob_finder :=
  fun _ => [(inject_Z 100, (10, 10, 10, 10))].

Definition no_codec_tick : tick :=
  mkTick 100 (Some dark_frame) false "20240101_120000" "20240101_120000"
         false (fun _ _ => false) one_blob_finder.

(** The same tick with every codec available. *)
Definition all_codecs_tick : tick :=
  mkTick 100 (Some dark_frame) false "20240101_120000" "20240101_120000"
         false (fun _ _ => true) one_blob_finder.

Definition dark_visual : ndarray Z :=
  mkArr [HEIGHT; WIDTH] (fun r col => u8 (frame_at dark_frame 2 r col 0)).
Definition dark_thermal : ndarray Z :=
  mkArr [HEIGHT; WIDTH]
        (fun r col => combine (u8 (frame_at dark_frame 2 (HEIGHT + r) col 0))
                              (u8 (frame_at dark_frame 2 (HEIGHT + r) col 1))).

(** Projections of a trace: the sinks opened, the sinks released, the
    frames written to sinks, the photos and the status updates, each in the
    order of the calls. *)
Definition opened (evs : list event) : list writer :=
  flat_map (fun e => match e with EvOpen w => [w] | _ => [] end) evs.

Definition released (evs : list event) : list writer :=
  flat_map (fun e => match e with EvRelease w => [w] | _ => [] end) evs.

Definition writes (evs : list event) : list (writer * image) :=
  flat_map (fun e => match e with EvWrite w img => [(w, img)] | _ => [] end) evs.

Definition photos (evs : list event) : list (string * ndarray Z) :=
  flat_map (fun e => match e with EvPhoto path g => [(path, g)] | _ => [] end) evs.

Definition statuses (evs : list event) : list (bool * Z) :=
  flat_map (fun e => match e with EvStatus r n => [(r, n)] | _ => [] end) evs.

(** What happens to the sinks between the top of an iteration and the top
    of the next, by the recording flag before and after. *)
Definition sink_transition (st st' : state) (evs : list event) : Prop :=
  match recording st, recording st' with
  | false, true =>
      exists rw tw, raw_out st' = Some rw /\ trk_out st' = Some tw /\
                    opened evs = [rw; tw] /\ released evs = []
  | true, false =>
      exists rw tw, raw_out st = Some rw /\ trk_out st = Some tw /\
                    opened evs = [] /\ released evs = [rw; tw]
  | false, false => released evs = opened evs /\ (length (opened evs) <= 1)%nat
  | true, true =>
      opened evs = [] /\ released evs = [] /\
      raw_out st' = raw_out st /\ trk_out st' = trk_out st
  end.

End Pipeline.

(** ** Formatting a duration *)

Module Formatting.

Local Open Scope string_scope.

(** The decimal digits of a Python int, as [str] and [format] print it. *)
Definition str_int (n : Z) : string :=
  DecimalString.NilZero.string_of_int (Z.to_int n).

(** The format spec [02d]: at least two characters, padded with a zero. *)
Definition fmt_02d (n : Z) : string :=
  let s := str_int n in
  if (String.length s <? 2)%nat then "0" ++ s else s.

(** [int(max(0, sec))]: [max] keeps its first argument, the int 0, unless
    [sec] is greater; [int] truncates. *)
Definition whole_seconds (sec : Q) : Z :=
  if Qltb 0 sec then Qtrunc sec else 0.

Definition format_hhmmss (sec : Q) : string :=
  let sec := whole_seconds sec in
  let hh := sec / 3600 in
  let mm := (sec mod 3600) / 60 in
  let ss := sec mod 60 in
  fmt_02d hh ++ ":" ++ fmt_02d mm ++ ":" ++ fmt_02d ss.

(** The character of a decimal digit, and the two digits of a number below
    one hundred. *)
Definition digit (d : Z) : Ascii.ascii :=
  Ascii.ascii_of_N (48 + Z.to_N d).

Definition two_digits (n : Z) : string :=
  String (digit (n / 10)) (String (digit (n mod 10)) "").

End Formatting.


(** ** Camera probe and start-up *)

Module Startup.
Import Decoder Pipeline.

(** What [cv2.VideoCapture(idx, cv2.CAP_V4L2)] turns out to be: whether it
    opened, and the [(h, w)] of the frame of its first [read] ([None] when
    the read fails or returns no frame). *)
Record camera : Type := mkCamera {
  cam_opened : bool;
  cam_first : option (Z * Z)
}.

(** The shape test of [open_tc001_capture] and of the warm-up loop. *)
Definition looks_like_tc001 (h w : Z) : bool :=
  ((w =? WIDTH) && (HEIGHT * 2 <=? h)) || ((h =? HEIGHT) && (WIDTH * 2 <=? w)).

(** The loop [for idx in range(0, 5)]: the index of the capture returned
    and the indices of the captures released, in order. *)
Fixpoint probe (cams : Z -> camera) (idxs : list Z) : option Z * list Z :=
  match idxs with
  | [] => (None, [])
  | idx :: rest =>
      let cap := cams idx in
      let skip := let '(r, rel) := probe cams rest in (r, idx :: rel) in
      if negb (cam_opened cap) then skip
      else
        match cam_first cap with
        | None => skip
        | Some (h, w) => if looks_like_tc001 h w then (Some idx, []) else skip
        end
  end.

Definition open_tc001_capture (cams : Z -> camera) : option Z * list Z :=
  probe cams [0; 1; 2; 3; 4].

(** The warm-up loop [for _ in range(20)] of [main].  [reads k] is the
    result of the [k]-th [cap.read()], [None] when it fails; [n] iterations
    remain.  Returns the frame the loop breaks on. *)
Fixpoint warm_up (reads : nat -> option raw_frame) (k n : nat)
  : option raw_frame :=
  match n with
  | O => None
  | S n' =>
      match reads k with
      | Some frame =>
          if looks_like_tc001 (f_h frame) (f_w frame) then Some frame
          else warm_up reads (S k) n'
      | None => warm_up reads (S k) n'
      end
  end.

(** [main] up to the loop: the state the loop starts in and the status
    published before it, or [None] when [main] returns early. *)
Definition start_up (cams : Z -> camera) (reads : nat -> option raw_frame)
  : option (state * list event) :=
  match fst (open_tc001_capture cams) with
  | None => None
  | Some _ =>
      match warm_up reads 0 20 with
      | None => None
      | Some frame =>
          match decode_visual frame, decode_thermal_raw frame with
          | Some visual, Some thermal =>
              Some (initial_state visual thermal, [EvStatus false 0])
          | _, _ => None
          end
      end
  end.

End Startup.


(** ** The status file shared with the web application *)

Module StatusFile.

(** A Python [float] as [json.load] can return it. *)
Inductive pyfloat : Type :=
| Finite (q : Q)
| NaN
| Infinity (negative : bool).

(** A value as [json.load] returns it. *)
#[warnings="-register-all"] Inductive pyval : Type :=
| PNone
| PBool (b : bool)
| PInt (z : Z)
| PFloat (f : pyfloat)
| PStr (s : string)
| PList (l : list pyval)
| PDict (d : list (string * pyval)).

(** What is at a path: nothing that can be opened, text that [json.load]
    rejects, or the text of a JSON document, given by the value
    [json.load] returns for it. *)
Inductive file : Type :=
| Missing
| Unparsable
| Doc (v : pyval).

(** [d.get(key, default)]. *)
Fixpoint get (d : list (string * pyval)) (key : string) (default : pyval)
  : pyval :=
  match d with
  | [] => default
  | (k, v) :: rest => if String.eqb k key then v else get rest key default
  end.

(** [bool(v)]. *)
Definition truthy (v : pyval) : bool :=
  match v with
  | PNone => false
  | PBool b => b
  | PInt z => negb (z =? 0)
  | PFloat (Finite q) => negb (Qeq_bool q 0)
  | PFloat _ => true
  | PStr s => negb (String.eqb s EmptyString)
  | PList l => match l with [] => false | _ => true end
  | PDict d => match d with [] => false | _ => true end
  end.

Section Reader.

(** [int(s)] of a [str], [None] when it raises [ValueError]. *)
Variable int_of_str : string -> option Z.

(** [int(v)], [None] when it raises. *)
Definition py_int (v : pyval) : option Z :=
  match v with
  | PBool b => Some (if b then 1 else 0)
  | PInt z => Some z
  | PFloat (Finite q) => Some (Qtrunc q)
  | PStr s => int_of_str s
  | _ => None
  end.

(** [get_status] of the web application, from what is at [STATUS_PATH]. *)
Definition get_status (f : file) : bool * Z :=
  match f with
  | Doc (PDict data) =>
      let recording := truthy (get data "recording" (PBool false)) in
      match py_int (get data "events" (PInt 0)) with
      | Some events => (recording, events)
      | None => (false, 0)
      end
  | _ => (false, 0)
  end.

End Reader.

(** The two paths [write_status] touches. *)
Record status_fs : Type := mkFs {
  tmp_file : file;
  status_file : file
}.

(** Where a call of [write_status] fails, if it does. *)
Inductive write_fault : Type :=
| NoFault
| OpenFails
| DumpFails
| ReplaceFails.

(** The dictionary [write_status] serialises. *)
Definition status_doc (recording : bool) (events : Z) (ts : Q) : pyval :=
  PDict [("recording"%string, PBool recording);
         ("events"%string, PInt events);
         ("ts"%string, PFloat (Finite ts))].

(** [write_status]: the document goes to the temporary path and is moved
    over the status path; an exception at any point is swallowed. *)
Definition write_status (fault : write_fault) (recording : bool) (events : Z)
           (ts : Q) (fs : status_fs) : status_fs :=
  match fault with
  | OpenFails => fs
  | DumpFails => mkFs Unparsable (status_file fs)
  | ReplaceFails => mkFs (Doc (status_doc recording events ts)) (status_file fs)
  | NoFault => mkFs Missing (Doc (status_doc recording events ts))
  end.

(** The calls of [write_status] of one execution, in order: [answers k]
    is the fault and the clock reading of call number [k]. *)
Fixpoint publish (answers : nat -> write_fault * Q) (k : nat)
         (l : list (bool * Z)) (fs : status_fs) : status_fs :=
  match l with
  | [] => fs
  | (r, n) :: rest =>
      publish answers (S k) rest
              (write_status (fst (answers k)) r n (snd (answers k)) fs)
  end.

End StatusFile.


(** ** Notions used to state the laws of the geometry *)

Module GeometryNotions.
Import Geometry.

(** The closed rectangle of a box, as a set of integer points. *)
Definition inside (b : bbox) (px py : Z) : Prop :=
  let '(x, y, w, h) := b in x <= px <= x + w /\ y <= py <= y + h.

(** The box grown by [pad] on every side, as [_rects_intersect] does. *)
Definition grow (b : bbox) (pad : Z) : bbox :=
  let '(x, y, w, h) := b in (x - pad, y - pad, w + 2 * pad, h + 2 * pad).

Definition proper (b : bbox) : Prop :=
  let '(_, _, w, h) := b in 0 <= w /\ 0 <= h.

End GeometryNotions.

(** ** Notions used to state the laws of the tracker *)

Module TrackerNotions.
Import Geometry Tracker.

(** Squared distance from a detection to a track. *)
Definition d2_to (t : track) (d : detection) : Q :=
  dist2 (cx d) (cy d) (t_cx t) (t_cy t).

(** The tracks created for a list of detections, numbered from [nid]. *)
Fixpoint fresh_tracks (nid : Z) (ds : list detection) (now : Q) : track_dict :=
  match ds with
  | [] => []
  | d :: ds' => (nid, new_track d now nid) :: fresh_tracks (nid + 1) ds' now
  end.

(** Every track carries the colour generated from its id. *)
Definition coloured (tracks : track_dict) : Prop :=
  forall tid t, In (tid, t) tracks -> t_color t = generate_color tid.

(** The centroid and box of [t] are those of the detection [d]. *)
Definition placed_at (t : track) (d : detection) : Prop :=
  t_cx t = cx d /\ t_cy t = cy d /\ t_bbox t = det_bbox d.

End TrackerNotions.

(** ** Notions used to state the laws of the writer *)

Module WriterNotions.
Import Decoder Pipeline.

(** The file a codec is tried on. *)
Definition path_for (path_base fourcc_str : string) : string :=
  (path_base ++ "." ++ ext_of fourcc_str)%string.

Definition failed_attempts (path_base : string) (codecs : list string)
  : list event :=
  map (fun c => EvOpenFailed (path_for path_base c) c) codecs.

End WriterNotions.

(** ** Notions used to state the laws of the decoders *)

Module DecoderNotions.
Import Decoder Pipeline.

(** The test that selects the stacked layout. *)
Definition stacked (frame : raw_frame) : Prop :=
  HEIGHT * 2 <= f_h frame /\ f_w frame = WIDTH.

(** Bytes in one plane of the packed layout: two per pixel. *)
Definition plane_bytes : Z := HEIGHT * WIDTH * 2.

End DecoderNotions.

(** ** Notions used to state the laws of the loop *)

Module PipelineNotions.
Import Geometry Tracker Decoder Segmentation Pipeline.

(** The live-preview writes of a trace. *)
Definition lives (evs : list event) : list (ndarray Z) :=
  flat_map (fun e => match e with EvLive g => [g] | _ => [] end) evs.

(** The periodic photo is due: something is visible and the last photo is
    at least [PHOTO_INTERVAL_SEC] old. *)
Definition photo_due (tk : tick) (p : percept) (st : state) : bool :=
  (0 <? length (p_visible p))%nat
  && Qle_bool (inject_Z PHOTO_INTERVAL_SEC) (now tk - last_photo_time st).

(** The recording ends: nothing is visible and the last sighting is more
    than [POST_ROLL_SEC] old. *)
Definition stop_due (tk : tick) (p : percept) (st : state) : bool :=
  negb (0 <? length (p_visible p))%nat
  && Qltb (inject_Z POST_ROLL_SEC) (now tk - last_seen st).



(** The outcomes of an accepted frame, by case. *)
Definition quiet_result (tk : tick) (st : state) (p : percept)
  : state * list event :=
  (perceived p st, ev_reset tk ++ [EvLive (p_visual_out p)] ++ []).

Definition started_result (tk : tick) (st : state) (p : percept)
           (rw tw : writer) : state * list event :=
  let due := Qle_bool (inject_Z PHOTO_INTERVAL_SEC) (now tk - 0) in
  (mkState (p_background p) (p_vis_smooth p) (p_prebuffer p) (p_tracks p)
           true (Some rw) (Some tw) (now tk)
           (if due then now tk else 0%Q) (Some (now tk)) (Some (ts tk))
           (events_count st + 1),
   ev_reset tk ++ [EvLive (p_visual_out p)]
   ++ (snd (make_writer tk (raw_base tk))
       ++ snd (make_writer tk (trk_base tk))
       ++ flush rw tw (p_prebuffer p)
       ++ [EvStatus true (events_count st + 1)]
       ++ [EvPhoto (photo_path (ts tk)) (p_visual_out p)])
   ++ ((if due then [EvPhoto (photo_path (ts_p tk)) (p_visual_out p)] else [])
       ++ [EvWrite rw (Upscaled (p_visual_out p));
           EvWrite tw (Annotated (p_visual_out p) (p_visible p))])).

Definition failed_result (tk : tick) (st : state) (p : percept)
  : state * list event :=
  let raw := make_writer tk (raw_base tk) in
  let trk := make_writer tk (trk_base tk) in
  (mkState (p_background p) (p_vis_smooth p) (p_prebuffer p) (p_tracks p)
           false None None (last_seen st) (last_photo_time st)
           (recording_start_time st) (Some (ts tk)) (events_count st),
   ev_reset tk ++ [EvLive (p_visual_out p)]
   ++ (snd raw ++ snd trk
       ++ release_if_open (fst raw) ++ release_if_open (fst trk)
       ++ [EvPhoto (photo_path (ts tk)) (p_visual_out p)])).

Definition recording_result (tk : tick) (st : state) (p : percept)
           (rw tw : writer) : state * list event :=
  (if stop_due tk p st then
     mkState (p_background p) (p_vis_smooth p) [] (p_tracks p)
             false None None (last_seen st) (last_photo_time st) None
             (recording_label st) (events_count st)
   else
     mkState (p_background p) (p_vis_smooth p) (p_prebuffer p) (p_tracks p)
             true (Some rw) (Some tw)
             (if (0 <? length (p_visible p))%nat then now tk else last_seen st)
             (if photo_due tk p st then now tk else last_photo_time st)
             (recording_start_time st) (recording_label st)
             (events_count st),
   ev_reset tk ++ [EvLive (p_visual_out p)] ++ []
   ++ (if photo_due tk p st
       then [EvPhoto (photo_path (ts_p tk)) (p_visual_out p)] else [])
   ++ [EvWrite rw (Upscaled (p_visual_out p));
       EvWrite tw (Annotated (p_visual_out p) (p_visible p))]
   ++ (if stop_due tk p st
       then [EvRelease rw; EvRelease tw; EvStatus false (events_count st)]
       else [])).

(** A well-formed telemetry history, read from a state with recording flag
    [rec] and event count [count]: the published flags alternate, a start
    carries the count plus one, a stop carries the count of its start.
    Returns the flag and the count after the last publication. *)
Fixpoint telemetry (rec : bool) (count : Z) (l : list (bool * Z))
  : option (bool * Z) :=
  match l with
  | [] => Some (rec, count)
  | (r, n) :: l' =>
      if rec then
        if negb r && (n =? count) then telemetry false count l' else None
      else
        if r && (n =? count + 1) then telemetry true (count + 1) l' else None
  end.

(** An accepted frame: read, decoded, of the sensor's shape. *)
Definition accepted (tk : tick) (visual thermal : ndarray Z) : Prop :=
  exists frame,
    read tk = Some frame /\ decode_visual frame = Some visual /\
    decode_thermal_raw frame = Some thermal /\ shape_ok (shape visual) = true.

(** A recording in progress since time 100, and a tick at time 200 on
    which OpenCV finds no blob. *)
Definition recording_state : state :=
  mkState (as_background dark_thermal) (as_background dark_visual)
          [dark_visual] [] true
          (Some (mkWriter "raw.mp4" "avc1")) (Some (mkWriter "trk.mp4" "avc1"))
          100 100 (Some 100%Q) (Some "20240101_120000"%string) 1.

Definition quiet_tick : tick :=
  mkTick 200 (Some dark_frame) false "20240101_120140" "20240101_120140"
         false (fun _ _ => true) (fun _ => []).

(** A contour of the frame's hot mask that is large enough to count. *)
Definition blob_seen (tk : tick) (st : state) (thermal : ndarray Z) : Prop :=
  let bg0 := if reset_flag tk then as_background thermal else background st in
  exists area b,
    In (area, b) (find_blobs tk (hot_mask thermal bg0)) /\
    (inject_Z MIN_HOT_AREA <= area)%Q.

End PipelineNotions.

(** ** Notions used to state the laws of start-up *)

Module StartupNotions.
Import Decoder Pipeline Startup.

(** A capture that opens and whose first frame passes the shape test. *)
Definition usable (cams : Z -> camera) (idx : Z) : Prop :=
  cam_opened (cams idx) = true /\
  exists h w, cam_first (cams idx) = Some (h, w) /\ looks_like_tc001 h w = true.

(** The [k]-th read gives a frame that passes the shape test. *)
Definition valid_read (reads : nat -> option raw_frame) (k : nat)
           (frame : raw_frame) : Prop :=
  reads k = Some frame /\ looks_like_tc001 (f_h frame) (f_w frame) = true.

Definition invalid_read (reads : nat -> option raw_frame) (k : nat) : Prop :=
  forall frame, ~ valid_read reads k frame.

End StartupNotions.

(** ** Notions used to state the laws of the background model *)

Module SegmentationNotions.
Import Geometry Decoder Segmentation.

(** The background at one pixel after [n] calls of [detect_hot_objects]
    that all see the thermal value [t] there. *)
Fixpoint settle (t : Z) (n : nat) (b : Q) : Q :=
  match n with
  | O => b
  | S n' => new_bg_px t (settle t n' b)
  end.

Definition in_range (b : Q) : Prop := (0 <= b)%Q /\ (b <= inject_Z 65535)%Q.

End SegmentationNotions.

(** ** Facts about the merge loops *)

Module GeometryFacts.
Import Geometry.

Lemma Qltb_lt x y : Qltb x y = true <-> (x < y)%Q.
Proof.
  unfold Qltb. rewrite negb_true_iff. split; intro H.
  - apply Qnot_le_lt. intro Hle. apply Qle_bool_iff in Hle. congruence.
  - destruct (Qle_bool y x) eqn:E; auto.
    apply Qle_bool_iff in E. exfalso. exact (Qlt_not_le _ _ H E).
Qed.

Lemma rects_intersect_sym b1 b2 pad :
  _rects_intersect b1 b2 pad = _rects_intersect b2 b1 pad.
Proof.
  destruct b1 as [[[x1 y1] w1] h1], b2 as [[[x2 y2] w2] h2]; simpl.
  f_equal.
  destruct (x1 + w1 + pad <? x2 - pad), (x2 + w2 + pad <? x1 - pad),
    (y1 + h1 + pad <? y2 - pad), (y2 + h2 + pad <? y1 - pad); reflexivity.
Qed.

Lemma dist2_sym ax ay bx by_ : (dist2 ax ay bx by_ == dist2 bx by_ ax ay)%Q.
Proof. unfold dist2; ring. Qed.

Lemma close_sym b1 b2 : close b1 b2 = close b2 b1.
Proof.
  unfold close.
  apply eq_true_iff_eq. rewrite !Qltb_lt.
  rewrite (dist2_sym (center_x b1)). reflexivity.
Qed.

Lemma should_merge_sym b1 b2 : should_merge b1 b2 = should_merge b2 b1.
Proof.
  unfold should_merge. now rewrite close_sym, rects_intersect_sym.
Qed.

Lemma free_all_clear ds : free ds (repeat false (length ds)) = ds.
Proof. induction ds; simpl; congruence. Qed.

Lemma count_free_all_clear n : count_free (repeat false n) = n.
Proof. induction n; simpl; congruence. Qed.

(** The inner loop never clears [changed], never frees a flag, and frees
    strictly fewer flags when it sets [changed]. *)
Lemma absorb_count m ds used c m' us c' :
  absorb m ds used c = (m', us, c') ->
  (c = true -> c' = true) /\
  (count_free us <= count_free used)%nat /\
  (c = false -> c' = true -> (count_free us < count_free used)%nat).
Proof.
  revert m used c m' us c'.
  induction ds as [|d ds IH]; intros m [|u used] c m' us c' H; simpl in H;
    try (inversion H; subst; repeat split; auto; try lia; congruence).
  destruct u.
  - destruct (absorb m ds used c) as [[m1 us1] c1] eqn:E.
    inversion H; subst. apply IH in E. simpl. tauto.
  - destruct (close m (det_bbox d) || _rects_intersect m (det_bbox d) 0).
    + destruct (absorb _ ds used true) as [[m1 us1] c1] eqn:E.
      inversion H; subst. apply IH in E. simpl.
      destruct E as (E1 & E2 & _). repeat split; auto; lia.
    + destruct (absorb m ds used c) as [[m1 us1] c1] eqn:E.
      inversion H; subst. apply IH in E. simpl.
      destruct E as (E1 & E2 & E3). repeat split; auto; try lia.
      intros. specialize (E3 H0 H1). lia.
Qed.

Lemma scan_count ds used c out c' :
  scan ds used c = (out, c') ->
  (c = true -> c' = true) /\
  (length out <= count_free used)%nat /\
  (c = false -> c' = true -> (length out < count_free used)%nat).
Proof.
  revert used c out c'.
  induction ds as [|d ds IH]; intros [|u used] c out c' H; simpl in H;
    try (inversion H; subst; simpl; repeat split; auto; try lia; congruence).
  destruct u.
  - apply IH in H. simpl. tauto.
  - destruct (absorb (det_bbox d) ds used c) as [[m us] c1] eqn:E.
    destruct (scan ds us c1) as [out1 c2] eqn:E2.
    inversion H; subst.
    apply absorb_count in E. apply IH in E2. simpl.
    destruct E as (A1 & A2 & A3), E2 as (B1 & B2 & B3).
    repeat split; auto; try lia.
    intros Hc Hc'. destruct c1.
    + specialize (A3 Hc eq_refl). lia.
    + specialize (B3 eq_refl Hc'). lia.
Qed.

(** A pass that reports a change returns a strictly shorter list. *)
Lemma merge_pass_shrinks dets out :
  merge_pass dets = (out, true) -> (length out < length dets)%nat.
Proof.
  unfold merge_pass. intro H. apply scan_count in H.
  rewrite count_free_all_clear in H. destruct H as (_ & _ & H). auto.
Qed.

Lemma merge_pass_length dets out c :
  merge_pass dets = (out, c) -> (length out <= length dets)%nat.
Proof.
  unfold merge_pass. intro H. apply scan_count in H.
  rewrite count_free_all_clear in H. tauto.
Qed.

(** A pass of the inner loop that leaves [changed] clear absorbed nothing. *)
Lemma absorb_quiet m ds used c m' us :
  absorb m ds used c = (m', us, false) ->
  c = false /\ m' = m /\ us = used /\
  Forall (fun d => should_merge m (det_bbox d) = false) (free ds used).
Proof.
  revert m used c m' us.
  induction ds as [|d ds IH]; intros m [|u used] c m' us H; simpl in H;
    try (inversion H; subst; simpl; auto).
  destruct u.
  - destruct (absorb m ds used c) as [[m1 us1] c1] eqn:E.
    inversion H; subst. apply IH in E. simpl.
    destruct E as (-> & -> & -> & F). auto.
  - fold (should_merge m (det_bbox d)) in H.
    destruct (should_merge m (det_bbox d)) eqn:T.
    + destruct (absorb _ ds used true) as [[m1 us1] c1] eqn:E.
      inversion H; subst. apply IH in E. destruct E as (E & _). discriminate.
    + destruct (absorb m ds used c) as [[m1 us1] c1] eqn:E.
      inversion H; subst. apply IH in E. simpl.
      destruct E as (-> & -> & -> & F). auto.
Qed.

Lemma absorb_quiet_conv m ds used :
  Forall (fun d => should_merge m (det_bbox d) = false) (free ds used) ->
  absorb m ds used false = (m, used, false).
Proof.
  revert used. induction ds as [|d ds IH]; intros [|u used] F; simpl; auto.
  destruct u; simpl in F.
  - rewrite (IH _ F). reflexivity.
  - inversion F; subst. fold (should_merge m (det_bbox d)).
    rewrite H1, (IH _ H2). reflexivity.
Qed.

Lemma scan_quiet ds used c out :
  scan ds used c = (out, false) ->
  c = false /\ out = recentered (free ds used) /\ separated (free ds used).
Proof.
  revert used c out.
  induction ds as [|d ds IH]; intros [|u used] c out H; simpl in H;
    try (inversion H; subst; simpl; repeat split; constructor).
  destruct u.
  - apply IH in H. simpl. exact H.
  - destruct (absorb (det_bbox d) ds used c) as [[m us] c1] eqn:E.
    destruct (scan ds us c1) as [out1 c2] eqn:E2.
    inversion H; subst.
    apply IH in E2. destruct E2 as (-> & -> & S).
    apply absorb_quiet in E. destruct E as (-> & -> & -> & F).
    simpl. repeat split; auto. constructor; auto.
Qed.

Lemma scan_quiet_conv ds used :
  separated (free ds used) ->
  scan ds used false = (recentered (free ds used), false).
Proof.
  revert used. induction ds as [|d ds IH]; intros [|u used] S; simpl; auto.
  destruct u; simpl in S.
  - apply IH; auto.
  - inversion S; subst.
    rewrite (absorb_quiet_conv _ _ _ H1), (IH _ H2). reflexivity.
Qed.

Lemma merge_pass_quiet dets out :
  merge_pass dets = (out, false) -> out = recentered dets /\ separated dets.
Proof.
  unfold merge_pass. intro H. apply scan_quiet in H.
  rewrite free_all_clear in H. tauto.
Qed.

Lemma merge_pass_separated dets :
  separated dets -> merge_pass dets = (recentered dets, false).
Proof.
  intro S. unfold merge_pass.
  rewrite <- (free_all_clear dets) in S.
  rewrite (scan_quiet_conv _ _ S), free_all_clear. reflexivity.
Qed.

Lemma separated_recentered ds : separated ds -> separated (recentered ds).
Proof.
  unfold separated, recentered. induction 1; simpl; constructor; auto.
  rewrite Forall_map. simpl. exact H.
Qed.

Lemma recentered_idem ds : recentered (recentered ds) = recentered ds.
Proof. unfold recentered. rewrite map_map. reflexivity. Qed.

(** The loop leaves through [changed = False]: the list it returns is the
    output of a pass over some list [last] that changed nothing. *)
Lemma merge_loop_exits n dets :
  (length dets <= n)%nat ->
  exists last, merge_pass last = (merge_loop n dets, false).
Proof.
  revert dets. induction n as [|n IH]; intros dets L; simpl.
  - destruct (merge_pass dets) as [out c] eqn:E. destruct c.
    + apply merge_pass_shrinks in E. lia.
    + eauto.
  - destruct (merge_pass dets) as [out c] eqn:E. destruct c.
    + apply IH. apply merge_pass_shrinks in E. lia.
    + eauto.
Qed.

Lemma merge_detections_exits dets :
  exists last, merge_pass last = (merge_detections dets, false).
Proof. apply merge_loop_exits. unfold merge_detections. lia. Qed.

Lemma merge_loop_quiet n dets :
  merge_pass dets = (dets, false) -> merge_loop n dets = dets.
Proof. intro H. destruct n; simpl; rewrite H; reflexivity. Qed.

Lemma ForallOrdPairs_nth {A} (R : A -> A -> Prop) (l : list A) :
  ForallOrdPairs R l ->
  forall i j a b, (i < j)%nat ->
    nth_error l i = Some a -> nth_error l j = Some b -> R a b.
Proof.
  induction 1 as [|x l F P IH]; intros i j a b Hij Hi Hj.
  - destruct i; discriminate.
  - destruct j as [|j]; [lia|]. destruct i as [|i]; simpl in *.
    + inversion Hi; subst. rewrite Forall_forall in F.
      apply F. eapply nth_error_In; eauto.
    + eapply IH with (i := i) (j := j); eauto; lia.
Qed.

Lemma separated_nth ds i j d1 d2 :
  separated ds -> i <> j ->
  nth_error ds i = Some d1 -> nth_error ds j = Some d2 ->
  should_merge (det_bbox d1) (det_bbox d2) = false.
Proof.
  intros S Hij Hi Hj.
  destruct (Nat.lt_ge_cases i j) as [L|L].
  - exact (ForallOrdPairs_nth _ _ S i j d1 d2 L Hi Hj).
  - rewrite should_merge_sym.
    apply (ForallOrdPairs_nth _ _ S j i d2 d1); auto; lia.
Qed.

Lemma merge_detections_quiet dets :
  let out := merge_detections dets in
  out = recentered out /\ separated out /\ merge_pass out = (out, false).
Proof.
  intro out. destruct (merge_detections_exits dets) as [last E].
  fold out in E. apply merge_pass_quiet in E. destruct E as (E & S).
  assert (R : out = recentered out) by (rewrite E, recentered_idem; reflexivity).
  assert (S' : separated out) by (rewrite E; apply separated_recentered, S).
  repeat split; auto.
  rewrite (merge_pass_separated _ S'), <- R. reflexivity.
Qed.

(** C5. For every input list, the list returned by [merge_detections] is a
    fixpoint of merging: a further pass over it changes nothing and
    [merge_detections] returns it unchanged; no two detections at distinct
    positions of the output have boxes that intersect or touch (zero padding);
    no two have centroids at squared distance below [SPLIT_DISTANCE_PX]
    squared, that is at distance below [SPLIT_DISTANCE_PX]; and every output
    centroid is the centre of its bounding box. *)
Theorem merge_detections_fixpoint (detections : list detection) :
  let out := merge_detections detections in
  merge_pass out = (out, false) /\
  merge_detections out = out /\
  (forall i j d1 d2, i <> j ->
     nth_error out i = Some d1 -> nth_error out j = Some d2 ->
     _rects_intersect (det_bbox d1) (det_bbox d2) 0 = false /\
     ~ (dist2 (cx d1) (cy d1) (cx d2) (cy d2)
          < inject_Z (SPLIT_DISTANCE_PX * SPLIT_DISTANCE_PX))%Q) /\
  (forall d, In d out ->
     cx d = center_x (det_bbox d) /\ cy d = center_y (det_bbox d)).
Proof.
  intro out. destruct (merge_detections_quiet detections) as (R & S & P).
  fold out in R, S, P.
  assert (C : forall d, In d out ->
            cx d = center_x (det_bbox d) /\ cy d = center_y (det_bbox d)).
  { intros d Hd. rewrite R in Hd. unfold recentered in Hd.
    apply in_map_iff in Hd. destruct Hd as (d0 & <- & _). simpl. auto. }
  repeat split.
  - exact P.
  - unfold merge_detections. apply merge_loop_quiet, P.
  - pose proof (separated_nth _ _ _ _ _ S H H0 H1) as M.
    unfold should_merge in M. apply orb_false_iff in M. tauto.
  - pose proof (separated_nth _ _ _ _ _ S H H0 H1) as M.
    unfold should_merge in M. apply orb_false_iff in M. destruct M as (M & _).
    destruct (C d1 (nth_error_In _ _ H0)) as (-> & ->).
    destruct (C d2 (nth_error_In _ _ H1)) as (-> & ->).
    intro L. apply Qltb_lt in L. unfold close in M. congruence.
  - apply C; auto.
  - apply C; auto.
Qed.

Lemma contains_refl b : contains b b.
Proof. destruct b as [[[x y] w] h]; simpl; lia. Qed.

Lemma contains_trans a b c : contains a b -> contains b c -> contains a c.
Proof.
  destruct a as [[[? ?] ?] ?], b as [[[? ?] ?] ?], c as [[[? ?] ?] ?].
  simpl; lia.
Qed.

Lemma union_contains_l a b : contains (_union_bbox a b) a.
Proof.
  destruct a as [[[? ?] ?] ?], b as [[[? ?] ?] ?]; simpl; lia.
Qed.

Lemma union_contains_r a b : contains (_union_bbox a b) b.
Proof.
  destruct a as [[[? ?] ?] ?], b as [[[? ?] ?] ?]; simpl; lia.
Qed.

(** The accumulated box only grows, and a detection that was free before
    the inner loop is either still free or inside the accumulated box. *)
Lemma absorb_covers m ds used c m' us c' :
  absorb m ds used c = (m', us, c') ->
  contains m' m /\
  forall d, In d (free ds used) ->
    In d (free ds us) \/ contains m' (det_bbox d).
Proof.
  revert m used c m' us c'.
  induction ds as [|d0 ds IH]; intros m [|u used] c m' us c' H; simpl in H;
    try (inversion H; subst; split; [apply contains_refl | simpl; tauto]).
  destruct u.
  - destruct (absorb m ds used c) as [[m1 us1] c1] eqn:E.
    inversion H; subst. apply IH in E. simpl. exact E.
  - destruct (close m (det_bbox d0) || _rects_intersect m (det_bbox d0) 0).
    + destruct (absorb _ ds used true) as [[m1 us1] c1] eqn:E.
      inversion H; subst. apply IH in E. destruct E as (E1 & E2). split.
      * eapply contains_trans; [exact E1 | apply union_contains_l].
      * simpl. intros d [<- | Hd].
        -- right. eapply contains_trans; [exact E1 | apply union_contains_r].
        -- apply E2, Hd.
    + destruct (absorb m ds used c) as [[m1 us1] c1] eqn:E.
      inversion H; subst. apply IH in E. destruct E as (E1 & E2). split; auto.
      simpl. intros d [<- | Hd]; auto.
      destruct (E2 d Hd); auto.
Qed.

Lemma scan_covers ds used c out c' :
  scan ds used c = (out, c') ->
  forall d, In d (free ds used) ->
    exists u, In u out /\ contains (det_bbox u) (det_bbox d).
Proof.
  revert used c out c'.
  induction ds as [|d0 ds IH]; intros [|u used] c out c' H d Hd; simpl in *;
    try contradiction.
  destruct u.
  - eapply IH; eauto.
  - destruct (absorb (det_bbox d0) ds used c) as [[m us] c1] eqn:E.
    destruct (scan ds us c1) as [out1 c2] eqn:E2.
    inversion H; subst. apply absorb_covers in E. destruct E as (E1 & E3).
    destruct Hd as [<- | Hd].
    + exists (recenter m). simpl; auto.
    + destruct (E3 d Hd) as [F | F].
      * destruct (IH _ _ _ _ E2 d F) as (u & Hu & Cu). exists u; simpl; auto.
      * exists (recenter m). simpl; auto.
Qed.

Lemma merge_pass_covers dets out c :
  merge_pass dets = (out, c) ->
  forall d, In d dets -> exists u, In u out /\ contains (det_bbox u) (det_bbox d).
Proof.
  unfold merge_pass. intros H d Hd.
  eapply scan_covers; eauto. rewrite free_all_clear. exact Hd.
Qed.

Lemma merge_loop_covers n dets d :
  In d dets ->
  exists u, In u (merge_loop n dets) /\ contains (det_bbox u) (det_bbox d).
Proof.
  revert dets d. induction n as [|n IH]; intros dets d Hd; simpl;
    destruct (merge_pass dets) as [out c] eqn:E;
    destruct (merge_pass_covers _ _ _ E d Hd) as (u & Hu & Cu).
  - destruct c; eauto.
  - destruct c; eauto.
    destruct (IH out u Hu) as (v & Hv & Cv).
    exists v; split; auto. eapply contains_trans; eauto.
Qed.

Lemma merge_pass_one d : merge_pass [d] = ([recenter (det_bbox d)], false).
Proof. reflexivity. Qed.

Lemma merge_pass_two d1 d2 :
  merge_pass [d1; d2]
  = if should_merge (det_bbox d1) (det_bbox d2)
    then ([recenter (_union_bbox (det_bbox d1) (det_bbox d2))], true)
    else ([recenter (det_bbox d1); recenter (det_bbox d2)], false).
Proof.
  unfold merge_pass, should_merge. cbn [length repeat scan absorb].
  destruct (close (det_bbox d1) (det_bbox d2)
            || _rects_intersect (det_bbox d1) (det_bbox d2) 0); reflexivity.
Qed.

Lemma merge_detections_two_merge d1 d2 :
  should_merge (det_bbox d1) (det_bbox d2) = true ->
  merge_detections [d1; d2]
  = [recenter (_union_bbox (det_bbox d1) (det_bbox d2))].
Proof.
  intro H. unfold merge_detections. cbn [length merge_loop].
  rewrite merge_pass_two, H, merge_pass_one. reflexivity.
Qed.

Example merge_three_blobs :
  merge_detections [blob_a; blob_b; blob_c]
  = [recenter (40, 100, 62, 2); recenter (110, 100, 2, 2)].
Proof. reflexivity. Qed.

Example merge_chain :
  merge_detections [link_a; link_b; link_c] = [recenter (0, 0, 50, 10)].
Proof. reflexivity. Qed.

(** C6, as stated, fails.  [blob_a] and [blob_c] have centroids 10 px apart,
    yet the output keeps them in two detections, because [blob_a] first
    absorbs [blob_b] and the test is made against the union's centre.
    [link_a] and [link_c] are 40 px apart with disjoint boxes, yet they end
    in one detection, joined through [link_b]. *)
Lemma merge_detections_not_pairwise :
  ~ merges_every_close_pair /\ ~ keeps_every_far_pair.
Proof.
  split.
  - intro H.
    specialize (H [blob_a; blob_b; blob_c] 0%nat 2%nat blob_a blob_c).
    destruct H as (u & Hu & C1 & C2); try reflexivity; try discriminate.
    rewrite merge_three_blobs in Hu.
    destruct Hu as [<- | [<- | []]]; simpl in *; lia.
  - intro H.
    apply (H [link_a; link_b; link_c] 0%nat 2%nat link_a link_c);
      try reflexivity; try discriminate.
    rewrite merge_chain. exists (recenter (0, 0, 50, 10)).
    simpl. repeat split; auto; lia.
Qed.

(** C6, amended.  The merge test compares each candidate with the box
    accumulated so far, in list order.  For an input of exactly two
    detections: when their box centres are less than [SPLIT_DISTANCE_PX]
    apart or their boxes intersect or touch, the output is the single
    detection of the union box, which contains both; otherwise both stay,
    each with its own box.  For any input: every input box lies inside some
    output box, and an input in which no pair passes the merge test is
    returned with every box kept apart. *)
Theorem merge_detections_pair_rule :
  (forall d1 d2,
     should_merge (det_bbox d1) (det_bbox d2) = true ->
     merge_detections [d1; d2]
       = [recenter (_union_bbox (det_bbox d1) (det_bbox d2))] /\
     merged_as_one (merge_detections [d1; d2]) d1 d2) /\
  (forall d1 d2,
     should_merge (det_bbox d1) (det_bbox d2) = false ->
     merge_detections [d1; d2]
       = [recenter (det_bbox d1); recenter (det_bbox d2)]) /\
  (forall dets d, In d dets ->
     exists u, In u (merge_detections dets) /\
               contains (det_bbox u) (det_bbox d)) /\
  (forall dets, separated dets -> merge_detections dets = recentered dets).
Proof.
  repeat split.
  - apply merge_detections_two_merge, H.
  - rewrite (merge_detections_two_merge _ _ H).
    eexists; split; [left; reflexivity|]. simpl.
    split; [apply union_contains_l | apply union_contains_r].
  - intros d1 d2 H. unfold merge_detections. simpl merge_loop.
    rewrite merge_pass_two, H. reflexivity.
  - intros dets d Hd. apply merge_loop_covers, Hd.
  - intros dets S. unfold merge_detections.
    destruct (length dets); simpl; rewrite (merge_pass_separated _ S); reflexivity.
Qed.

Lemma merge_detections_pair_rule_witness :
  merge_detections [blob_a; blob_b]
    = [recenter (_union_bbox (det_bbox blob_a) (det_bbox blob_b))] /\
  merge_detections [link_a; link_c]
    = [recenter (det_bbox link_a); recenter (det_bbox link_c)] /\
  (exists u, In u (merge_detections [blob_a; blob_b; blob_c]) /\
             contains (det_bbox u) (det_bbox blob_b)) /\
  merge_detections [link_a; link_c] = recentered [link_a; link_c].
Proof.
  destruct merge_detections_pair_rule as (P1 & P2 & P3 & P4).
  split; [| split; [| split]].
  - apply (P1 blob_a blob_b). reflexivity.
  - apply (P2 link_a link_c). reflexivity.
  - apply (P3 [blob_a; blob_b; blob_c] blob_b). simpl; auto.
  - apply (P4 [link_a; link_c]).
    repeat constructor.
Defined.

Lemma merge_detections_fixpoint_witness :
  let out := merge_detections [blob_a; blob_b; blob_c] in
  merge_detections out = out /\
  forall d1 d2, nth_error out 0 = Some d1 -> nth_error out 1 = Some d2 ->
    _rects_intersect (det_bbox d1) (det_bbox d2) 0 = false.
Proof.
  intro out.
  destruct (merge_detections_fixpoint [blob_a; blob_b; blob_c]) as (_ & F & S & _).
  split; [exact F|].
  intros d1 d2 H1 H2.
  exact (proj1 (S 0%nat 1%nat d1 d2 (Nat.neq_0_succ 0) H1 H2)).
Defined.

End GeometryFacts.

(** ** Facts about the tracker *)

Module TrackerFacts.
Import Geometry Tracker GeometryFacts.

Lemma mem_true_iff i used : mem i used = true <-> In i used.
Proof.
  unfold mem. rewrite existsb_exists. split.
  - intros (x & Hx & E). apply Z.eqb_eq in E. subst; auto.
  - intro H. exists i. split; auto. apply Z.eqb_refl.
Qed.

Lemma dict_get_del tid k tracks :
  dict_get tid (dict_del k tracks)
  = if tid =? k then None else dict_get tid tracks.
Proof.
  unfold dict_del. induction tracks as [|[k0 t0] rest IH]; simpl.
  - destruct (tid =? k); reflexivity.
  - destruct (k0 =? k) eqn:E1; simpl.
    + apply Z.eqb_eq in E1. subst k0. rewrite IH.
      destruct (tid =? k) eqn:E2; auto.
      rewrite Z.eqb_sym, E2. reflexivity.
    + destruct (k0 =? tid) eqn:E2; auto.
      apply Z.eqb_eq in E2. subst k0. rewrite E1. reflexivity.
Qed.

Lemma dict_get_set tid k t tracks :
  dict_get tid (dict_set k t tracks)
  = if k =? tid then Some t else dict_get tid tracks.
Proof.
  induction tracks as [|[k0 t0] rest IH]; simpl.
  - reflexivity.
  - destruct (k0 =? k) eqn:E1; simpl.
    + apply Z.eqb_eq in E1. subst k0. destruct (k =? tid); reflexivity.
    + rewrite IH. destruct (k0 =? tid) eqn:E2; auto.
      apply Z.eqb_eq in E2. subst k0. rewrite Z.eqb_sym, E1. reflexivity.
Qed.

Lemma dict_get_keys tid t tracks :
  dict_get tid tracks = Some t -> In tid (keys tracks).
Proof.
  induction tracks as [|[k0 t0] rest IH]; simpl; [discriminate|].
  destruct (k0 =? tid) eqn:E; auto.
  apply Z.eqb_eq in E. auto.
Qed.

Lemma dict_get_In tid t tracks :
  dict_get tid tracks = Some t -> In (tid, t) tracks.
Proof.
  induction tracks as [|[k0 t0] rest IH]; simpl; [discriminate|].
  destruct (k0 =? tid) eqn:E; auto.
  apply Z.eqb_eq in E. intro H. inversion H; subst. auto.
Qed.

Lemma In_dict_get tid t tracks :
  NoDup (keys tracks) -> In (tid, t) tracks -> dict_get tid tracks = Some t.
Proof.
  induction tracks as [|[k0 t0] rest IH]; simpl; [tauto|].
  intros ND [E | H].
  - inversion E; subst. rewrite Z.eqb_refl. reflexivity.
  - inversion ND; subst. destruct (k0 =? tid) eqn:E.
    + apply Z.eqb_eq in E. subst k0. exfalso. apply H2.
      unfold keys. apply in_map_iff. exists (tid, t). auto.
    + auto.
Qed.

(** What one step of the expiry loop does to a lookup. *)
Lemma expire_step_get now tracks k tid :
  dict_get tid (expire_step now tracks k)
  = match dict_get tid tracks with
    | Some t => if (tid =? k) && stale now t then None else Some t
    | None => None
    end.
Proof.
  unfold expire_step. destruct (dict_get k tracks) as [tk|] eqn:Ek.
  - destruct (stale now tk) eqn:Es.
    + rewrite dict_get_del. destruct (tid =? k) eqn:E.
      * apply Z.eqb_eq in E. subst. rewrite Ek, Es. reflexivity.
      * destruct (dict_get tid tracks); reflexivity.
    + destruct (tid =? k) eqn:E.
      * apply Z.eqb_eq in E. subst. rewrite Ek, Es. reflexivity.
      * destruct (dict_get tid tracks); reflexivity.
  - destruct (tid =? k) eqn:E.
    + apply Z.eqb_eq in E. subst. rewrite Ek. reflexivity.
    + destruct (dict_get tid tracks); reflexivity.
Qed.

Lemma expire_fold_get now ks tracks tid :
  dict_get tid (fold_left (expire_step now) ks tracks)
  = match dict_get tid tracks with
    | Some t => if mem tid ks && stale now t then None else Some t
    | None => None
    end.
Proof.
  revert tracks. induction ks as [|k ks IH]; intro tracks; cbn [fold_left].
  - destruct (dict_get tid tracks); reflexivity.
  - rewrite IH, expire_step_get.
    destruct (dict_get tid tracks) as [t|]; auto.
    unfold mem; cbn [existsb]; fold (mem tid ks).
    destruct (tid =? k), (stale now t) eqn:Es, (mem tid ks); simpl;
      rewrite ?Es; reflexivity.
Qed.

(** A lookup after the expiry loop: stale tracks are gone, the others are
    as they were. *)
Lemma expire_get now tracks tid :
  dict_get tid (expire now tracks)
  = match dict_get tid tracks with
    | Some t => if stale now t then None else Some t
    | None => None
    end.
Proof.
  unfold expire. rewrite expire_fold_get.
  destruct (dict_get tid tracks) as [t|] eqn:E; auto.
  apply dict_get_keys in E. apply mem_true_iff in E. rewrite E. reflexivity.
Qed.

Lemma stale_iff now t :
  stale now t = true <-> (inject_Z TRACK_FORGET_SEC < now - t_last t)%Q.
Proof. unfold stale. apply Qltb_lt. Qed.

Lemma not_stale_iff now t :
  stale now t = false <-> (now - t_last t <= inject_Z TRACK_FORGET_SEC)%Q.
Proof.
  unfold stale, Qltb. rewrite negb_false_iff. apply Qle_bool_iff.
Qed.

Lemma just_seen_not_stale now t : t_last t = now -> stale now t = false.
Proof.
  intro E. apply not_stale_iff. rewrite E.
  setoid_replace (now - now)%Q with 0%Q by ring. discriminate.
Qed.

Lemma match_tracks_keys dets now items used :
  keys (fst (fst (match_tracks dets now items used))) = keys items.
Proof.
  revert used. induction items as [|[tid t] rest IH]; intro used; simpl; auto.
  destruct (best_match dets 0 used t (-1) (inject_Z TRACK_MAX_DIST)) as [best bd].
  destruct (if 0 <=? best then nth_error dets (Z.to_nat best) else None).
  - specialize (IH (best :: used)).
    destruct (match_tracks dets now rest (best :: used)) as [[i' u'] v'].
    simpl in *. congruence.
  - specialize (IH used).
    destruct (match_tracks dets now rest used) as [[i' u'] v'].
    simpl in *. congruence.
Qed.

(** Every entry the matching loop appends to [visible] is in the dict and
    carries [last = now]. *)
Lemma match_tracks_matched dets now items used tid t :
  In (tid, t) (snd (match_tracks dets now items used)) ->
  In (tid, t) (fst (fst (match_tracks dets now items used))) /\ t_last t = now.
Proof.
  revert used. induction items as [|[k t0] rest IH]; intro used; simpl; [tauto|].
  destruct (best_match dets 0 used t0 (-1) (inject_Z TRACK_MAX_DIST)) as [best bd].
  destruct (if 0 <=? best then nth_error dets (Z.to_nat best) else None).
  - specialize (IH (best :: used)).
    destruct (match_tracks dets now rest (best :: used)) as [[i' u'] v'].
    simpl in *. intros [E | H].
    + inversion E; subst. simpl; auto.
    + destruct (IH H); auto.
  - specialize (IH used).
    destruct (match_tracks dets now rest used) as [[i' u'] v'].
    simpl in *. intro H. destruct (IH H); auto.
Qed.

Lemma next_track_id_above tracks k :
  In k (keys tracks) -> k < next_track_id tracks.
Proof.
  unfold next_track_id. induction (keys tracks) as [|k0 ks IH]; simpl; [tauto|].
  intros [-> | H]; [lia|]. specialize (IH H). lia.
Qed.

Lemma next_track_id_keys t1 t2 :
  keys t1 = keys t2 -> next_track_id t1 = next_track_id t2.
Proof. unfold next_track_id. intros ->. reflexivity. Qed.

Lemma upfrom_ge z n k : In k (upfrom z n) -> z <= k.
Proof.
  revert z. induction n as [|n IH]; intros z; simpl; [tauto|].
  intros [<- | H]; [lia|]. apply IH in H. lia.
Qed.

Lemma upfrom_sorted z n : StronglySorted Z.lt (upfrom z n).
Proof.
  revert z. induction n as [|n IH]; intro z; simpl; constructor; auto.
  apply Forall_forall. intros k H. apply upfrom_ge in H. lia.
Qed.

(** The spawning loop hands out consecutive ids from [next_id]. *)
Lemma spawn_ids ds i used now next_id tracks :
  map fst (snd (spawn ds i used now next_id tracks))
  = upfrom next_id (length (snd (spawn ds i used now next_id tracks))).
Proof.
  revert i next_id tracks. induction ds as [|d ds IH]; intros i nid tracks;
    simpl; auto.
  destruct (mem i used); auto.
  specialize (IH (i + 1) (nid + 1) (dict_set nid (new_track d now nid) tracks)).
  destruct (spawn ds (i + 1) used now (nid + 1) _) as [tr vis].
  simpl in *. congruence.
Qed.

Lemma assigned_ids_upfrom dets tracks now :
  assigned_ids dets tracks now
  = upfrom (next_track_id tracks) (length (assigned_ids dets tracks now)).
Proof.
  unfold assigned_ids, match_and_spawn.
  pose proof (match_tracks_keys dets now tracks []) as K.
  destruct (match_tracks dets now tracks []) as [[tracks1 used] matched].
  simpl in K. rewrite (next_track_id_keys _ _ K).
  pose proof (spawn_ids dets 0 used now (next_track_id tracks) tracks1) as S.
  destruct (spawn dets 0 used now (next_track_id tracks) tracks1) as [tracks2 created].
  simpl in S. rewrite length_map. exact S.
Qed.

Example reuse_run_ids : run_assigned reuse_run [] = [1; 1].
Proof. reflexivity. Qed.

(** C7, as stated, fails: in [reuse_run] the track with id 1 expires and
    the next new track is given id 1 again. *)
Lemma track_ids_are_reused : ~ ids_never_reused.
Proof.
  intro H. specialize (H reuse_run). rewrite reuse_run_ids in H.
  inversion H as [|? ? _ F]; subst.
  inversion F as [|? ? L _]; subst. lia.
Qed.

(** C7, amended.  The ids a call of [update_tracks] assigns are
    consecutive, starting at the largest id in the track set at the start of
    the call plus one, or at 1 when the set is empty.  Hence they increase
    strictly within the call and each exceeds every id the set holds when
    the call starts.  Ids of tracks that have expired are not remembered. *)
Theorem new_ids_above_live_ids detections tracks now :
  let ids := assigned_ids detections tracks now in
  ids = upfrom (fold_right Z.max 0 (keys tracks) + 1) (length ids) /\
  (tracks = [] -> ids = upfrom 1 (length ids)) /\
  StronglySorted Z.lt ids /\
  (forall tid k, In tid ids -> In k (keys tracks) -> k < tid).
Proof.
  intro ids. pose proof (assigned_ids_upfrom detections tracks now) as E.
  fold ids in E. unfold next_track_id in E. repeat split.
  - exact E.
  - intros ->. exact E.
  - rewrite E. apply upfrom_sorted.
  - intros tid k Ht Hk. rewrite E in Ht. apply upfrom_ge in Ht.
    apply next_track_id_above in Hk. unfold next_track_id in Hk. lia.
Qed.

Lemma new_ids_above_live_ids_witness :
  let tracks := [(7, new_track one_blob 0 7); (3, new_track one_blob 0 3)] in
  let far := recenter (0, 0, 4, 4) in
  assigned_ids [far; far] tracks 1 = [8; 9] /\
  forall tid, In tid (assigned_ids [far; far] tracks 1) -> 3 < tid.
Proof.
  intros tracks far. split; [reflexivity|].
  intros tid H.
  destruct (new_ids_above_live_ids [far; far] tracks 1) as (_ & _ & _ & A).
  apply (A tid 3 H). simpl. auto.
Defined.

Lemma keys_dict_set_new tid t tracks :
  ~ In tid (keys tracks) -> keys (dict_set tid t tracks) = keys tracks ++ [tid].
Proof.
  induction tracks as [|[k t0] rest IH]; simpl; auto.
  intro H. destruct (k =? tid) eqn:E.
  - apply Z.eqb_eq in E. tauto.
  - simpl. rewrite IH; auto.
Qed.

(** With [next_id] above every key, the spawning loop appends its new
    tracks after the existing ones. *)
Lemma spawn_keys ds i used now next_id tracks :
  (forall k, In k (keys tracks) -> k < next_id) ->
  keys (fst (spawn ds i used now next_id tracks))
  = keys tracks ++ map fst (snd (spawn ds i used now next_id tracks)).
Proof.
  revert i next_id tracks. induction ds as [|d ds IH]; intros i nid tracks B;
    simpl.
  - rewrite app_nil_r. reflexivity.
  - destruct (mem i used); auto.
    assert (N : ~ In nid (keys tracks)) by (intro H; apply B in H; lia).
    specialize (IH (i + 1) (nid + 1) (dict_set nid (new_track d now nid) tracks)).
    rewrite (keys_dict_set_new _ _ _ N) in IH.
    destruct (spawn ds (i + 1) used now (nid + 1) _) as [tr vis].
    simpl in *. rewrite IH, <- app_assoc; auto.
    intros k Hk. apply in_app_or in Hk. destruct Hk as [Hk | [<- | []]].
    + apply B in Hk. lia.
    + lia.
Qed.

Lemma spawn_get_old ds i used now next_id tracks tid :
  tid < next_id ->
  dict_get tid (fst (spawn ds i used now next_id tracks)) = dict_get tid tracks.
Proof.
  revert i next_id tracks. induction ds as [|d ds IH]; intros i nid tracks B;
    simpl; auto.
  destruct (mem i used); auto.
  specialize (IH (i + 1) (nid + 1) (dict_set nid (new_track d now nid) tracks)).
  destruct (spawn ds (i + 1) used now (nid + 1) _) as [tr vis].
  simpl in *. rewrite IH by lia. rewrite dict_get_set.
  destruct (nid =? tid) eqn:E; auto. apply Z.eqb_eq in E. lia.
Qed.

Lemma spawn_created ds i used now next_id tracks tid t :
  In (tid, t) (snd (spawn ds i used now next_id tracks)) ->
  t_last t = now /\ next_id <= tid /\
  dict_get tid (fst (spawn ds i used now next_id tracks)) = Some t.
Proof.
  revert i next_id tracks. induction ds as [|d ds IH]; intros i nid tracks;
    simpl; [tauto|].
  destruct (mem i used); auto.
  pose proof (IH (i + 1) (nid + 1) (dict_set nid (new_track d now nid) tracks)) as IH'.
  pose proof (spawn_get_old ds (i + 1) used now (nid + 1)
                (dict_set nid (new_track d now nid) tracks) nid) as O.
  destruct (spawn ds (i + 1) used now (nid + 1) _) as [tr vis].
  simpl in *. intros [E | H].
  - inversion E; subst. repeat split; try lia.
    rewrite O by lia. rewrite dict_get_set, Z.eqb_refl. reflexivity.
  - destruct (IH' H) as (A & B & C). repeat split; auto; lia.
Qed.

Lemma upfrom_NoDup z n : NoDup (upfrom z n).
Proof.
  revert z. induction n as [|n IH]; intro z; simpl; constructor; auto.
  intro H. apply upfrom_ge in H. lia.
Qed.

(** The dict handed to the expiry loop has distinct keys when the input
    dict has. *)
Lemma match_and_spawn_NoDup dets tracks now :
  NoDup (keys tracks) ->
  NoDup (keys (fst (fst (match_and_spawn dets tracks now)))).
Proof.
  intro ND. unfold match_and_spawn.
  pose proof (match_tracks_keys dets now tracks []) as K.
  destruct (match_tracks dets now tracks []) as [[tracks1 used] matched].
  simpl in K.
  pose proof (spawn_keys dets 0 used now (next_track_id tracks1) tracks1
                (next_track_id_above tracks1)) as SK.
  pose proof (spawn_ids dets 0 used now (next_track_id tracks1) tracks1) as SI.
  destruct (spawn dets 0 used now (next_track_id tracks1) tracks1) as [tracks2 created].
  simpl in *. rewrite SK, SI, K.
  apply NoDup_app; auto using upfrom_NoDup.
  intros k H1 H2. apply upfrom_ge in H2.
  rewrite <- K in H1. apply next_track_id_above in H1. lia.
Qed.

Lemma filter_all {A} (p : A -> bool) l :
  (forall x, In x l -> p x = true) -> filter p l = l.
Proof.
  induction l as [|a l IH]; simpl; auto. intro H.
  rewrite (H a) by auto. rewrite IH; auto.
Qed.

Lemma filter_twice {A} (p q : A -> bool) l :
  filter p (filter q l) = filter (fun x => q x && p x) l.
Proof.
  induction l as [|a l IH]; simpl; auto.
  destruct (q a); simpl; [destruct (p a)|]; rewrite IH; reflexivity.
Qed.

Lemma keys_filter_NoDup (p : Z * track -> bool) tracks :
  NoDup (keys tracks) -> NoDup (keys (filter p tracks)).
Proof.
  unfold keys. induction tracks as [|[k t] rest IH]; simpl; auto.
  intro ND. inversion ND; subst. destruct (p (k, t)); simpl; auto.
  constructor; auto. intro H. apply H1.
  apply in_map_iff in H. destruct H as (x & E & Hx).
  apply filter_In in Hx. apply in_map_iff. exists x. tauto.
Qed.

Lemma expire_step_filter now tracks k :
  NoDup (keys tracks) ->
  expire_step now tracks k
  = filter (fun kt => negb ((fst kt =? k) && stale now (snd kt))) tracks.
Proof.
  intro ND. unfold expire_step.
  destruct (dict_get k tracks) as [tk|] eqn:E.
  - destruct (stale now tk) eqn:Es.
    + unfold dict_del. apply filter_ext_in. intros [k0 t0] H. simpl.
      destruct (k0 =? k) eqn:E0; auto. apply Z.eqb_eq in E0. subst k0.
      apply (In_dict_get _ _ _ ND) in H. rewrite E in H. inversion H; subst.
      rewrite Es. reflexivity.
    + symmetry. apply filter_all. intros [k0 t0] H. simpl.
      destruct (k0 =? k) eqn:E0; auto. apply Z.eqb_eq in E0. subst k0.
      apply (In_dict_get _ _ _ ND) in H. rewrite E in H. inversion H; subst.
      rewrite Es. reflexivity.
  - symmetry. apply filter_all. intros [k0 t0] H. simpl.
    destruct (k0 =? k) eqn:E0; auto. apply Z.eqb_eq in E0. subst k0.
    apply (In_dict_get _ _ _ ND) in H. congruence.
Qed.

Lemma expire_fold_filter now ks tracks :
  NoDup (keys tracks) ->
  fold_left (expire_step now) ks tracks
  = filter (fun kt => negb (mem (fst kt) ks && stale now (snd kt))) tracks.
Proof.
  revert tracks. induction ks as [|k ks IH]; intros tracks ND; cbn [fold_left].
  - symmetry. apply filter_all. reflexivity.
  - rewrite (expire_step_filter _ _ _ ND).
    rewrite IH by (apply keys_filter_NoDup, ND).
    rewrite filter_twice. apply filter_ext. intros [k0 t0]. simpl.
    unfold mem; cbn [existsb]; fold (mem k0 ks).
    destruct (k0 =? k), (stale now t0), (mem k0 ks); reflexivity.
Qed.

(** On a dict with distinct keys the expiry loop is a filter. *)
Lemma expire_filter now tracks :
  NoDup (keys tracks) ->
  expire now tracks = filter (fun kt => negb (stale now (snd kt))) tracks.
Proof.
  intro ND. unfold expire. rewrite (expire_fold_filter _ _ _ ND).
  apply filter_ext_in. intros [k t] H. simpl.
  assert (M : mem k (keys tracks) = true).
  { apply mem_true_iff. unfold keys. apply in_map_iff. exists (k, t). auto. }
  rewrite M. reflexivity.
Qed.

(** C8. After [update_tracks], every track still in the set has
    [now - last <= TRACK_FORGET_SEC], the forget window being the post-roll
    duration; a track that is beyond the window when the expiry loop starts
    (so on the first call whose [now] exceeds it) is deleted in that call,
    and a track within the window is kept as it is. *)
Theorem update_tracks_forgets detections tracks now :
  let before := fst (fst (match_and_spawn detections tracks now)) in
  let after := fst (update_tracks detections tracks now) in
  TRACK_FORGET_SEC = POST_ROLL_SEC /\
  (forall tid t, dict_get tid after = Some t ->
     (now - t_last t <= inject_Z TRACK_FORGET_SEC)%Q) /\
  (forall tid t, dict_get tid before = Some t ->
     (inject_Z TRACK_FORGET_SEC < now - t_last t)%Q ->
     dict_get tid after = None) /\
  (forall tid t, dict_get tid before = Some t ->
     (now - t_last t <= inject_Z TRACK_FORGET_SEC)%Q ->
     dict_get tid after = Some t) /\
  (NoDup (keys tracks) ->
   forall tid t, In (tid, t) after ->
     (now - t_last t <= inject_Z TRACK_FORGET_SEC)%Q).
Proof.
  intros before after.
  assert (A : after = expire now before).
  { unfold after, before, update_tracks.
    destruct (match_and_spawn detections tracks now) as [[t2 m] c].
    reflexivity. }
  split; [reflexivity|]. repeat split.
  - intros tid t H. rewrite A, expire_get in H.
    destruct (dict_get tid before) as [t0|]; [|discriminate].
    destruct (stale now t0) eqn:Es; [discriminate|].
    inversion H; subst. apply not_stale_iff, Es.
  - intros tid t H L. rewrite A, expire_get, H.
    apply stale_iff in L. rewrite L. reflexivity.
  - intros tid t H L. rewrite A, expire_get, H.
    apply not_stale_iff in L. rewrite L. reflexivity.
  - intros ND tid t H. rewrite A in H.
    rewrite expire_filter in H by (apply match_and_spawn_NoDup, ND).
    apply filter_In in H. destruct H as (_ & H). simpl in H.
    apply negb_true_iff in H. apply not_stale_iff, H.
Qed.

Lemma update_tracks_forgets_witness :
  let old := [(1, new_track one_blob 0 1)] in
  dict_get 1 (fst (update_tracks [] old 11)) = None /\
  dict_get 1 (fst (update_tracks [] old 10)) = Some (new_track one_blob 0 1) /\
  forall tid t, In (tid, t) (fst (update_tracks [one_blob] old 11)) ->
    (11 - t_last t <= inject_Z TRACK_FORGET_SEC)%Q.
Proof.
  intro old. split; [|split].
  - destruct (update_tracks_forgets [] old 11) as (_ & _ & D & _ & _).
    apply (D 1 (new_track one_blob 0 1)); reflexivity.
  - destruct (update_tracks_forgets [] old 10) as (_ & _ & _ & K & _).
    apply (K 1 (new_track one_blob 0 1)); [reflexivity | discriminate].
  - destruct (update_tracks_forgets [one_blob] old 11) as (_ & _ & _ & _ & N).
    apply N. repeat constructor. simpl. tauto.
Defined.

(** The nearest-detection loop either keeps its initial [best] because no
    unclaimed detection is nearer than the initial bound, or returns the
    index of an unclaimed detection nearer than that bound. *)
Lemma best_match_spec ds i used t b0 bd0 :
  let r := best_match ds i used t b0 bd0 in
  (fst r = b0 /\ snd r = bd0 /\
   forall k d, nth_error ds k = Some d ->
     mem (i + Z.of_nat k) used = false ->
     ~ (dist2 (cx d) (cy d) (t_cx t) (t_cy t) < bd0)%Q)
  \/
  (i <= fst r < i + Z.of_nat (length ds) /\
   mem (fst r) used = false /\
   exists d, nth_error ds (Z.to_nat (fst r - i)) = Some d /\
     snd r = dist2 (cx d) (cy d) (t_cx t) (t_cy t) /\ (snd r < bd0)%Q).
Proof.
  revert i b0 bd0. induction ds as [|d ds IH]; intros i b0 bd0; cbn zeta.
  - left. simpl. repeat split; auto. intros [|k] d0 H; discriminate.
  - cbn [best_match].
    assert (Sh : forall b, i + 1 <= b ->
              nth_error (d :: ds) (Z.to_nat (b - i))
              = nth_error ds (Z.to_nat (b - (i + 1)))).
    { intros b Hb. replace (b - i) with (Z.succ (b - (i + 1))) by lia.
      rewrite Z2Nat.inj_succ by lia. reflexivity. }
    destruct (mem i used) eqn:M.
    + destruct (IH (i + 1) b0 bd0) as [(E1 & E2 & N) | (R & U & d' & Hd & E & L)].
      * left. repeat split; auto. intros [|k] d0 H F.
        -- rewrite Z.add_0_r in F. congruence.
        -- apply (N k d0 H). rewrite <- F. f_equal. lia.
      * right. split; [simpl length; lia|]. split; auto.
        exists d'. rewrite Sh by lia. auto.
    + set (d2 := dist2 (cx d) (cy d) (t_cx t) (t_cy t)).
      destruct (Qltb d2 bd0) eqn:T.
      * apply Qltb_lt in T. right.
        destruct (IH (i + 1) i d2) as [(E1 & E2 & N) | (R & U & d' & Hd & E & L)].
        -- rewrite E1, E2. split; [simpl length; lia|]. split; auto.
           exists d. rewrite Z.sub_diag. simpl. auto.
        -- split; [simpl length; lia|]. split; auto.
           exists d'. rewrite Sh by lia. repeat split; auto.
           eapply Qlt_trans; eauto.
      * destruct (IH (i + 1) b0 bd0) as [(E1 & E2 & N) | (R & U & d' & Hd & E & L)].
        -- left. repeat split; auto. intros [|k] d0 H F.
           ++ simpl in H. inversion H; subst d0. fold d2. intro L.
              apply Qltb_lt in L. congruence.
           ++ apply (N k d0 H). rewrite <- F. f_equal. lia.
        -- right. split; [simpl length; lia|]. split; auto.
           exists d'. rewrite Sh by lia. auto.
Qed.

(** The first track of the dict claims a detection whenever one lies within
    the maximum squared distance; its last-seen time plays no part. *)
Lemma first_track_claims dets now tid t rest :
  (exists d, In d dets /\
     (dist2 (cx d) (cy d) (t_cx t) (t_cy t) < inject_Z TRACK_MAX_DIST)%Q) ->
  exists d', In d' dets /\
    (dist2 (cx d') (cy d') (t_cx t) (t_cy t) < inject_Z TRACK_MAX_DIST)%Q /\
    In (tid, claim t d' now) (snd (match_tracks dets now ((tid, t) :: rest) [])).
Proof.
  intros (d & Hd & L). cbn [match_tracks].
  pose proof (best_match_spec dets 0 [] t (-1) (inject_Z TRACK_MAX_DIST)) as S.
  destruct (best_match dets 0 [] t (-1) (inject_Z TRACK_MAX_DIST)) as [best bd].
  cbn zeta in S. simpl fst in S; simpl snd in S.
  destruct S as [(_ & _ & N) | (R & _ & d' & Hd' & E & L')].
  - exfalso. apply In_nth_error in Hd. destruct Hd as (k & Hk).
    apply (N k d Hk); auto.
  - replace (0 <=? best) with true by (symmetry; apply Z.leb_le; lia).
    rewrite Z.sub_0_r in Hd'. rewrite Hd'.
    destruct (match_tracks dets now rest [best]) as [[i' u'] v'].
    exists d'. split; [eapply nth_error_In; eauto|]. split.
    + rewrite <- E. exact L'.
    + simpl. auto.
Qed.

Lemma keys_NoDup_entries (tracks : track_dict) : NoDup (keys tracks) -> NoDup tracks.
Proof. unfold keys. apply NoDup_map_inv. Qed.

(** A matched track is still in the set when the call returns. *)
Lemma matched_survives dets tracks now tid t' :
  NoDup (keys tracks) ->
  In (tid, t') (snd (match_tracks dets now tracks [])) ->
  t_last t' = now /\ dict_get tid (fst (update_tracks dets tracks now)) = Some t'.
Proof.
  intros ND H. unfold update_tracks, match_and_spawn.
  pose proof (match_tracks_keys dets now tracks []) as K.
  pose proof (match_tracks_matched dets now tracks [] tid t' H) as (I & L).
  destruct (match_tracks dets now tracks []) as [[tracks1 used] matched].
  simpl in K, I.
  pose proof (spawn_get_old dets 0 used now (next_track_id tracks1) tracks1 tid) as O.
  destruct (spawn dets 0 used now (next_track_id tracks1) tracks1) as [tracks2 created].
  simpl in *. split; auto.
  rewrite expire_get, O.
  - rewrite (In_dict_get tid t' tracks1); [| rewrite K; auto | auto].
    rewrite (just_seen_not_stale now t' L). reflexivity.
  - apply next_track_id_above. unfold keys. apply in_map_iff.
    exists (tid, t'). auto.
Qed.

(** C10. Matching runs before expiry.  The track that comes first in the
    dict, even when it is already beyond the forget window at the start of
    the call, claims a detection that lies within the maximum squared
    distance; and whichever track is matched in a call gets [last = now] and
    is still in the track set the call returns. *)
Theorem matching_precedes_expiry detections tracks now :
  NoDup (keys tracks) ->
  (forall tid t rest,
     tracks = (tid, t) :: rest ->
     stale now t = true ->
     (exists d, In d detections /\
        (dist2 (cx d) (cy d) (t_cx t) (t_cy t) < inject_Z TRACK_MAX_DIST)%Q) ->
     exists d', In d' detections /\
       In (tid, claim t d' now) (snd (update_tracks detections tracks now)) /\
       dict_get tid (fst (update_tracks detections tracks now))
         = Some (claim t d' now)) /\
  (forall tid t',
     In (tid, t') (snd (match_tracks detections now tracks [])) ->
     t_last t' = now /\
     dict_get tid (fst (update_tracks detections tracks now)) = Some t').
Proof.
  intro ND. split.
  - intros tid t rest -> _ Hd.
    destruct (first_track_claims detections now tid t rest Hd) as (d' & I & _ & M).
    exists d'. split; auto. split.
    + unfold update_tracks, match_and_spawn.
      destruct (match_tracks detections now ((tid, t) :: rest) []) as [[t1 u] m].
      destruct (spawn detections 0 u now (next_track_id t1) t1) as [t2 c].
      simpl in *. apply in_or_app. auto.
    + apply (matched_survives _ _ _ _ _ ND M).
  - intros tid t' H. apply (matched_survives _ _ _ _ _ ND H).
Qed.

(** A track last seen at time 0, a blob 5 px from it, and a call at
    time 25. *)
Lemma matching_precedes_expiry_witness :
  let old := new_track one_blob 0 1 in
  let near := recenter (105, 100, 10, 10) in
  stale 25 old = true /\
  exists d', In d' [near] /\
    dict_get 1 (fst (update_tracks [near] [(1, old)] 25))
      = Some (claim old d' 25).
Proof.
  intros old near. split; [reflexivity|].
  assert (ND : NoDup (keys [(1, old)])) by (repeat constructor; simpl; tauto).
  destruct (matching_precedes_expiry [near] [(1, old)] 25 ND) as (C & _).
  destruct (C 1 old [] eq_refl eq_refl) as (d' & I & _ & G).
  - exists near. split; [simpl; auto | reflexivity].
  - exists d'. auto.
Defined.

End TrackerFacts.

(** ** Facts about decoding *)

Module DecoderFacts.
Import Decoder.

Lemma u8_range b : 0 <= u8 b < 2 ^ 8.
Proof.
  unfold u8. pose proof (Strings.Byte.to_N_bounded b) as B.
  change (2 ^ 8) with 256. lia.
Qed.

(** Below [2 ^ 8] the sum [low + (high << 8)] has no carry: it is the
    bitwise or. *)
Lemma add_is_lor low high :
  0 <= low < 2 ^ 8 -> low + Z.shiftl high 8 = Z.lor low (Z.shiftl high 8).
Proof.
  intro L.
  assert (D : Z.land low (Z.shiftl high 8) = 0).
  { apply Z.bits_inj'. intros n Hn.
    rewrite Z.land_spec, Z.bits_0.
    destruct (Z.lt_ge_cases n 8) as [S | S].
    - rewrite (Z.shiftl_spec_low high 8 n S). apply andb_false_r.
    - replace (Z.testbit low n) with false; auto.
      symmetry. destruct (Z.eq_dec low 0) as [-> | NZ]; [apply Z.bits_0|].
      apply Z.bits_above_log2; [lia|].
      apply Z.log2_lt_pow2; [lia|].
      apply Z.lt_le_trans with (2 ^ 8); [lia|].
      apply Z.pow_le_mono_r; lia. }
  rewrite (Z.add_nocarry_lxor _ _ D). apply Z.lxor_lor, D.
Qed.

Lemma combine_lor low high :
  0 <= low < 2 ^ 8 -> 0 <= high < 2 ^ 8 ->
  combine low high = Z.lor low (Z.shiftl high 8) /\
  0 <= combine low high < 2 ^ 16.
Proof.
  intros L H. unfold combine, wrap_u16.
  rewrite <- (add_is_lor low high L).
  rewrite Z.shiftl_mul_pow2 by lia.
  change (2 ^ 8) with 256 in *. change (2 ^ 16) with 65536.
  rewrite (Z.mod_small (high * 256)) by lia.
  rewrite Z.mod_small by lia. lia.
Qed.

(** Decoding a stacked frame with at least two channels. *)
Lemma decode_stacked frame c :
  f_ch frame = Some c -> 2 <= c ->
  HEIGHT * 2 <= f_h frame -> f_w frame = WIDTH ->
  decode_visual frame
    = Some (mkArr [HEIGHT; WIDTH] (fun r col => u8 (frame_at frame c r col 0))) /\
  decode_thermal_raw frame
    = Some (mkArr [HEIGHT; WIDTH]
              (fun r col =>
                 combine (u8 (frame_at frame c (HEIGHT + r) col 0))
                         (u8 (frame_at frame c (HEIGHT + r) col 1)))).
Proof.
  intros Hc C2 Hh Hw. unfold decode_visual, decode_thermal_raw.
  rewrite Hc, Hw.
  replace (HEIGHT * 2 <=? f_h frame) with true by (symmetry; apply Z.leb_le; lia).
  rewrite Z.eqb_refl. simpl andb. cbv iota.
  replace (1 <=? c) with true by (symmetry; apply Z.leb_le; lia).
  replace (2 <=? c) with true by (symmetry; apply Z.leb_le; lia).
  split; reflexivity.
Qed.

End DecoderFacts.

(** ** Facts about segmentation *)

Module SegmentationFacts.
Import Geometry Decoder Segmentation GeometryFacts.

Lemma THERMAL_DELTA_RAW_value : THERMAL_DELTA_RAW = 96.
Proof. reflexivity. Qed.

Lemma wrap_i32_small z : - 2 ^ 31 <= z < 2 ^ 31 -> wrap_i32 z = z.
Proof.
  intro H. unfold wrap_i32. rewrite Z.mod_small; lia.
Qed.

Lemma Qtrunc_nonneg b : (0 <= b)%Q -> Qtrunc b = Qfloor b.
Proof.
  intro H. unfold Qtrunc. apply Qle_bool_iff in H. rewrite H. reflexivity.
Qed.

Lemma Qfloor_range b n :
  (0 <= b)%Q -> (b <= inject_Z n)%Q -> 0 <= Qfloor b <= n.
Proof.
  intros L U. split.
  - change 0 with (Qfloor (inject_Z 0)). apply Qfloor_resp_le. exact L.
  - rewrite <- (Qfloor_Z n). apply Qfloor_resp_le. exact U.
Qed.

(** For a background in the range of the sensor the integer difference of
    the source is the thermal value minus the floor of the background. *)
Lemma delta_px_floor t b :
  0 <= t < 2 ^ 16 -> (0 <= b)%Q -> (b <= inject_Z 65535)%Q ->
  delta_px t b = t - Qfloor b.
Proof.
  intros T L U. unfold delta_px. rewrite (Qtrunc_nonneg b L).
  pose proof (Qfloor_range b 65535 L U) as F.
  change (2 ^ 16) with 65536 in T.
  rewrite (wrap_i32_small t) by (change (2 ^ 31) with 2147483648; lia).
  rewrite (wrap_i32_small (Qfloor b)) by (change (2 ^ 31) with 2147483648; lia).
  apply wrap_i32_small. change (2 ^ 31) with 2147483648. lia.
Qed.

(** An integer exceeds a rational exactly when it exceeds its floor. *)
Lemma floor_lt_iff (n : Z) (b : Q) : Qfloor b < n <-> (b < inject_Z n)%Q.
Proof.
  split; intro H.
  - apply Qlt_le_trans with (inject_Z (Qfloor b + 1)); [apply Qlt_floor|].
    rewrite <- Zle_Qle. lia.
  - rewrite Zlt_Qlt. apply Qle_lt_trans with b; [apply Qfloor_le | exact H].
Qed.

Lemma hot_px_iff t b :
  0 <= t < 2 ^ 16 -> (0 <= b)%Q -> (b <= inject_Z 65535)%Q ->
  hot_px t b = true <-> (inject_Z THERMAL_DELTA_RAW < inject_Z t - b)%Q.
Proof.
  intros T L U. unfold hot_px. rewrite (delta_px_floor t b T L U), Z.ltb_lt.
  transitivity (Qfloor b < t - THERMAL_DELTA_RAW); [lia|].
  rewrite floor_lt_iff. unfold Z.sub. rewrite inject_Z_plus, inject_Z_opp.
  split; intro H; lra.
Qed.


(** The blend of two values of the sensor's range stays in it. *)
Lemma new_bg_px_range t b :
  0 <= t < 2 ^ 16 -> (0 <= b)%Q -> (b <= inject_Z 65535)%Q ->
  (0 <= new_bg_px t b)%Q /\ (new_bg_px t b <= inject_Z 65535)%Q.
Proof.
  intros T L U. unfold new_bg_px. destruct (hot_px t b); [auto|].
  change (2 ^ 16) with 65536 in T.
  assert (T0 : (inject_Z 0 <= inject_Z t)%Q) by (rewrite <- Zle_Qle; lia).
  assert (T1 : (inject_Z t <= inject_Z 65535)%Q) by (rewrite <- Zle_Qle; lia).
  unfold BG_UPDATE_ALPHA. change (inject_Z 0) with 0%Q in T0.
  split; lra.
Qed.

(** C4. For a thermal plane of 16-bit values and a background model within
    the sensor's range (where the pipeline keeps it: it starts as a copy of a
    thermal plane and every update is a blend with one), a pixel is
    classified hot exactly when [thermal - background > THERMAL_DELTA_RAW],
    the threshold being [DELTA_TEMP_C] times the scale factor 64; the
    returned model has the old value at every hot pixel and
    [(1 - BG_UPDATE_ALPHA) * background + BG_UPDATE_ALPHA * thermal] at every
    cold pixel, keeps the shape, and stays within the sensor's range. *)
Theorem detect_hot_objects_pixels find_blobs thermal background r c :
  let t := at2 thermal r c in
  let b := at2 background r c in
  let hot := at2 (hot_mask thermal background) r c in
  let new_bg := snd (detect_hot_objects find_blobs thermal background) in
  0 <= t < 2 ^ 16 -> (0 <= b)%Q -> (b <= inject_Z 65535)%Q ->
  (inject_Z THERMAL_DELTA_RAW == DELTA_TEMP_C * 64)%Q /\
  (hot = true <-> (inject_Z THERMAL_DELTA_RAW < inject_Z t - b)%Q) /\
  (hot = true -> at2 new_bg r c = b) /\
  (hot = false ->
   at2 new_bg r c
   = ((1 - BG_UPDATE_ALPHA) * b + BG_UPDATE_ALPHA * inject_Z t)%Q) /\
  shape new_bg = shape background /\
  (0 <= at2 new_bg r c)%Q /\ (at2 new_bg r c <= inject_Z 65535)%Q.
Proof.
  intros t b hot new_bg T L U.
  split; [reflexivity|].
  split; [apply hot_px_iff; auto|].
  assert (E : at2 new_bg r c = new_bg_px t b) by reflexivity.
  assert (Eh : hot = hot_px t b) by reflexivity.
  split; [| split; [| split; [reflexivity|]]].
  - intro H. rewrite E. unfold new_bg_px. rewrite <- Eh, H. reflexivity.
  - intro H. rewrite E. unfold new_bg_px. rewrite <- Eh, H. reflexivity.
  - rewrite E. apply new_bg_px_range; auto.
Qed.

(** A flat scene at raw value 1000 with one pixel at 1100 and one at 1050. *)
Lemma detect_hot_objects_pixels_witness :
  let thermal := mkArr [HEIGHT; WIDTH]
                   (fun r c => if (r =? 0) && (c =? 0) then 1100
                               else if (r =? 0) && (c =? 1) then 1050 else 1000) in
  let background := mkArr [HEIGHT; WIDTH] (fun _ _ => inject_Z 1000) in
  let new_bg := snd (detect_hot_objects (fun _ => []) thermal background) in
  at2 new_bg 0 0 = inject_Z 1000 /\
  at2 new_bg 0 1
  = ((1 - BG_UPDATE_ALPHA) * inject_Z 1000 + BG_UPDATE_ALPHA * inject_Z 1050)%Q.
Proof.
  intros thermal background new_bg. split.
  - destruct (detect_hot_objects_pixels (fun _ => []) thermal background 0 0)
      as (_ & _ & H & _); simpl; try lia; try discriminate.
    apply H. reflexivity.
  - destruct (detect_hot_objects_pixels (fun _ => []) thermal background 0 1)
      as (_ & _ & _ & H & _); simpl; try lia; try discriminate.
    apply H. reflexivity.
Defined.

End SegmentationFacts.

(** ** Facts about the recording loop *)

Module PipelineFacts.
Import Geometry Tracker Decoder Segmentation Pipeline DecoderFacts.

(** [make_writer] only makes opening attempts, and reports an opened
    writer exactly when it returns it. *)
Lemma try_codecs_spec opens base codecs :
  Forall attempt (snd (try_codecs opens base codecs)) /\
  forall w, In (EvOpen w) (snd (try_codecs opens base codecs))
            <-> fst (try_codecs opens base codecs) = Some w.
Proof.
  induction codecs as [|c rest IH]; cbn [try_codecs].
  - simpl. split; [constructor|]. intro w; split; [tauto | discriminate].
  - destruct (opens _ c).
    + simpl. split; [repeat constructor|].
      intro w; split.
      * intros [E | []]. inversion E; reflexivity.
      * intro E. inversion E. auto.
    + destruct (try_codecs opens base rest) as [w0 evs]. simpl in *.
      destruct IH as (F & I). split; [constructor; simpl; auto|].
      intro w. rewrite <- I. split; [intros [E | H]; [discriminate | auto] | auto].
Qed.

Lemma make_writer_spec tk base :
  Forall attempt (snd (make_writer tk base)) /\
  forall w, In (EvOpen w) (snd (make_writer tk base))
            <-> fst (make_writer tk base) = Some w.
Proof. apply try_codecs_spec. Qed.

Lemma iteration_accept tk st frame visual thermal :
  read tk = Some frame ->
  decode_visual frame = Some visual ->
  decode_thermal_raw frame = Some thermal ->
  shape_ok (shape visual) = true ->
  iteration tk st = process tk st visual thermal.
Proof.
  intros R V T S. unfold iteration. rewrite R, V, T, S. reflexivity.
Qed.

(** A frame that cannot be read or decoded, or has the wrong shape, leaves
    the state as it is and produces no output. *)
Lemma iteration_skip tk st :
  (read tk = None \/
   exists frame, read tk = Some frame /\
     (decode_visual frame = None \/
      decode_thermal_raw frame = None \/
      exists visual, decode_visual frame = Some visual /\
                     shape_ok (shape visual) = false)) ->
  iteration tk st = Some (st, []).
Proof.
  unfold iteration. intros [R | (frame & R & [V | [T | (visual & V & S)]])];
    rewrite R; auto.
  - rewrite V. reflexivity.
  - rewrite T. destruct (decode_visual frame); reflexivity.
  - rewrite V, S. destruct (decode_thermal_raw frame); reflexivity.
Qed.

Lemma present_iff {A} (l : list A) : (0 <? length l)%nat = true <-> l <> [].
Proof.
  destruct l; simpl; split; intro H; try congruence; try discriminate.
  reflexivity.
Qed.

Lemma absent_iff {A} (l : list A) : (0 <? length l)%nat = false <-> l = [].
Proof.
  destruct l; simpl; split; intro H; try congruence; try discriminate.
  reflexivity.
Qed.

(** A start attempt in which a sink fails to open: the state and the
    events of the iteration. *)
Lemma process_failed_start tk st visual thermal :
  start_attempt_fails tk st visual thermal ->
  let p := perceive tk st visual thermal in
  let raw := make_writer tk (raw_base tk) in
  let trk := make_writer tk (trk_base tk) in
  process tk st visual thermal
  = Some (mkState (p_background p) (p_vis_smooth p) (p_prebuffer p) (p_tracks p)
                  false None None (last_seen st) (last_photo_time st)
                  (recording_start_time st) (Some (ts tk)) (events_count st),
          ev_reset tk ++ [EvLive (p_visual_out p)]
          ++ (snd raw ++ snd trk
              ++ release_if_open (fst raw) ++ release_if_open (fst trk)
              ++ [EvPhoto (photo_path (ts tk)) (p_visual_out p)])).
Proof.
  intros (R & V & F) p. cbv zeta. unfold process, perceived. fold p.
  apply present_iff in V. fold p in V. rewrite V. cbn [recording]. rewrite R.
  cbn [negb andb]. unfold start_recording.
  fold (raw_base tk) (trk_base tk).
  destruct (make_writer tk (raw_base tk)) as [[rw|] ev_raw],
    (make_writer tk (trk_base tk)) as [[tw|] ev_trk]; simpl in F;
    try (destruct F; discriminate); reflexivity.
Qed.

(** C9. A stacked frame (height at least twice the sensor height, sensor
    width) with its two 8-bit channels decodes to a [HEIGHT x WIDTH] 8-bit
    visual plane, the first channel of the top half, and a [HEIGHT x WIDTH]
    16-bit thermal plane whose pixels are [low | (high << 8)] of the two
    channels of the bottom half.  A frame that cannot be read, whose decode
    raises, or whose visual plane has another shape is skipped: the
    iteration returns the state it was given, so the background model, the
    track set, the pre-roll buffer and the recording state are untouched,
    and it makes no output. *)
Theorem stacked_decode_and_skip :
  (forall frame c,
     f_ch frame = Some c -> 2 <= c ->
     HEIGHT * 2 <= f_h frame -> f_w frame = WIDTH ->
     exists visual thermal,
       decode_visual frame = Some visual /\
       decode_thermal_raw frame = Some thermal /\
       shape visual = [HEIGHT; WIDTH] /\ shape thermal = [HEIGHT; WIDTH] /\
       forall r col,
         at2 visual r col = u8 (frame_at frame c r col 0) /\
         0 <= at2 visual r col < 2 ^ 8 /\
         at2 thermal r col
         = Z.lor (u8 (frame_at frame c (HEIGHT + r) col 0))
                 (Z.shiftl (u8 (frame_at frame c (HEIGHT + r) col 1)) 8) /\
         0 <= at2 thermal r col < 2 ^ 16) /\
  (forall tk st,
     (read tk = None \/
      exists frame, read tk = Some frame /\
        (decode_visual frame = None \/
         decode_thermal_raw frame = None \/
         exists visual, decode_visual frame = Some visual /\
                        shape_ok (shape visual) = false)) ->
     iteration tk st = Some (st, [])).
Proof.
  split.
  - intros frame c Hc C2 Hh Hw.
    destruct (decode_stacked frame c Hc C2 Hh Hw) as (V & T).
    eexists; eexists. split; [exact V|]. split; [exact T|].
    split; [reflexivity|]. split; [reflexivity|].
    intros r col. cbn [at2].
    split; [reflexivity|]. split; [apply u8_range|].
    apply combine_lor; apply u8_range.
  - intros tk st. apply iteration_skip.
Qed.

Lemma stacked_decode_and_skip_witness :
  (exists visual thermal,
     decode_visual dark_frame = Some visual /\
     decode_thermal_raw dark_frame = Some thermal /\
     shape visual = [HEIGHT; WIDTH] /\ at2 thermal 3 5 = 0) /\
  let lost := mkTick 100 None false "" "" false (fun _ _ => true) one_blob_finder in
  iteration lost (initial_state dark_visual dark_thermal)
  = Some (initial_state dark_visual dark_thermal, []).
Proof.
  destruct stacked_decode_and_skip as (D & S). split.
  - destruct (D dark_frame 2) as (v & t & Hv & Ht & Sv & _ & P);
      try reflexivity; try (simpl; lia).
    exists v, t. repeat split; auto.
    destruct (P 3 5) as (_ & _ & E & _). rewrite E. reflexivity.
  - intro lost. apply S. left. reflexivity.
Defined.

Lemma attempt_in l e : Forall attempt l -> In e l -> attempt e.
Proof. intros F H. rewrite Forall_forall in F. auto. Qed.

Lemma ev_reset_in tk e : In e (ev_reset tk) -> e = EvResetFlagRemoved.
Proof.
  unfold ev_reset. destruct (reset_flag tk); simpl; [|tauto].
  intros [<- | []]. reflexivity.
Qed.

Lemma release_if_open_in w e :
  In e (release_if_open w) <-> exists x, w = Some x /\ e = EvRelease x.
Proof.
  destruct w as [x|]; simpl; split.
  - intros [<- | []]. eauto.
  - intros (y & E & ->). inversion E. auto.
  - tauto.
  - intros (y & E & _). discriminate.
Qed.

(** What [perceive] computes: the tracker's result on the merged
    detections of the current thermal plane. *)
Lemma perceive_tracks tk st visual thermal :
  let p := perceive tk st visual thermal in
  let bg0 := if reset_flag tk then as_background thermal else background st in
  let seg := detect_hot_objects (find_blobs tk) thermal bg0 in
  p_background p = snd seg /\
  (p_tracks p, p_visible p)
  = update_tracks (merge_detections (fst seg)) (tracks st) (now tk).
Proof.
  cbv zeta. unfold perceive.
  destruct (detect_hot_objects (find_blobs tk) thermal
              (if reset_flag tk then as_background thermal else background st))
    as [dets bg].
  cbn [fst snd].
  destruct (update_tracks (merge_detections dets) (tracks st) (now tk))
    as [trs vis].
  split; reflexivity.
Qed.

Lemma no_codec_attempt_fails :
  start_attempt_fails no_codec_tick (initial_state dark_visual dark_thermal)
                      dark_visual dark_thermal.
Proof.
  split; [reflexivity|]. split; [|left; reflexivity].
  vm_compute. discriminate.
Qed.

(** C1, as stated, fails in one point: on [no_codec_tick] no sink opens, the
    pipeline stays idle, and the iteration still writes the start snapshot
    of the current frame to the photo directory. *)
Lemma failed_start_takes_snapshot : ~ failed_start_leaves_no_output.
Proof.
  intro H.
  pose proof (process_failed_start _ _ _ _ no_codec_attempt_fails) as P.
  cbv zeta in P.
  rewrite <- (iteration_accept no_codec_tick _ dark_frame dark_visual dark_thermal
                eq_refl eq_refl eq_refl eq_refl) in P.
  specialize (H no_codec_tick _ dark_frame dark_visual dark_thermal _ _
                eq_refl eq_refl eq_refl eq_refl no_codec_attempt_fails P).
  rewrite !existsb_app in H. cbn [existsb writes_frame_output] in H.
  rewrite !orb_true_r in H. discriminate.
Qed.

(** C1, amended.  When a recording start is attempted (idle, at least one
    track visible) and either sink fails to open, the iteration completes
    with the pipeline idle, both sink handles [None], every sink that did
    open released, the event counter unchanged, no status published and
    nothing written to a video sink; the detections and tracks of the
    current frame are computed and kept.  The start snapshot of the current
    frame is still written to the photo directory (it is the only photo of
    the iteration), and the live preview is written as on every frame. *)
Theorem failed_start_rolls_back tk st frame visual thermal :
  read tk = Some frame ->
  decode_visual frame = Some visual ->
  decode_thermal_raw frame = Some thermal ->
  shape_ok (shape visual) = true ->
  start_attempt_fails tk st visual thermal ->
  let p := perceive tk st visual thermal in
  let bg0 := if reset_flag tk then as_background thermal else background st in
  let seg := detect_hot_objects (find_blobs tk) thermal bg0 in
  exists st' evs,
    iteration tk st = Some (st', evs) /\
    recording st' = false /\ raw_out st' = None /\ trk_out st' = None /\
    events_count st' = events_count st /\
    (forall w, In (EvOpen w) evs -> In (EvRelease w) evs) /\
    (forall r n, ~ In (EvStatus r n) evs) /\
    (forall w img, ~ In (EvWrite w img) evs) /\
    background st' = snd seg /\
    (tracks st', p_visible p)
    = update_tracks (merge_detections (fst seg)) (tracks st) (now tk) /\
    (forall path g, In (EvPhoto path g) evs <->
                    path = photo_path (ts tk) /\ g = p_visual_out p) /\
    In (EvLive (p_visual_out p)) evs.
Proof.
  intros R V T S A p bg0 seg.
  pose proof (process_failed_start tk st visual thermal A) as P.
  cbv zeta in P. fold p in P.
  rewrite <- (iteration_accept tk st frame visual thermal R V T S) in P.
  destruct (make_writer_spec tk (raw_base tk)) as (F1 & O1).
  destruct (make_writer_spec tk (trk_base tk)) as (F2 & O2).
  destruct (perceive_tracks tk st visual thermal) as (B & U).
  fold p bg0 seg in B, U.
  eexists; eexists. split; [exact P|]. cbn [recording raw_out trk_out
    events_count background tracks].
  repeat (split; [reflexivity|]).
  split; [| split; [| split; [| split; [exact B | split; [exact U | split]]]]].
  - intros w H. rewrite !in_app_iff in *.
    destruct H as [H | [H | [H | [H | [H | [H | H]]]]]].
    + apply ev_reset_in in H. discriminate.
    + destruct H as [H | []]. discriminate.
    + apply O1 in H. right; right; right; right; left.
      apply release_if_open_in. eauto.
    + apply O2 in H. right; right; right; right; right; left.
      apply release_if_open_in. eauto.
    + apply release_if_open_in in H. destruct H as (x & _ & H). discriminate.
    + apply release_if_open_in in H. destruct H as (x & _ & H). discriminate.
    + destruct H as [H | []]. discriminate.
  - intros r n H. rewrite !in_app_iff in H.
    destruct H as [H | [H | [H | [H | [H | [H | H]]]]]].
    + apply ev_reset_in in H. discriminate.
    + destruct H as [H | []]. discriminate.
    + apply (attempt_in _ _ F1) in H. exact H.
    + apply (attempt_in _ _ F2) in H. exact H.
    + apply release_if_open_in in H. destruct H as (x & _ & H). discriminate.
    + apply release_if_open_in in H. destruct H as (x & _ & H). discriminate.
    + destruct H as [H | []]. discriminate.
  - intros w img H. rewrite !in_app_iff in H.
    destruct H as [H | [H | [H | [H | [H | [H | H]]]]]].
    + apply ev_reset_in in H. discriminate.
    + destruct H as [H | []]. discriminate.
    + apply (attempt_in _ _ F1) in H. exact H.
    + apply (attempt_in _ _ F2) in H. exact H.
    + apply release_if_open_in in H. destruct H as (x & _ & H). discriminate.
    + apply release_if_open_in in H. destruct H as (x & _ & H). discriminate.
    + destruct H as [H | []]. discriminate.
  - intros path g. rewrite !in_app_iff. split.
    + intros [H | [H | [H | [H | [H | [H | H]]]]]].
      * apply ev_reset_in in H. discriminate.
      * destruct H as [H | []]. discriminate.
      * apply (attempt_in _ _ F1) in H. contradiction.
      * apply (attempt_in _ _ F2) in H. contradiction.
      * apply release_if_open_in in H. destruct H as (x & _ & H). discriminate.
      * apply release_if_open_in in H. destruct H as (x & _ & H). discriminate.
      * destruct H as [H | []]. inversion H. auto.
    + intros (-> & ->). do 6 right. left. reflexivity.
  - rewrite !in_app_iff. right; left. left. reflexivity.
Qed.

Lemma failed_start_rolls_back_witness :
  exists st' evs,
    iteration no_codec_tick (initial_state dark_visual dark_thermal)
    = Some (st', evs) /\
    recording st' = false /\ raw_out st' = None /\ trk_out st' = None /\
    events_count st' = 0 /\
    (forall w img, ~ In (EvWrite w img) evs).
Proof.
  destruct (failed_start_rolls_back no_codec_tick
              (initial_state dark_visual dark_thermal)
              dark_frame dark_visual dark_thermal
              eq_refl eq_refl eq_refl eq_refl no_codec_attempt_fails)
    as (st' & evs & I & R & O1 & O2 & E & _ & _ & W & _).
  exists st', evs. repeat split; auto.
Defined.

Lemma opened_app a b : opened (a ++ b) = opened a ++ opened b.
Proof. apply flat_map_app. Qed.
Lemma released_app a b : released (a ++ b) = released a ++ released b.
Proof. apply flat_map_app. Qed.
Lemma writes_app a b : writes (a ++ b) = writes a ++ writes b.
Proof. apply flat_map_app. Qed.
Lemma photos_app a b : photos (a ++ b) = photos a ++ photos b.
Proof. apply flat_map_app. Qed.
Lemma statuses_app a b : statuses (a ++ b) = statuses a ++ statuses b.
Proof. apply flat_map_app. Qed.

Lemma ev_reset_quiet tk :
  opened (ev_reset tk) = [] /\ released (ev_reset tk) = [] /\
  writes (ev_reset tk) = [] /\ photos (ev_reset tk) = [] /\
  statuses (ev_reset tk) = [].
Proof. unfold ev_reset. destruct (reset_flag tk); simpl; auto. Qed.

Lemma attempts_quiet evs :
  Forall attempt evs ->
  released evs = [] /\ writes evs = [] /\ photos evs = [] /\ statuses evs = [].
Proof.
  induction 1 as [|e evs A F IH]; simpl; auto.
  destruct e; simpl in A; try contradiction; simpl; exact IH.
Qed.

Lemma try_codecs_opened opens base codecs :
  opened (snd (try_codecs opens base codecs))
  = match fst (try_codecs opens base codecs) with
    | Some w => [w]
    | None => []
    end.
Proof.
  induction codecs as [|c rest IH]; cbn [try_codecs]; auto.
  destruct (opens _ c); [reflexivity|].
  destruct (try_codecs opens base rest) as [w evs]. exact IH.
Qed.

Lemma make_writer_trace tk base :
  let r := make_writer tk base in
  opened (snd r) = match fst r with Some w => [w] | None => [] end /\
  released (snd r) = [] /\ writes (snd r) = [] /\ photos (snd r) = [] /\
  statuses (snd r) = [].
Proof.
  cbv zeta. split; [apply try_codecs_opened|].
  apply attempts_quiet, make_writer_spec.
Qed.

Lemma flush_trace rw tw frames :
  opened (flush rw tw frames) = [] /\ released (flush rw tw frames) = [] /\
  photos (flush rw tw frames) = [] /\ statuses (flush rw tw frames) = [] /\
  writes (flush rw tw frames)
  = flat_map (fun f => [(rw, Upscaled f); (tw, Upscaled f)]) frames.
Proof.
  induction frames as [|f rest IH]; simpl; auto.
  destruct IH as (O & R & P & S & W). rewrite W. auto.
Qed.

Lemma release_if_open_trace w :
  opened (release_if_open w) = [] /\
  released (release_if_open w) = match w with Some x => [x] | None => [] end.
Proof. destruct w; simpl; auto. Qed.

(** A start attempt in which both sinks open. *)
Lemma process_started tk st visual thermal rw tw :
  recording st = false ->
  p_visible (perceive tk st visual thermal) <> [] ->
  fst (make_writer tk (raw_base tk)) = Some rw ->
  fst (make_writer tk (trk_base tk)) = Some tw ->
  let p := perceive tk st visual thermal in
  let due := Qle_bool (inject_Z PHOTO_INTERVAL_SEC) (now tk - 0) in
  process tk st visual thermal
  = Some (mkState (p_background p) (p_vis_smooth p) (p_prebuffer p) (p_tracks p)
                  true (Some rw) (Some tw) (now tk)
                  (if due then now tk else 0%Q) (Some (now tk)) (Some (ts tk))
                  (events_count st + 1),
          ev_reset tk ++ [EvLive (p_visual_out p)]
          ++ (snd (make_writer tk (raw_base tk))
              ++ snd (make_writer tk (trk_base tk))
              ++ flush rw tw (p_prebuffer p)
              ++ [EvStatus true (events_count st + 1)]
              ++ [EvPhoto (photo_path (ts tk)) (p_visual_out p)])
          ++ ((if due then [EvPhoto (photo_path (ts_p tk)) (p_visual_out p)]
               else [])
              ++ [EvWrite rw (Upscaled (p_visual_out p));
                  EvWrite tw (Annotated (p_visual_out p) (p_visible p))])).
Proof.
  intros R V O1 O2 p. cbv zeta. unfold process, perceived. fold p.
  apply present_iff in V. fold p in V. rewrite V. cbn [recording]. rewrite R.
  cbn [negb andb]. unfold start_recording.
  fold (raw_base tk) (trk_base tk).
  destruct (make_writer tk (raw_base tk)) as [raw ev_raw].
  destruct (make_writer tk (trk_base tk)) as [trk ev_trk].
  simpl in O1, O2. subst raw trk. cbn [recording].
  unfold while_recording.
  cbn [raw_out trk_out last_photo_time last_seen background vis_smooth
       prebuffer tracks recording_start_time recording_label events_count].
  rewrite V. cbn [negb andb fst snd].
  destruct (Qle_bool (inject_Z PHOTO_INTERVAL_SEC) (now tk - 0)); reflexivity.
Qed.

(** An iteration that neither starts nor continues a recording. *)
Lemma process_idle tk st visual thermal :
  recording st = false ->
  p_visible (perceive tk st visual thermal) = [] ->
  let p := perceive tk st visual thermal in
  process tk st visual thermal
  = Some (perceived p st, ev_reset tk ++ [EvLive (p_visual_out p)] ++ []).
Proof.
  intros R V p. unfold process, perceived. fold p.
  apply absent_iff in V. fold p in V. rewrite V. cbn [recording andb].
  rewrite R. reflexivity.
Qed.

(** An iteration that begins with a recording in progress. *)
Lemma process_recording tk st visual thermal :
  recording st = true ->
  let p := perceive tk st visual thermal in
  process tk st visual thermal
  = match while_recording tk p (perceived p st) with
    | Some (st3, ev_rec) =>
        Some (st3, ev_reset tk ++ [EvLive (p_visual_out p)] ++ [] ++ ev_rec)
    | None => None
    end.
Proof.
  intros R p. unfold process, perceived. fold p. cbn [recording]. rewrite R.
  rewrite andb_false_r. cbn [recording]. reflexivity.
Qed.

Ltac split_trace :=
  rewrite ?opened_app, ?released_app, ?writes_app, ?photos_app, ?statuses_app.

Ltac use_trace_facts tk rw tw pb :=
  let O := fresh "O" in let R := fresh "R" in let W := fresh "W" in
  let P := fresh "P" in let S := fresh "S" in
  destruct (ev_reset_quiet tk) as (O & R & W & P & S);
  rewrite ?O, ?R, ?W, ?P, ?S; clear O R W P S;
  destruct (make_writer_trace tk (raw_base tk)) as (O & R & W & P & S);
  rewrite ?O, ?R, ?W, ?P, ?S; clear O R W P S;
  destruct (make_writer_trace tk (trk_base tk)) as (O & R & W & P & S);
  rewrite ?O, ?R, ?W, ?P, ?S; clear O R W P S;
  destruct (flush_trace rw tw pb) as (O & R & P & S & W);
  rewrite ?O, ?R, ?W, ?P, ?S; clear O R W P S.

Lemma deque_append_length {A} maxlen (q : list A) x :
  (length q <= maxlen)%nat -> (length (deque_append maxlen q x) <= maxlen)%nat.
Proof.
  intro L. unfold deque_append.
  destruct (maxlen <? length (q ++ [x]))%nat eqn:E.
  - destruct (q ++ [x]) eqn:Q; simpl; [lia|].
    assert (H : length (q ++ [x]) = S (length l)) by (rewrite Q; reflexivity).
    rewrite length_app in H. simpl in H. lia.
  - apply Nat.ltb_ge in E. exact E.
Qed.

Lemma deque_append_below {A} maxlen (q : list A) x :
  (length q < maxlen)%nat -> deque_append maxlen q x = q ++ [x].
Proof.
  intro L. unfold deque_append.
  replace (maxlen <? length (q ++ [x]))%nat with false; auto.
  symmetry. apply Nat.ltb_ge. rewrite length_app. simpl. lia.
Qed.

Lemma deque_append_full {A} maxlen (q : list A) x :
  (0 < maxlen)%nat -> length q = maxlen ->
  deque_append maxlen q x = tl q ++ [x].
Proof.
  intros P L. unfold deque_append.
  replace (maxlen <? length (q ++ [x]))%nat with true.
  - destruct q; simpl in *; [lia | reflexivity].
  - symmetry. apply Nat.ltb_lt. rewrite length_app. simpl. lia.
Qed.

Lemma perceive_prebuffer tk st visual thermal :
  p_prebuffer (perceive tk st visual thermal)
  = deque_append prebuffer_maxlen (prebuffer st)
                 (p_visual_out (perceive tk st visual thermal)) /\
  p_visual_out (perceive tk st visual thermal) = visual.
Proof.
  unfold perceive.
  destruct (detect_hot_objects (find_blobs tk) thermal _) as [dets bg].
  destruct (update_tracks (merge_detections dets) (tracks st) (now tk))
    as [trs vis].
  split; reflexivity.
Qed.

Lemma process_step tk st visual thermal :
  sinks_consistent st ->
  exists st' evs,
    process tk st visual thermal = Some (st', evs) /\
    (sinks_consistent st' /\
     (prebuffer st' = p_prebuffer (perceive tk st visual thermal) \/
      prebuffer st' = [])) /\
    sink_transition st st' evs.
Proof.
  intro C. unfold sinks_consistent in C.
  destruct (recording st) eqn:R.
  - (* a recording is in progress *)
    destruct (raw_out st) as [rw|] eqn:Ew; [|contradiction].
    destruct (trk_out st) as [tw|] eqn:Et; [|contradiction].
    rewrite (process_recording tk st visual thermal R). cbv zeta.
    set (p := perceive tk st visual thermal) in *.
    unfold while_recording, perceived.
    cbn [raw_out trk_out last_photo_time last_seen background vis_smooth
         prebuffer tracks recording_start_time recording_label events_count].
    rewrite Ew, Et.
    destruct (negb (0 <? length (p_visible p))%nat && _) eqn:Stop.
    + eexists; eexists. split; [reflexivity|]. split.
      * split; [exact I | right; reflexivity].
      * unfold sink_transition. rewrite R. cbn [recording].
        exists rw, tw. split; [exact Ew|]. split; [exact Et|].
        split_trace. use_trace_facts tk rw tw (@nil (ndarray Z)).
        destruct (_ && Qle_bool _ _); simpl; auto.
    + eexists; eexists. split; [reflexivity|]. split.
      * split; [exact I | left; reflexivity].
      * unfold sink_transition. rewrite R. cbn [recording raw_out trk_out].
        split_trace. use_trace_facts tk rw tw (@nil (ndarray Z)).
        destruct (_ && Qle_bool _ _); simpl; auto.
  - (* idle *)
    destruct (raw_out st) as [rw|] eqn:Ew; [contradiction|].
    destruct (trk_out st) as [tw|] eqn:Et; [contradiction|].
    set (p := perceive tk st visual thermal) in *.
    destruct (p_visible p) as [|v0 vis] eqn:V.
    + rewrite (process_idle tk st visual thermal R V). fold p.
      eexists; eexists. split; [reflexivity|]. split.
      * split; [|left; reflexivity]. unfold sinks_consistent, perceived.
        cbn [recording raw_out trk_out]. rewrite R, Ew, Et. exact I.
      * unfold sink_transition, perceived. cbn [recording]. rewrite R.
        split_trace. use_trace_facts tk (mkWriter "" "") (mkWriter "" "")
                       (@nil (ndarray Z)).
        simpl. auto.
    + assert (V' : p_visible p <> []) by (rewrite V; discriminate).
      destruct (fst (make_writer tk (raw_base tk))) as [rw|] eqn:O1;
        [destruct (fst (make_writer tk (trk_base tk))) as [tw|] eqn:O2|].
      * rewrite (process_started tk st visual thermal rw tw R V' O1 O2).
        cbv zeta. fold p.
        eexists; eexists. split; [reflexivity|]. split.
        -- split; [exact I | left; reflexivity].
        -- unfold sink_transition. rewrite R. cbn [recording raw_out trk_out].
           exists rw, tw. split; [reflexivity|]. split; [reflexivity|].
           split_trace. use_trace_facts tk rw tw (p_prebuffer p).
           rewrite O1, O2.
           destruct (Qle_bool _ _); simpl; auto.
      * assert (A : start_attempt_fails tk st visual thermal)
          by (split; [exact R | split; [exact V' | right; exact O2]]).
        rewrite (process_failed_start tk st visual thermal A).
        cbv zeta. fold p.
        eexists; eexists. split; [reflexivity|]. split.
        -- split; [exact I | left; reflexivity].
        -- unfold sink_transition. rewrite R. cbn [recording].
           split_trace. use_trace_facts tk rw rw (@nil (ndarray Z)).
           rewrite O1, O2. simpl. auto.
      * assert (A : start_attempt_fails tk st visual thermal)
          by (split; [exact R | split; [exact V' | left; exact O1]]).
        rewrite (process_failed_start tk st visual thermal A).
        cbv zeta. fold p.
        eexists; eexists. split; [reflexivity|]. split.
        -- split; [exact I | left; reflexivity].
        -- unfold sink_transition. rewrite R. cbn [recording].
           split_trace.
           use_trace_facts tk (mkWriter "" "") (mkWriter "" "") (@nil (ndarray Z)).
           rewrite O1.
           destruct (fst (make_writer tk (trk_base tk))); simpl; auto.
Qed.

Lemma sink_transition_skip st : sinks_consistent st -> sink_transition st st [].
Proof.
  intro C. unfold sink_transition. unfold sinks_consistent in C.
  destruct (recording st); simpl; auto.
Qed.

Lemma iteration_step tk st :
  sinks_consistent st ->
  exists st' evs,
    iteration tk st = Some (st', evs) /\
    (sinks_consistent st' /\
     ((length (prebuffer st) <= prebuffer_maxlen)%nat ->
      (length (prebuffer st') <= prebuffer_maxlen)%nat)) /\
    sink_transition st st' evs.
Proof.
  intro C. unfold iteration.
  destruct (read tk) as [frame|];
    [| exists st, []; auto using sink_transition_skip].
  destruct (decode_visual frame) as [visual|];
    [| exists st, []; auto using sink_transition_skip].
  destruct (decode_thermal_raw frame) as [thermal|];
    [| exists st, []; auto using sink_transition_skip].
  destruct (shape_ok (shape visual));
    [| exists st, []; auto using sink_transition_skip].
  destruct (process_step tk st visual thermal C) as (st' & evs & E & (C' & B) & T).
  exists st', evs. repeat split; auto.
  intro L. destruct B as [-> | ->]; [|simpl; lia].
  rewrite (proj1 (perceive_prebuffer tk st visual thermal)).
  apply deque_append_length, L.
Qed.

Lemma initial_invariant visual thermal :
  loop_invariant (initial_state visual thermal).
Proof. split; simpl; [exact I | lia]. Qed.

Lemma run_invariant ticks st :
  loop_invariant st ->
  exists st' evs, run ticks st = Some (st', evs) /\ loop_invariant st'.
Proof.
  revert st. induction ticks as [|tk rest IH]; intros st (C & L); simpl.
  - exists st, []. repeat split; auto.
  - destruct (iteration_step tk st C) as (st1 & ev1 & E & (C1 & L1) & _).
    rewrite E. destruct (IH st1 (conj C1 (L1 L))) as (st2 & ev2 & E2 & I2).
    rewrite E2. eauto.
Qed.

(** C2. At the top of every iteration of the main loop the two sink
    handles are both set or both [None], and set exactly when [recording] is
    true: this holds before the first iteration, every iteration preserves
    it, so it holds after any run of the loop.  The sinks are opened
    together when the pipeline goes from idle to recording, released
    together when it goes back to idle, and a sink that opened in a failed
    start is released in the same iteration. *)
Theorem sinks_follow_recording_state :
  (forall visual thermal, sinks_consistent (initial_state visual thermal)) /\
  (forall tk st,
     sinks_consistent st ->
     exists st' evs,
       iteration tk st = Some (st', evs) /\
       sinks_consistent st' /\ sink_transition st st' evs) /\
  (forall ticks visual thermal,
     exists st evs,
       run ticks (initial_state visual thermal) = Some (st, evs) /\
       sinks_consistent st) /\
  (forall st,
     sinks_consistent st <->
     (recording st = true /\ raw_out st <> None /\ trk_out st <> None) \/
     (recording st = false /\ raw_out st = None /\ trk_out st = None)).
Proof.
  split; [|split; [|split]].
  - intros. exact I.
  - intros tk st C.
    destruct (iteration_step tk st C) as (st' & evs & E & (C' & _) & T).
    eauto.
  - intros ticks visual thermal.
    destruct (run_invariant ticks _ (initial_invariant visual thermal))
      as (st & evs & E & (C & _)).
    eauto.
  - intro st. unfold sinks_consistent.
    destruct (recording st), (raw_out st), (trk_out st); split;
      try tauto; try (intros _; left; repeat split; discriminate);
      intros [(A & B & C) | (A & B & C)]; try discriminate; auto.
Qed.

Lemma sinks_follow_recording_state_witness :
  exists st' evs,
    iteration all_codecs_tick (initial_state dark_visual dark_thermal)
    = Some (st', evs) /\
    sinks_consistent st' /\
    sink_transition (initial_state dark_visual dark_thermal) st' evs.
Proof.
  destruct sinks_follow_recording_state as (_ & S & _ & _).
  apply S. exact I.
Defined.

Lemma all_codecs_visible :
  p_visible (perceive all_codecs_tick (initial_state dark_visual dark_thermal)
                      dark_visual dark_thermal) <> [].
Proof. vm_compute. discriminate. Qed.

(** C3. On a successful Idle-to-Recording transition the frames held in the
    pre-roll buffer (which already holds the current frame as its newest
    entry) are written, oldest first, to the raw and to the annotated sink,
    and only then the current frame is written to the raw sink and its
    annotated copy to the annotated sink; the event counter grows by
    exactly 1, the one status published carries [recording = true] and the
    new count, and a snapshot of the current frame is taken.  The buffer
    never exceeds [PRE_ROLL_SEC * CAMERA_FPS] frames: below capacity an
    append keeps everything, at capacity it drops the oldest frame, and
    the bound holds after every run of the loop. *)
Theorem successful_start_flushes_preroll :
  (forall tk st frame visual thermal rw tw,
     read tk = Some frame ->
     decode_visual frame = Some visual ->
     decode_thermal_raw frame = Some thermal ->
     shape_ok (shape visual) = true ->
     recording st = false ->
     p_visible (perceive tk st visual thermal) <> [] ->
     fst (make_writer tk (raw_base tk)) = Some rw ->
     fst (make_writer tk (trk_base tk)) = Some tw ->
     let p := perceive tk st visual thermal in
     exists st' evs,
       iteration tk st = Some (st', evs) /\
       recording st' = true /\ raw_out st' = Some rw /\ trk_out st' = Some tw /\
       events_count st' = events_count st + 1 /\
       p_prebuffer p = deque_append prebuffer_maxlen (prebuffer st) visual /\
       writes evs
       = flat_map (fun f => [(rw, Upscaled f); (tw, Upscaled f)]) (p_prebuffer p)
         ++ [(rw, Upscaled visual); (tw, Annotated visual (p_visible p))] /\
       statuses evs = [(true, events_count st + 1)] /\
       In (photo_path (ts tk), visual) (photos evs)) /\
  (forall (q : list (ndarray Z)) x,
     (length q <= prebuffer_maxlen)%nat ->
     (length (deque_append prebuffer_maxlen q x) <= prebuffer_maxlen)%nat /\
     ((length q < prebuffer_maxlen)%nat ->
      deque_append prebuffer_maxlen q x = q ++ [x]) /\
     (length q = prebuffer_maxlen ->
      deque_append prebuffer_maxlen q x = tl q ++ [x])) /\
  Z.of_nat prebuffer_maxlen = PRE_ROLL_SEC * CAMERA_FPS /\
  (forall ticks visual thermal,
     exists st evs,
       run ticks (initial_state visual thermal) = Some (st, evs) /\
       (length (prebuffer st) <= prebuffer_maxlen)%nat).
Proof.
  split; [|split; [|split]].
  - intros tk st frame visual thermal rw tw R V T S Rec Vis O1 O2 p.
    pose proof (process_started tk st visual thermal rw tw Rec Vis O1 O2) as P.
    cbv zeta in P. fold p in P.
    rewrite <- (iteration_accept tk st frame visual thermal R V T S) in P.
    destruct (perceive_prebuffer tk st visual thermal) as (PB & VO).
    fold p in PB, VO. rewrite VO in P, PB.
    eexists; eexists. split; [exact P|].
    cbn [recording raw_out trk_out events_count].
    repeat (split; [reflexivity|]). split; [exact PB|].
    split_trace. use_trace_facts tk rw tw (p_prebuffer p).
    destruct (Qle_bool _ _); simpl; rewrite ?app_nil_r; auto.
  - intros q x L. split; [apply deque_append_length, L|]. split.
    + apply deque_append_below.
    + apply deque_append_full. unfold prebuffer_maxlen. simpl. lia.
  - reflexivity.
  - intros ticks visual thermal.
    destruct (run_invariant ticks _ (initial_invariant visual thermal))
      as (st & evs & E & (_ & L)).
    eauto.
Qed.

Lemma successful_start_flushes_preroll_witness :
  exists st' evs,
    iteration all_codecs_tick (initial_state dark_visual dark_thermal)
    = Some (st', evs) /\
    recording st' = true /\ events_count st' = 1 /\
    statuses evs = [(true, 1)] /\
    In (photo_path "20240101_120000", dark_visual) (photos evs).
Proof.
  destruct successful_start_flushes_preroll as (S & _).
  destruct (S all_codecs_tick (initial_state dark_visual dark_thermal)
              dark_frame dark_visual dark_thermal
              (mkWriter "/home/kasper/media/videos/20240101_120000.mp4" "avc1")
              (mkWriter "/home/kasper/media/videos_tracked/20240101_120000.mp4"
                        "avc1")
              eq_refl eq_refl eq_refl eq_refl eq_refl all_codecs_visible
              eq_refl eq_refl)
    as (st' & evs & E & R & _ & _ & C & _ & _ & St & Ph).
  exists st', evs. repeat split; auto.
Defined.

End PipelineFacts.

(** ** The distance test read over the reals *)

Module DistanceReading.
Import Geometry GeometryFacts.
Import Reals Qreals Lra.

(** The source compares [(dx*dx + dy*dy) ** 0.5] with [SPLIT_DISTANCE_PX];
    [close] compares the sum of squares with the square of the bound.  Over
    the reals the two tests agree. *)
Lemma sqrt_below_iff (s : Q) :
  (0 <= s)%Q ->
  (sqrt (Q2R s) < IZR SPLIT_DISTANCE_PX)%R
  <-> (s < inject_Z (SPLIT_DISTANCE_PX * SPLIT_DISTANCE_PX))%Q.
Proof.
  intro H. apply Qle_Rle in H. rewrite RMicromega.Q2R_0 in H.
  assert (E : Q2R (inject_Z (SPLIT_DISTANCE_PX * SPLIT_DISTANCE_PX))
              = (IZR SPLIT_DISTANCE_PX * IZR SPLIT_DISTANCE_PX)%R).
  { unfold Q2R, SPLIT_DISTANCE_PX. simpl. lra. }
  assert (S : sqrt (IZR SPLIT_DISTANCE_PX * IZR SPLIT_DISTANCE_PX)
              = IZR SPLIT_DISTANCE_PX).
  { apply sqrt_square. unfold SPLIT_DISTANCE_PX. lra. }
  split; intro L.
  - apply Rlt_Qlt. rewrite E. rewrite <- S in L.
    apply sqrt_lt_0_alt in L. exact L.
  - apply Qlt_Rlt in L. rewrite E in L. rewrite <- S.
    apply sqrt_lt_1; auto. unfold SPLIT_DISTANCE_PX. lra.
Qed.

Lemma dist2_nonneg ax ay bx by_ : (0 <= dist2 ax ay bx by_)%Q.
Proof.
  unfold dist2.
  assert (Sq : forall q : Q, (0 <= q * q)%Q).
  { intro q. destruct (Qlt_le_dec q 0) as [N | P].
    - setoid_replace (q * q)%Q with ((- q) * (- q))%Q by ring.
      apply Qmult_le_0_compat; apply (Qopp_le_compat q 0), Qlt_le_weak, N.
    - apply Qmult_le_0_compat; exact P. }
  change 0%Q with (0 + 0)%Q. apply Qplus_le_compat; apply Sq.
Qed.

(** [close] holds exactly when the centres are less than
    [SPLIT_DISTANCE_PX] apart. *)
Lemma close_is_distance b1 b2 :
  close b1 b2 = true
  <-> (sqrt (Q2R (dist2 (center_x b1) (center_y b1) (center_x b2) (center_y b2)))
       < IZR SPLIT_DISTANCE_PX)%R.
Proof.
  unfold close. rewrite Qltb_lt. symmetry.
  apply sqrt_below_iff, dist2_nonneg.
Qed.

End DistanceReading.

(** ** Laws of the box operations and of merging *)

Module GeometryLaws.
Import Geometry GeometryFacts.
Import GeometryNotions.

Lemma union_within o b1 b2 :
  contains o b1 -> contains o b2 -> contains o (_union_bbox b1 b2).
Proof.
  destruct o as [[[ox oy] ow] oh], b1 as [[[x1 y1] w1] h1],
    b2 as [[[x2 y2] w2] h2]. simpl. lia.
Qed.

(** X1. [_union_bbox] returns the least box containing both arguments: it
    contains each of them, and every box that contains both contains it. *)
Theorem union_bbox_least b1 b2 :
  contains (_union_bbox b1 b2) b1 /\
  contains (_union_bbox b1 b2) b2 /\
  forall o, contains o b1 -> contains o b2 -> contains o (_union_bbox b1 b2).
Proof.
  split; [apply union_contains_l|]. split; [apply union_contains_r|].
  intro o. apply union_within.
Qed.

Lemma union_bbox_least_witness :
  contains (0, 0, 50, 50) (_union_bbox (1, 2, 3, 4) (10, 20, 5, 5)).
Proof.
  destruct (union_bbox_least (1, 2, 3, 4) (10, 20, 5, 5)) as (_ & _ & L).
  apply L; simpl; lia.
Defined.

(** X2. [_rects_intersect] is symmetric; padding both boxes is the same as
    testing the grown boxes without padding; and for boxes of non-negative
    width and height the test with zero padding holds exactly when the two
    closed rectangles share a point, so boxes that only touch intersect. *)
Theorem rects_intersect_shared_point b1 b2 :
  proper b1 -> proper b2 ->
  (forall pad, _rects_intersect b1 b2 pad = _rects_intersect b2 b1 pad) /\
  (forall pad, _rects_intersect b1 b2 pad
               = _rects_intersect (grow b1 pad) (grow b2 pad) 0) /\
  (_rects_intersect b1 b2 0 = true <->
   exists px py, inside b1 px py /\ inside b2 px py).
Proof.
  intros P1 P2. split; [intro; apply rects_intersect_sym|].
  destruct b1 as [[[x1 y1] w1] h1], b2 as [[[x2 y2] w2] h2].
  simpl in P1, P2. split.
  - intro pad. unfold _rects_intersect, grow.
    apply eq_true_iff_eq.
    rewrite !negb_true_iff, !orb_false_iff, !Z.ltb_ge. lia.
  - simpl. rewrite negb_true_iff, !orb_false_iff, !Z.ltb_ge. split.
    + intros (((A & B) & C) & D).
      exists (Z.max x1 x2), (Z.max y1 y2). lia.
    + intros (px & py & I1 & I2). lia.
Qed.

Lemma rects_intersect_shared_point_witness :
  _rects_intersect (0, 0, 10, 10) (10, 10, 5, 5) 0 = true.
Proof.
  destruct (rects_intersect_shared_point (0, 0, 10, 10) (10, 10, 5, 5))
    as (_ & _ & S); [simpl; lia | simpl; lia |].
  apply S. exists 10, 10. simpl. lia.
Defined.

Lemma absorb_reads_boxes m ds1 ds2 used c :
  map det_bbox ds1 = map det_bbox ds2 ->
  absorb m ds1 used c = absorb m ds2 used c.
Proof.
  revert m ds2 used c.
  induction ds1 as [|d1 ds1 IH]; intros m [|d2 ds2] used c E;
    try discriminate; auto.
  simpl in E. inversion E as [[Eb Er]].
  destruct used as [|u used]; auto.
  cbn [absorb]. rewrite Eb. destruct u.
  - rewrite (IH m ds2 used c Er). reflexivity.
  - destruct (close m (det_bbox d2) || _rects_intersect m (det_bbox d2) 0).
    + rewrite (IH _ ds2 used true Er). reflexivity.
    + rewrite (IH m ds2 used c Er). reflexivity.
Qed.

Lemma scan_reads_boxes ds1 ds2 used c :
  map det_bbox ds1 = map det_bbox ds2 ->
  scan ds1 used c = scan ds2 used c.
Proof.
  revert ds2 used c.
  induction ds1 as [|d1 ds1 IH]; intros [|d2 ds2] used c E;
    try discriminate; auto.
  simpl in E. inversion E as [[Eb Er]].
  destruct used as [|u used]; auto.
  cbn [scan]. rewrite Eb. destruct u.
  - apply IH, Er.
  - rewrite (absorb_reads_boxes _ ds1 ds2 used c Er).
    destruct (absorb (det_bbox d2) ds2 used c) as [[m us] c1].
    rewrite (IH ds2 us c1 Er). reflexivity.
Qed.

Lemma merge_loop_reads_boxes n ds1 ds2 :
  map det_bbox ds1 = map det_bbox ds2 -> merge_loop n ds1 = merge_loop n ds2.
Proof.
  intro E.
  assert (P : merge_pass ds1 = merge_pass ds2).
  { unfold merge_pass. rewrite (scan_reads_boxes ds1 ds2 _ _ E).
    f_equal. f_equal.
    rewrite <- (length_map det_bbox ds1), <- (length_map det_bbox ds2), E.
    reflexivity. }
  destruct n; simpl; rewrite P; reflexivity.
Qed.

(** X3. [merge_detections] reads only the boxes of its input: two inputs
    with the same boxes in the same order give the same output, whatever
    their [cx] and [cy] fields hold. *)
Theorem merge_detections_reads_boxes ds1 ds2 :
  map det_bbox ds1 = map det_bbox ds2 ->
  merge_detections ds1 = merge_detections ds2.
Proof.
  intro E. unfold merge_detections.
  rewrite <- (length_map det_bbox ds1), <- (length_map det_bbox ds2), E.
  rewrite length_map. apply merge_loop_reads_boxes, E.
Qed.

Lemma merge_detections_reads_boxes_witness :
  merge_detections [mkDet (100, 100, 2, 2) 0 0; mkDet (110, 100, 2, 2) 7 7]
  = merge_detections [blob_a; blob_c].
Proof. apply merge_detections_reads_boxes. reflexivity. Defined.

Lemma merge_loop_length n dets : (length (merge_loop n dets) <= length dets)%nat.
Proof.
  revert dets. induction n as [|n IH]; intro dets; simpl;
    destruct (merge_pass dets) as [out c] eqn:E;
    pose proof (merge_pass_length _ _ _ E) as L.
  - destruct c; exact L.
  - destruct c; [|exact L]. specialize (IH out). lia.
Qed.

Lemma merge_detections_nil_iff dets : merge_detections dets = [] <-> dets = [].
Proof.
  split.
  - intro E. destruct dets as [|d dets]; auto.
    destruct (merge_loop_covers (length (d :: dets)) (d :: dets) d) as (u & Hu & _);
      [simpl; auto|].
    unfold merge_detections in E. rewrite E in Hu. contradiction.
  - intros ->. reflexivity.
Qed.

(** X4. [merge_detections] never returns more detections than it was
    given, and returns none only for an empty input. *)
Theorem merge_detections_length dets :
  (length (merge_detections dets) <= length dets)%nat /\
  (merge_detections dets = [] <-> dets = []).
Proof.
  split; [apply merge_loop_length | apply merge_detections_nil_iff].
Qed.

Lemma absorb_within o m ds used c :
  contains o m ->
  (forall d, In d ds -> contains o (det_bbox d)) ->
  contains o (fst (fst (absorb m ds used c))).
Proof.
  revert m used c. induction ds as [|d ds IH]; intros m [|u used] c Hm Hd;
    simpl; auto.
  destruct u.
  - specialize (IH m used c Hm (fun x H => Hd x (or_intror H))).
    destruct (absorb m ds used c) as [[m1 us] c1]. exact IH.
  - destruct (close m (det_bbox d) || _rects_intersect m (det_bbox d) 0).
    + assert (U : contains o (_union_bbox m (det_bbox d))).
      { apply union_within; auto. apply Hd. simpl; auto. }
      specialize (IH _ used true U (fun x H => Hd x (or_intror H))).
      destruct (absorb _ ds used true) as [[m1 us] c1]. exact IH.
    + specialize (IH m used c Hm (fun x H => Hd x (or_intror H))).
      destruct (absorb m ds used c) as [[m1 us] c1]. exact IH.
Qed.

Lemma scan_within o ds used c :
  (forall d, In d ds -> contains o (det_bbox d)) ->
  forall u, In u (fst (scan ds used c)) -> contains o (det_bbox u).
Proof.
  revert used c. induction ds as [|d ds IH]; intros [|u0 used] c Hd u Hu;
    simpl in Hu; try contradiction.
  destruct u0.
  - apply (IH used c); auto. intros x H. apply Hd. simpl; auto.
  - pose proof (absorb_within o (det_bbox d) ds used c
                  (Hd d (or_introl eq_refl))
                  (fun x H => Hd x (or_intror H))) as A.
    destruct (absorb (det_bbox d) ds used c) as [[m us] c1].
    pose proof (IH us c1 (fun x H => Hd x (or_intror H))) as S.
    destruct (scan ds us c1) as [out c2]. simpl in *.
    destruct Hu as [<- | Hu]; auto.
Qed.

Lemma merge_loop_within o n dets :
  (forall d, In d dets -> contains o (det_bbox d)) ->
  forall u, In u (merge_loop n dets) -> contains o (det_bbox u).
Proof.
  revert dets. induction n as [|n IH]; intros dets Hd u; simpl;
    pose proof (scan_within o dets (repeat false (length dets)) false Hd) as S;
    fold (merge_pass dets) in S;
    destruct (merge_pass dets) as [out c]; simpl in S.
  - destruct c; apply S.
  - destruct c; [|apply S]. apply IH. exact S.
Qed.

(** X5. Merging never reaches outside the input: a box that contains every
    input box contains every output box.  Together with the coverage of the
    inputs by the outputs, the outputs span the same region as the inputs. *)
Theorem merge_detections_within o dets :
  (forall d, In d dets -> contains o (det_bbox d)) ->
  (forall u, In u (merge_detections dets) -> contains o (det_bbox u)) /\
  (forall d, In d dets ->
     exists u, In u (merge_detections dets) /\
               contains (det_bbox u) (det_bbox d)).
Proof.
  intro H. split.
  - apply merge_loop_within, H.
  - intros d Hd. apply merge_loop_covers, Hd.
Qed.

Lemma merge_detections_within_witness :
  Forall (fun u => contains (0, 0, 256, 192) (det_bbox u))
         (merge_detections [blob_a; blob_b; blob_c]).
Proof.
  apply Forall_forall.
  apply (merge_detections_within (0, 0, 256, 192) [blob_a; blob_b; blob_c]).
  intros d [<- | [<- | [<- | []]]]; simpl; lia.
Defined.


End GeometryLaws.

(** ** Laws of the tracker *)

Module TrackerLaws.
Import Geometry Tracker GeometryFacts TrackerFacts.
Import TrackerNotions.

(** The running minimum of the nearest-detection loop never exceeds the
    initial bound nor the distance of any unclaimed detection, and an
    unclaimed detection that comes before the returned index is strictly
    farther. *)
Lemma best_match_nearest ds i used t b0 bd0 :
  b0 < i ->
  let r := best_match ds i used t b0 bd0 in
  (snd r <= bd0)%Q /\
  (forall k d, nth_error ds k = Some d ->
     mem (i + Z.of_nat k) used = false -> (snd r <= d2_to t d)%Q) /\
  (forall k d, nth_error ds k = Some d ->
     mem (i + Z.of_nat k) used = false ->
     i + Z.of_nat k < fst r -> (snd r < d2_to t d)%Q).
Proof.
  revert i b0 bd0. induction ds as [|d ds IH]; intros i b0 bd0 B; cbn zeta.
  - simpl. split; [apply Qle_refl|]. split; intros [|k] d0 H; discriminate.
  - cbn [best_match].
    assert (Sh : forall k : nat, i + Z.of_nat (S k) = i + 1 + Z.of_nat k) by lia.
    destruct (mem i used) eqn:M.
    + destruct (IH (i + 1) b0 bd0) as (L & N & E); [lia|].
      split; [exact L|]. split; intros [|k] d0 H F.
      * rewrite Z.add_0_r in F. congruence.
      * rewrite Sh in F. eauto.
      * rewrite Z.add_0_r in F. congruence.
      * rewrite Sh in *. eauto.
    + fold (d2_to t d). destruct (Qltb (d2_to t d) bd0) eqn:T.
      * apply Qltb_lt in T.
        destruct (IH (i + 1) i (d2_to t d)) as (L & N & E); [lia|].
        pose proof (best_match_spec ds (i + 1) used t i (d2_to t d)) as S.
        cbv zeta in S.
        split; [apply Qle_trans with (d2_to t d); auto using Qlt_le_weak|].
        split; intros [|k] d0 H F.
        -- simpl in H. inversion H; subst d0. exact L.
        -- rewrite Sh in F. eauto.
        -- simpl in H. inversion H; subst d0. intro G.
           destruct S as [(S1 & _) | (_ & _ & d' & _ & _ & S3)]; [lia|].
           exact S3.
        -- rewrite Sh in *. eauto.
      * assert (G : (bd0 <= d2_to t d)%Q).
        { apply Qnot_lt_le. intro C. apply Qltb_lt in C. congruence. }
        destruct (IH (i + 1) b0 bd0) as (L & N & E); [lia|].
        pose proof (best_match_spec ds (i + 1) used t b0 bd0) as S.
        cbv zeta in S.
        split; [exact L|]. split; intros [|k] d0 H F.
        -- simpl in H. inversion H; subst d0.
           apply Qle_trans with bd0; auto.
        -- rewrite Sh in F. eauto.
        -- simpl in H. inversion H; subst d0. intro J.
           destruct S as [(S1 & _) | (_ & _ & d' & _ & _ & S3)]; [lia|].
           apply Qlt_le_trans with bd0; auto.
        -- rewrite Sh in *. eauto.
Qed.

(** X6. The nearest-detection loop of [update_tracks].  It returns -1
    exactly when no unclaimed detection lies within [TRACK_MAX_DIST]
    (squared).  Otherwise it returns the index of an unclaimed detection
    whose squared distance to the track is below [TRACK_MAX_DIST], is no
    larger than that of any other unclaimed detection, and is strictly
    smaller than that of every unclaimed detection before it: among equally
    near detections the first one wins. *)
Theorem nearest_unclaimed_detection detections used t :
  let r := best_match detections 0 used t (-1) (inject_Z TRACK_MAX_DIST) in
  (fst r = -1 <->
   forall k d, nth_error detections k = Some d ->
     mem (Z.of_nat k) used = false ->
     ~ (d2_to t d < inject_Z TRACK_MAX_DIST)%Q) /\
  (fst r <> -1 ->
   exists d,
     nth_error detections (Z.to_nat (fst r)) = Some d /\
     0 <= fst r /\ mem (fst r) used = false /\
     snd r = d2_to t d /\ (d2_to t d < inject_Z TRACK_MAX_DIST)%Q /\
     (forall k d', nth_error detections k = Some d' ->
        mem (Z.of_nat k) used = false -> (d2_to t d <= d2_to t d')%Q) /\
     (forall k d', nth_error detections k = Some d' ->
        mem (Z.of_nat k) used = false -> Z.of_nat k < fst r ->
        (d2_to t d < d2_to t d')%Q)).
Proof.
  intro r.
  pose proof (best_match_spec detections 0 used t (-1) (inject_Z TRACK_MAX_DIST)) as S.
  destruct (best_match_nearest detections 0 used t (-1) (inject_Z TRACK_MAX_DIST))
    as (_ & N & E); [lia|].
  cbv zeta in S. fold r in S, N, E.
  split.
  - split.
    + intros F k d H U.
      destruct S as [(_ & _ & S) | (R & _)]; [|lia].
      apply (S k d H). exact U.
    + intro A. destruct S as [(S & _) | (R & U & d & Hd & Ed & L)]; auto.
      exfalso. rewrite Z.sub_0_r in Hd.
      apply (A (Z.to_nat (fst r)) d Hd).
      * rewrite Z2Nat.id by lia. exact U.
      * unfold d2_to. rewrite <- Ed. exact L.
  - intro NE. destruct S as [(S & _) | (R & U & d & Hd & Ed & L)]; [contradiction|].
    rewrite Z.sub_0_r in Hd. exists d.
    split; [exact Hd|]. split; [lia|]. split; [exact U|].
    split; [exact Ed|]. unfold d2_to at 1. rewrite <- Ed.
    split; [exact L|]. split.
    + intros k d' H F. unfold d2_to at 1. rewrite <- Ed. apply (N k d' H F).
    + intros k d' H F G. unfold d2_to at 1. rewrite <- Ed. apply (E k d' H F G).
Qed.

(** Two blobs at the same distance from a track: the first is chosen. *)
Lemma nearest_unclaimed_detection_witness :
  let t := new_track (recenter (100, 100, 10, 10)) 0 1 in
  let left := recenter (90, 100, 10, 10) in
  let right := recenter (110, 100, 10, 10) in
  exists d, nth_error [left; right] 0 = Some d /\
            (d2_to t d < inject_Z TRACK_MAX_DIST)%Q.
Proof.
  intros t left right.
  destruct (nearest_unclaimed_detection [left; right] [] t) as (_ & M).
  destruct M as (d & Hd & _ & _ & _ & L & _); [vm_compute; discriminate|].
  exists d. split; [exact Hd | exact L].
Defined.

Lemma upfrom_In z n k : In k (upfrom z n) <-> z <= k < z + Z.of_nat n.
Proof.
  revert z. induction n as [|n IH]; intro z; simpl upfrom.
  - simpl. lia.
  - simpl In. rewrite IH. lia.
Qed.

Lemma upfrom_length z n : length (upfrom z n) = n.
Proof. revert z. induction n; intro z; simpl; auto. Qed.

Lemma filter_split_length {A} (p : A -> bool) l :
  (length (filter p l) + length (filter (fun x => negb (p x)) l) = length l)%nat.
Proof.
  induction l as [|a l IH]; simpl; auto.
  destruct (p a); simpl; lia.
Qed.

(** Among [n] consecutive indices, those outside a duplicate-free set of
    indices of that range number [n] less the size of the set. *)
Lemma unclaimed_count used i n :
  NoDup used -> (forall k, In k used -> i <= k < i + Z.of_nat n) ->
  (length (filter (fun k => negb (mem k used)) (upfrom i n)) + length used = n)%nat.
Proof.
  intros ND R.
  pose proof (filter_split_length (fun k => mem k used) (upfrom i n)) as S.
  rewrite upfrom_length in S.
  assert (P : length (filter (fun k => mem k used) (upfrom i n)) = length used).
  { apply Permutation.Permutation_length, Permutation.NoDup_Permutation; auto.
    - apply NoDup_filter, upfrom_NoDup.
    - intro k. rewrite filter_In, upfrom_In, mem_true_iff. split; [tauto|].
      intro H. split; auto. }
  lia.
Qed.

Lemma spawn_count ds i used now next_id tracks :
  length (snd (spawn ds i used now next_id tracks))
  = length (filter (fun k => negb (mem k used)) (upfrom i (length ds))).
Proof.
  revert i next_id tracks. induction ds as [|d ds IH]; intros i nid tracks;
    simpl; auto.
  destruct (mem i used); simpl.
  - apply IH.
  - specialize (IH (i + 1) (nid + 1) (dict_set nid (new_track d now nid) tracks)).
    destruct (spawn ds (i + 1) used now (nid + 1) _) as [tr vis].
    simpl in *. congruence.
Qed.

(** The matching loop claims distinct detection indices, one for each entry
    it appends to [visible]. *)
Lemma match_tracks_used dets now items used :
  NoDup used ->
  (forall k, In k used -> 0 <= k < Z.of_nat (length dets)) ->
  let r := match_tracks dets now items used in
  NoDup (snd (fst r)) /\
  (forall k, In k (snd (fst r)) -> 0 <= k < Z.of_nat (length dets)) /\
  length (snd (fst r)) = (length used + length (snd r))%nat.
Proof.
  revert used. induction items as [|[tid t] rest IH]; intros used ND R; cbn zeta.
  - simpl. split; [exact ND|]. split; [exact R | lia].
  - cbn [match_tracks].
    pose proof (best_match_spec dets 0 used t (-1) (inject_Z TRACK_MAX_DIST)) as S.
    destruct (best_match dets 0 used t (-1) (inject_Z TRACK_MAX_DIST)) as [best bd].
    cbv zeta in S. simpl fst in S. simpl snd in S.
    destruct S as [(-> & _) | (Rg & U & d & Hd & _)].
    + simpl. specialize (IH used ND R). cbv zeta in IH.
      destruct (match_tracks dets now rest used) as [[i' u'] v']. exact IH.
    + replace (0 <=? best) with true by (symmetry; apply Z.leb_le; lia).
      rewrite Z.sub_0_r in Hd. rewrite Hd.
      assert (ND' : NoDup (best :: used)).
      { constructor; auto. intro H. apply mem_true_iff in H. congruence. }
      assert (R' : forall k, In k (best :: used) -> 0 <= k < Z.of_nat (length dets)).
      { intros k [<- | H]; [lia | auto]. }
      specialize (IH (best :: used) ND' R'). cbv zeta in IH.
      destruct (match_tracks dets now rest (best :: used)) as [[i' u'] v'].
      simpl in *. destruct IH as (A & B & C).
      split; [exact A|]. split; [exact B | lia].
Qed.

Lemma visible_count detections tracks now :
  length (snd (update_tracks detections tracks now)) = length detections /\
  (snd (update_tracks detections tracks now) = [] <-> detections = []).
Proof.
  assert (L : length (snd (update_tracks detections tracks now))
              = length detections).
  { unfold update_tracks, match_and_spawn.
    pose proof (match_tracks_used detections now tracks [] (NoDup_nil Z)) as M.
    cbv zeta in M.
    destruct (match_tracks detections now tracks []) as [[tracks1 used] matched].
    simpl in M. destruct M as (ND & R & Len); [intros k []|].
    pose proof (spawn_count detections 0 used now (next_track_id tracks1) tracks1) as C.
    destruct (spawn detections 0 used now (next_track_id tracks1) tracks1)
      as [tracks2 created].
    simpl in *. rewrite length_app, C.
    pose proof (unclaimed_count used 0 (length detections) ND R). lia. }
  split; [exact L|].
  split; intro E.
  - rewrite E in L. destruct detections; [auto | discriminate].
  - subst. destruct (snd (update_tracks [] tracks now)); [auto | discriminate].
Qed.

(** X7. [update_tracks] returns exactly one visible entry for each
    detection it is given: a detection is either claimed by one track or
    starts a new one.  So the visible list is empty exactly when there is no
    detection. *)
Theorem one_visible_entry_per_detection detections tracks now :
  length (snd (update_tracks detections tracks now)) = length detections /\
  (snd (update_tracks detections tracks now) = [] <-> detections = []).
Proof. apply visible_count. Qed.


Lemma one_visible_entry_per_detection_witness :
  length (snd (update_tracks [one_blob; recenter (0, 0, 4, 4)]
                             [(1, new_track one_blob 0 1)] 5)) = 2%nat.
Proof.
  exact (proj1 (one_visible_entry_per_detection
                  [one_blob; recenter (0, 0, 4, 4)]
                  [(1, new_track one_blob 0 1)] 5)).
Defined.

Lemma match_tracks_no_detections now items used :
  match_tracks [] now items used = (items, used, []).
Proof.
  induction items as [|[tid t] rest IH]; simpl; auto.
  rewrite IH. reflexivity.
Qed.

(** X8. With no detections [update_tracks] matches and creates nothing:
    the visible list is empty, every track within the forget window is
    returned exactly as it was, in the same order, and every track beyond it
    is dropped. *)
Theorem update_tracks_no_detections tracks now :
  snd (update_tracks [] tracks now) = [] /\
  (forall tid,
     dict_get tid (fst (update_tracks [] tracks now))
     = match dict_get tid tracks with
       | Some t => if stale now t then None else Some t
       | None => None
       end) /\
  (NoDup (keys tracks) ->
   fst (update_tracks [] tracks now)
   = filter (fun kt => negb (stale now (snd kt))) tracks).
Proof.
  unfold update_tracks, match_and_spawn.
  rewrite match_tracks_no_detections. simpl.
  split; [reflexivity|]. split.
  - intro tid. apply expire_get.
  - apply expire_filter.
Qed.

Lemma update_tracks_no_detections_witness :
  fst (update_tracks [] [(1, new_track one_blob 0 1); (2, new_track one_blob 5 2)] 12)
  = [(2, new_track one_blob 5 2)].
Proof.
  destruct (update_tracks_no_detections
              [(1, new_track one_blob 0 1); (2, new_track one_blob 5 2)] 12)
    as (_ & _ & F).
  rewrite F; [reflexivity|].
  repeat constructor; simpl; intuition discriminate.
Defined.

Lemma dict_set_new tid t tracks :
  ~ In tid (keys tracks) -> dict_set tid t tracks = tracks ++ [(tid, t)].
Proof.
  induction tracks as [|[k t0] rest IH]; simpl; auto.
  intro H. destruct (k =? tid) eqn:E.
  - apply Z.eqb_eq in E. tauto.
  - rewrite IH; auto.
Qed.

Lemma fresh_tracks_keys nid ds now :
  keys (fresh_tracks nid ds now) = upfrom nid (length ds).
Proof.
  revert nid. induction ds as [|d ds IH]; intro nid; simpl; auto.
  f_equal. apply IH.
Qed.

Lemma spawn_all ds i now nid tracks :
  (forall k, In k (keys tracks) -> k < nid) ->
  spawn ds i [] now nid tracks
  = (tracks ++ fresh_tracks nid ds now, fresh_tracks nid ds now).
Proof.
  revert i nid tracks. induction ds as [|d ds IH]; intros i nid tracks B; simpl.
  - rewrite app_nil_r. reflexivity.
  - rewrite dict_set_new by (intro H; apply B in H; lia).
    rewrite IH.
    + rewrite <- app_assoc. reflexivity.
    + intros k H. unfold keys in H. rewrite map_app in H.
      apply in_app_or in H. destruct H as [H | [<- | []]].
      * apply B in H. lia.
      * simpl. lia.
Qed.

(** X9. From an empty track set every detection starts a track: the ids
    are 1, 2, ... in detection order, each track takes the centroid and box
    of its detection with [last = now], and the returned set and the visible
    list are both these tracks. *)
Theorem update_tracks_from_empty detections now :
  update_tracks detections [] now
  = (fresh_tracks 1 detections now, fresh_tracks 1 detections now).
Proof.
  unfold update_tracks, match_and_spawn. cbn [match_tracks].
  rewrite spawn_all by (intros k []). simpl app. f_equal.
  rewrite expire_filter.
  - apply filter_all. intros [k t] H. simpl.
    assert (L : t_last t = now).
    { clear - H. revert H. generalize 1. induction detections as [|d ds IH];
        intros z H; simpl in H; [contradiction|].
      destruct H as [E | H]; [inversion E; reflexivity | eauto]. }
    rewrite (just_seen_not_stale now t L). reflexivity.
  - rewrite fresh_tracks_keys. apply upfrom_NoDup.
Qed.


Lemma match_tracks_coloured dets now items used :
  coloured items ->
  coloured (fst (fst (match_tracks dets now items used))) /\
  coloured (snd (match_tracks dets now items used)).
Proof.
  revert used. induction items as [|[k t0] rest IH]; intros used C; simpl.
  - split; intros tid t [].
  - assert (C0 : t_color t0 = generate_color k) by (apply C; simpl; auto).
    assert (Cr : coloured rest) by (intros tid t H; apply C; simpl; auto).
    destruct (best_match dets 0 used t0 (-1) (inject_Z TRACK_MAX_DIST)) as [best bd].
    destruct (if 0 <=? best then nth_error dets (Z.to_nat best) else None).
    + destruct (IH (best :: used) Cr) as (A & B).
      destruct (match_tracks dets now rest (best :: used)) as [[i' u'] v'].
      simpl in *. split; intros tid t [E | H]; auto; inversion E; subst; exact C0.
    + destruct (IH used Cr) as (A & B).
      destruct (match_tracks dets now rest used) as [[i' u'] v'].
      simpl in *. split; auto. intros tid t [E | H]; auto.
      inversion E; subst; exact C0.
Qed.

Lemma dict_set_In tid t tracks k v :
  In (k, v) (dict_set tid t tracks) -> In (k, v) tracks \/ (k, v) = (tid, t).
Proof.
  induction tracks as [|[k0 t0] rest IH]; simpl.
  - intros [E | []]. auto.
  - destruct (k0 =? tid) eqn:E; simpl.
    + apply Z.eqb_eq in E. subst. intros [H | H]; auto.
    + intros [H | H]; auto. destruct (IH H); auto.
Qed.

Lemma spawn_coloured ds i used now nid tracks :
  coloured tracks ->
  coloured (fst (spawn ds i used now nid tracks)) /\
  coloured (snd (spawn ds i used now nid tracks)).
Proof.
  revert i nid tracks. induction ds as [|d ds IH]; intros i nid tracks C; simpl.
  - split; [exact C | intros tid t []].
  - destruct (mem i used); [apply IH, C|].
    assert (C' : coloured (dict_set nid (new_track d now nid) tracks)).
    { intros tid t H. apply dict_set_In in H. destruct H as [H | E]; auto.
      inversion E; subst. reflexivity. }
    destruct (IH (i + 1) (nid + 1) _ C') as (A & B).
    destruct (spawn ds (i + 1) used now (nid + 1) _) as [tr vis].
    simpl in *. split; auto. intros tid t [E | H]; auto.
    inversion E; subst. reflexivity.
Qed.

Lemma expire_subset now tracks x : In x (expire now tracks) -> In x tracks.
Proof.
  unfold expire. generalize (keys tracks) as ks. intro ks. revert tracks.
  induction ks as [|k ks IH]; intros tracks H; simpl in H; auto.
  apply IH in H. unfold expire_step in H.
  destruct (dict_get k tracks) as [t|]; auto.
  destruct (stale now t); auto.
  unfold dict_del in H. apply filter_In in H. tauto.
Qed.

(** X10. A track's colour depends on its id alone: if every track of the
    set carries [generate_color] of its id, so does every track of the set
    [update_tracks] returns and every visible entry.  A match updates
    position, box and last-seen time and leaves the colour as it is. *)
Theorem update_tracks_keeps_colours detections tracks now :
  coloured tracks ->
  coloured (fst (update_tracks detections tracks now)) /\
  coloured (snd (update_tracks detections tracks now)).
Proof.
  intro C. unfold update_tracks, match_and_spawn.
  destruct (match_tracks_coloured detections now tracks [] C) as (A & B).
  destruct (match_tracks detections now tracks []) as [[tracks1 used] matched].
  simpl in A, B.
  destruct (spawn_coloured detections 0 used now (next_track_id tracks1) tracks1 A)
    as (A' & B').
  destruct (spawn detections 0 used now (next_track_id tracks1) tracks1)
    as [tracks2 created].
  simpl in *. split.
  - intros tid t H. apply expire_subset in H. auto.
  - intros tid t H. apply in_app_or in H. destruct H; auto.
Qed.

Lemma update_tracks_keeps_colours_witness :
  coloured (snd (update_tracks [one_blob; recenter (0, 0, 4, 4)]
                               [(1, new_track one_blob 0 1)] 5)).
Proof.
  apply (update_tracks_keeps_colours [one_blob; recenter (0, 0, 4, 4)]
           [(1, new_track one_blob 0 1)] 5).
  intros tid t [E | []]. inversion E. reflexivity.
Defined.

Lemma match_tracks_from_detection dets now items used tid t :
  In (tid, t) (snd (match_tracks dets now items used)) ->
  In tid (keys items) /\ exists d, In d dets /\ placed_at t d.
Proof.
  revert used. induction items as [|[k t0] rest IH]; intro used; simpl; [tauto|].
  destruct (best_match dets 0 used t0 (-1) (inject_Z TRACK_MAX_DIST)) as [best bd].
  destruct (if 0 <=? best then nth_error dets (Z.to_nat best) else None)
    as [d|] eqn:E.
  - specialize (IH (best :: used)).
    destruct (match_tracks dets now rest (best :: used)) as [[i' u'] v'].
    simpl in *. intros [H | H].
    + inversion H; subst. split; auto. exists d. split.
      * destruct (0 <=? best); [|discriminate]. eapply nth_error_In; eauto.
      * repeat split.
    + destruct (IH H). auto.
  - specialize (IH used).
    destruct (match_tracks dets now rest used) as [[i' u'] v'].
    simpl in *. intro H. destruct (IH H). auto.
Qed.

Lemma match_tracks_visible_NoDup dets now items used :
  NoDup (keys items) ->
  NoDup (map fst (snd (match_tracks dets now items used))).
Proof.
  revert used. induction items as [|[k t0] rest IH]; intros used ND; simpl.
  - constructor.
  - inversion ND as [|? ? Hk Hr]; subst.
    destruct (best_match dets 0 used t0 (-1) (inject_Z TRACK_MAX_DIST)) as [best bd].
    destruct (if 0 <=? best then nth_error dets (Z.to_nat best) else None).
    + pose proof (IH (best :: used) Hr) as N.
      pose proof (fun tid t => match_tracks_from_detection dets now rest
                                 (best :: used) tid t) as F.
      destruct (match_tracks dets now rest (best :: used)) as [[i' u'] v'].
      simpl in *. constructor; auto. intro H.
      apply in_map_iff in H. destruct H as ([tid t] & E & H). simpl in E. subst.
      apply F in H. tauto.
    + pose proof (IH used Hr) as N.
      destruct (match_tracks dets now rest used) as [[i' u'] v']. exact N.
Qed.

Lemma spawn_from_detection ds i used now nid tracks tid t :
  In (tid, t) (snd (spawn ds i used now nid tracks)) ->
  exists d, In d ds /\ placed_at t d.
Proof.
  revert i nid tracks. induction ds as [|d ds IH]; intros i nid tracks; simpl;
    [tauto|].
  destruct (mem i used).
  - intro H. destruct (IH _ _ _ H) as (d0 & I & P). eauto.
  - specialize (IH (i + 1) (nid + 1) (dict_set nid (new_track d now nid) tracks)).
    destruct (spawn ds (i + 1) used now (nid + 1) _) as [tr vis].
    simpl in *. intros [E | H].
    + inversion E; subst. exists d. split; auto. repeat split.
    + destruct (IH H) as (d0 & I & P). eauto.
Qed.

(** X11. Every entry of the visible list is a live track seen now: its
    track is in the returned set under its id, with [last = now] and the
    centroid and box of one of this call's detections; and no id appears
    twice in the visible list. *)
Theorem visible_tracks_are_live detections tracks now :
  NoDup (keys tracks) ->
  let r := update_tracks detections tracks now in
  NoDup (map fst (snd r)) /\
  forall tid t, In (tid, t) (snd r) ->
    dict_get tid (fst r) = Some t /\ t_last t = now /\
    exists d, In d detections /\ placed_at t d.
Proof.
  intros ND r. subst r. unfold update_tracks, match_and_spawn.
  pose proof (match_tracks_keys detections now tracks []) as K.
  pose proof (match_tracks_visible_NoDup detections now tracks [] ND) as VN.
  pose proof (fun tid t => match_tracks_matched detections now tracks [] tid t) as MM.
  pose proof (fun tid t => match_tracks_from_detection detections now tracks [] tid t) as MD.
  destruct (match_tracks detections now tracks []) as [[tracks1 used] matched].
  simpl in K, VN, MM, MD.
  pose proof (spawn_ids detections 0 used now (next_track_id tracks1) tracks1) as SI.
  pose proof (fun tid => spawn_get_old detections 0 used now
                           (next_track_id tracks1) tracks1 tid) as SO.
  pose proof (fun tid t => spawn_created detections 0 used now
                             (next_track_id tracks1) tracks1 tid t) as SC.
  pose proof (fun tid t => spawn_from_detection detections 0 used now
                             (next_track_id tracks1) tracks1 tid t) as SD.
  destruct (spawn detections 0 used now (next_track_id tracks1) tracks1)
    as [tracks2 created].
  simpl in *. split.
  - rewrite map_app. apply NoDup_app; auto.
    + rewrite SI. apply upfrom_NoDup.
    + intros k H1 H2. rewrite SI in H2. apply upfrom_ge in H2.
      apply in_map_iff in H1. destruct H1 as ([tid t] & E & H1). simpl in E. subst.
      apply MD in H1. destruct H1 as (H1 & _). rewrite <- K in H1.
      apply next_track_id_above in H1. lia.
  - intros tid t H. apply in_app_or in H. destruct H as [H | H].
    + destruct (MM tid t H) as (I & L). destruct (MD tid t H) as (Kin & D).
      split; [|split; auto].
      rewrite expire_get, SO.
      * rewrite (In_dict_get tid t tracks1); [| rewrite K; auto | auto].
        rewrite (just_seen_not_stale now t L). reflexivity.
      * apply next_track_id_above. rewrite K. exact Kin.
    + destruct (SC tid t H) as (L & _ & G).
      split; [|split; [exact L | apply (SD tid t H)]].
      rewrite expire_get, G, (just_seen_not_stale now t L). reflexivity.
Qed.

Lemma visible_tracks_are_live_witness :
  Forall (fun e => t_last (snd e) = 5%Q)
         (snd (update_tracks [one_blob] [(1, new_track one_blob 0 1)] 5)).
Proof.
  apply Forall_forall. intros [tid t] H.
  assert (ND : NoDup (keys [(1, new_track one_blob 0 1)]))
    by (repeat constructor; simpl; tauto).
  destruct (visible_tracks_are_live [one_blob] [(1, new_track one_blob 0 1)] 5 ND)
    as (_ & V).
  apply (V tid t H).
Defined.


End TrackerLaws.

(** ** Laws of [make_writer] *)

Module WriterLaws.
Import Decoder Pipeline PipelineFacts.
Import WriterNotions.

Lemma try_codecs_result opens base codecs :
  match try_codecs opens base codecs with
  | (Some w, evs) =>
      exists pre post,
        codecs = pre ++ w_codec w :: post /\
        (forall c, In c pre -> opens (path_for base c) c = false) /\
        opens (w_path w) (w_codec w) = true /\
        w_path w = path_for base (w_codec w) /\
        evs = failed_attempts base pre ++ [EvOpen w]
  | (None, evs) =>
      evs = failed_attempts base codecs /\
      forall c, In c codecs -> opens (path_for base c) c = false
  end.
Proof.
  induction codecs as [|c0 rest IH]; cbn [try_codecs].
  - split; [reflexivity | intros c []].
  - fold (path_for base c0). destruct (opens (path_for base c0) c0) eqn:O.
    + exists [], rest. simpl. repeat split; auto. intros c [].
    + destruct (try_codecs opens base rest) as [[w|] evs].
      * destruct IH as (pre & post & E & F & Ow & P & V).
        exists (c0 :: pre), post. subst. repeat split; auto.
        intros c [<- | H]; auto.
      * destruct IH as (V & F). subst. split; [reflexivity|].
        intros c [<- | H]; auto.
Qed.

(** X12. When [make_writer] returns a writer it is that of the first
    codec, in the platform's order, that opens: every codec before it was
    tried on its own file name and failed, none after it is tried, and the
    trace is those failures followed by the one successful open.  The file
    is [path_base.avi] for XVID and MJPG and [path_base.mp4] for the other
    codecs. *)
Theorem make_writer_first_codec tk path_base w :
  fst (make_writer tk path_base) = Some w ->
  (exists pre post,
     codecs_to_try (is_windows tk) = pre ++ w_codec w :: post /\
     (forall c, In c pre -> can_open tk (path_for path_base c) c = false) /\
     can_open tk (w_path w) (w_codec w) = true /\
     snd (make_writer tk path_base)
     = failed_attempts path_base pre ++ [EvOpen w]) /\
  (w_path w
   = if existsb (String.eqb (w_codec w)) ["XVID"; "MJPG"]%string
     then (path_base ++ ".avi")%string else (path_base ++ ".mp4")%string).
Proof.
  intro H. unfold make_writer in *.
  pose proof (try_codecs_result (can_open tk) path_base
                (codecs_to_try (is_windows tk))) as R.
  destruct (try_codecs (can_open tk) path_base (codecs_to_try (is_windows tk)))
    as [w0 evs].
  simpl in H. subst w0. destruct R as (pre & post & E & F & O & P & V).
  split.
  - exists pre, post. repeat split; auto.
  - rewrite P. unfold path_for.
    assert (I : In (w_codec w) (codecs_to_try (is_windows tk))).
    { rewrite E. apply in_or_app. right. simpl. auto. }
    destruct (is_windows tk); simpl in I;
      repeat (destruct I as [<- | I]; [reflexivity|]); contradiction.
Qed.

Lemma make_writer_first_codec_witness :
  let tk := mkTick 0 None false "" "" false
                   (fun _ c => String.eqb c "MJPG") (fun _ => []) in
  exists w, fst (make_writer tk "clip") = Some w /\
            w_path w = "clip.avi"%string /\
            snd (make_writer tk "clip")
            = failed_attempts "clip" ["avc1"; "H264"; "mp4v"]%string ++ [EvOpen w].
Proof.
  intro tk. exists (mkWriter "clip.avi" "MJPG").
  destruct (make_writer_first_codec tk "clip" (mkWriter "clip.avi" "MJPG") eq_refl)
    as (_ & P).
  split; [reflexivity|]. split; [exact P | reflexivity].
Defined.

(** X13. [make_writer] returns no writer exactly when every codec of the
    platform's list fails to open; it has then tried each of them once, in
    order (four on Linux, three on Windows), and opened nothing. *)
Theorem make_writer_gives_up tk path_base :
  (fst (make_writer tk path_base) = None <->
   forall c, In c (codecs_to_try (is_windows tk)) ->
             can_open tk (path_for path_base c) c = false) /\
  (fst (make_writer tk path_base) = None ->
   snd (make_writer tk path_base)
   = failed_attempts path_base (codecs_to_try (is_windows tk)) /\
   length (snd (make_writer tk path_base))
   = (if is_windows tk then 3 else 4)%nat).
Proof.
  unfold make_writer.
  pose proof (try_codecs_result (can_open tk) path_base
                (codecs_to_try (is_windows tk))) as R.
  destruct (try_codecs (can_open tk) path_base (codecs_to_try (is_windows tk)))
    as [[w|] evs]; simpl.
  - destruct R as (pre & post & E & F & O & P & V). split.
    + split; [discriminate|]. intro A. exfalso.
      rewrite P in O. rewrite (A (w_codec w)) in O; [discriminate|].
      rewrite E. apply in_or_app. right. simpl. auto.
    + discriminate.
  - destruct R as (V & F). split.
    + split; auto.
    + intros _. split; [exact V|]. rewrite V. unfold failed_attempts.
      rewrite length_map. destruct (is_windows tk); reflexivity.
Qed.

Lemma make_writer_gives_up_witness :
  snd (make_writer no_codec_tick "clip")
  = failed_attempts "clip" ["avc1"; "H264"; "mp4v"; "MJPG"]%string.
Proof.
  destruct (make_writer_gives_up no_codec_tick "clip") as (_ & G).
  apply G. reflexivity.
Defined.

End WriterLaws.

(** ** Laws of the decoders *)

Module DecoderLaws.
Import Decoder Pipeline DecoderFacts PipelineFacts.
Import DecoderNotions.

Lemma stacked_test frame :
  (HEIGHT * 2 <=? f_h frame) && (f_w frame =? WIDTH) = true <-> stacked frame.
Proof.
  unfold stacked. rewrite andb_true_iff, Z.leb_le, Z.eqb_eq. tauto.
Qed.






(** X15. A frame in the stacked layout that is 2-D, or has fewer than two
    channels, cannot be decoded: [decode_thermal_raw] raises, and the main
    loop drops the frame without touching its state. *)
Theorem stacked_needs_two_channels frame :
  stacked frame ->
  (f_ch frame = None \/ exists c, f_ch frame = Some c /\ c < 2) ->
  decode_thermal_raw frame = None /\
  forall tk st, read tk = Some frame -> iteration tk st = Some (st, []).
Proof.
  intros S C.
  assert (T : decode_thermal_raw frame = None).
  { unfold decode_thermal_raw. rewrite (proj2 (stacked_test frame) S).
    destruct S as (Sh & Sw). rewrite Sw.
    destruct C as [-> | (c & -> & L)]; auto.
    replace (2 <=? c) with false by (symmetry; apply Z.leb_gt; lia).
    replace (WIDTH * HEIGHT * 2 <=? HEIGHT * WIDTH * c) with false; auto.
    symmetry. apply Z.leb_gt. unfold WIDTH, HEIGHT. lia. }
  split; [exact T|].
  intros tk st R. apply iteration_skip. right. exists frame. auto.
Qed.

Lemma stacked_needs_two_channels_witness :
  let gray := mkFrame (HEIGHT * 2) WIDTH (Some 1) (fun _ => Init.Byte.x00) in
  decode_thermal_raw gray = None.
Proof.
  intro gray.
  destruct (stacked_needs_two_channels gray) as (T & _); auto.
  - split; [apply Z.le_refl | reflexivity].
  - right. exists 1. split; [reflexivity | reflexivity].
Defined.

(** X16. The packed layout.  A frame that is not stacked and has at least
    one row decodes (both planes) exactly when its first row has an even
    number of items and holds two planes of two bytes per pixel.  Then both
    planes are [HEIGHT x WIDTH]; the visual pixel is the first byte of its
    pair in the first half of the row, and the thermal pixel is
    [low | (high << 8)] of its pair in the second half. *)
Theorem packed_decode frame :
  ~ stacked frame -> 1 <= f_h frame ->
  ((exists visual thermal,
      decode_visual frame = Some visual /\
      decode_thermal_raw frame = Some thermal) <->
   (f_w frame mod 2 = 0 /\ f_w frame * item_bytes frame = 2 * plane_bytes)) /\
  (forall visual thermal,
     decode_visual frame = Some visual ->
     decode_thermal_raw frame = Some thermal ->
     shape visual = [HEIGHT; WIDTH] /\ shape thermal = [HEIGHT; WIDTH] /\
     forall r c,
       at2 visual r c = u8 (f_px frame ((r * WIDTH + c) * 2)) /\
       at2 thermal r c
       = Z.lor (u8 (f_px frame (plane_bytes + (r * WIDTH + c) * 2)))
               (Z.shiftl (u8 (f_px frame (plane_bytes + (r * WIDTH + c) * 2 + 1)))
                         8)).
Proof.
  intros NS Hh.
  assert (Tst : (HEIGHT * 2 <=? f_h frame) && (f_w frame =? WIDTH) = false).
  { destruct (_ && _) eqn:E; auto. apply stacked_test in E. contradiction. }
  assert (Hz : (f_h frame <=? 0) = false) by (apply Z.leb_gt; lia).
  unfold decode_visual, decode_thermal_raw. rewrite Tst, Hz.
  fold plane_bytes. unfold split_first, split_second.
  set (w := f_w frame). set (k := item_bytes frame).
  pose proof (Z.div_mod w 2 ltac:(lia)) as D.
  pose proof (Z.mod_pos_bound w 2 ltac:(lia)) as M.
  assert (PB : plane_bytes = 98304) by reflexivity.
  split.
  - split.
    + intros (v & t & Hv & Ht).
      destruct ((w / 2 + w mod 2) * k =? plane_bytes) eqn:E1; [|discriminate].
      destruct (w / 2 * k =? plane_bytes) eqn:E2; [|discriminate].
      apply Z.eqb_eq in E1, E2.
      rewrite Z.mul_add_distr_r in E1.
      assert (Z0 : w mod 2 = 0).
      { assert (C : w mod 2 = 0 \/ w mod 2 = 1) by lia.
        destruct C as [C | C]; auto. rewrite C in E1.
        assert (K0 : k = 0) by lia. rewrite K0, Z.mul_0_r in E2. lia. }
      split; [exact Z0|].
      rewrite Z0, Z.add_0_r in D. rewrite D at 1.
      rewrite <- Z.mul_assoc, E2. reflexivity.
    + intros (Z0 & E).
      assert (E2 : w / 2 * k = plane_bytes).
      { rewrite Z0, Z.add_0_r in D. rewrite D, <- Z.mul_assoc in E. lia. }
      rewrite Z0, Z.add_0_r, E2, Z.eqb_refl. eauto.
  - intros v t Hv Ht.
    destruct ((w / 2 + w mod 2) * k =? plane_bytes) eqn:E1; [|discriminate].
    destruct (w / 2 * k =? plane_bytes) eqn:E2; [|discriminate].
    apply Z.eqb_eq in E1. inversion Hv; subst v. inversion Ht; subst t.
    cbn [shape at2]. split; [reflexivity|]. split; [reflexivity|].
    intros r c. rewrite Z.add_0_r. split; [reflexivity|].
    rewrite E1. apply combine_lor; apply u8_range.
Qed.

(** A single row of [4 * HEIGHT * WIDTH] bytes. *)
Lemma packed_decode_witness :
  let row := mkFrame 1 (2 * plane_bytes) None (fun _ => Init.Byte.x01) in
  exists visual thermal,
    decode_visual row = Some visual /\ decode_thermal_raw row = Some thermal.
Proof.
  intro row.
  destruct (packed_decode row) as (P & _).
  - intros (S & _). simpl in S. unfold HEIGHT in S. lia.
  - simpl. lia.
  - apply P. split; reflexivity.
Defined.

End DecoderLaws.

(** ** Laws of the recording loop *)

Module PipelineLaws.
Import Geometry Tracker Decoder Segmentation Pipeline.
Import GeometryFacts TrackerFacts DecoderFacts SegmentationFacts PipelineFacts.
Import GeometryLaws TrackerLaws DecoderLaws.
Import PipelineNotions.

(** An iteration that begins with a recording in progress, in full. *)
Lemma process_recording_explicit tk st visual thermal rw tw :
  recording st = true -> raw_out st = Some rw -> trk_out st = Some tw ->
  let p := perceive tk st visual thermal in
  let present := (0 <? length (p_visible p))%nat in
  let frame_writes :=
    [EvWrite rw (Upscaled (p_visual_out p));
     EvWrite tw (Annotated (p_visual_out p) (p_visible p))] in
  process tk st visual thermal
  = Some
      (if stop_due tk p st then
         mkState (p_background p) (p_vis_smooth p) [] (p_tracks p)
                 false None None (last_seen st) (last_photo_time st) None
                 (recording_label st) (events_count st)
       else
         mkState (p_background p) (p_vis_smooth p) (p_prebuffer p) (p_tracks p)
                 true (Some rw) (Some tw)
                 (if present then now tk else last_seen st)
                 (if photo_due tk p st then now tk else last_photo_time st)
                 (recording_start_time st) (recording_label st)
                 (events_count st),
       ev_reset tk ++ [EvLive (p_visual_out p)] ++ []
       ++ (if photo_due tk p st
           then [EvPhoto (photo_path (ts_p tk)) (p_visual_out p)] else [])
       ++ frame_writes
       ++ (if stop_due tk p st
           then [EvRelease rw; EvRelease tw; EvStatus false (events_count st)]
           else [])).
Proof.
  intros R Ew Et p present frame_writes.
  rewrite (process_recording tk st visual thermal R). cbv zeta. fold p.
  unfold while_recording, perceived, stop_due, photo_due.
  cbn [raw_out trk_out last_photo_time last_seen background vis_smooth
       prebuffer tracks recording_start_time recording_label events_count].
  rewrite Ew, Et. fold present.
  destruct present; cbn [negb andb].
  - destruct (Qle_bool _ _); rewrite ?app_nil_r; reflexivity.
  - destruct (Qltb _ _); rewrite ?app_nil_r; reflexivity.
Qed.











(** From a state whose sinks agree with its recording flag an accepted
    frame has one of four outcomes. *)
Lemma process_cases tk st visual thermal :
  sinks_consistent st ->
  let p := perceive tk st visual thermal in
  (recording st = false /\ p_visible p = [] /\
   process tk st visual thermal = Some (quiet_result tk st p)) \/
  (recording st = false /\ p_visible p <> [] /\
   exists rw tw,
     fst (make_writer tk (raw_base tk)) = Some rw /\
     fst (make_writer tk (trk_base tk)) = Some tw /\
     process tk st visual thermal = Some (started_result tk st p rw tw)) \/
  (start_attempt_fails tk st visual thermal /\
   process tk st visual thermal = Some (failed_result tk st p)) \/
  (recording st = true /\
   exists rw tw,
     raw_out st = Some rw /\ trk_out st = Some tw /\
     process tk st visual thermal = Some (recording_result tk st p rw tw)).
Proof.
  intros C p. unfold sinks_consistent in C.
  destruct (recording st) eqn:R.
  - destruct (raw_out st) as [rw|] eqn:Ew; [|contradiction].
    destruct (trk_out st) as [tw|] eqn:Et; [|contradiction].
    right; right; right. split; auto. exists rw, tw.
    split; [reflexivity|]. split; [reflexivity|].
    apply (process_recording_explicit tk st visual thermal rw tw R Ew Et).
  - destruct (p_visible p) as [|v0 vis] eqn:V.
    + left. split; auto. split; auto.
      apply (process_idle tk st visual thermal R V).
    + assert (V' : p_visible (perceive tk st visual thermal) <> [])
        by (fold p; rewrite V; discriminate).
      destruct (fst (make_writer tk (raw_base tk))) as [rw|] eqn:O1;
        [destruct (fst (make_writer tk (trk_base tk))) as [tw|] eqn:O2|].
      * right; left. split; auto. split; [discriminate|]. exists rw, tw.
        split; auto. split; auto.
        apply (process_started tk st visual thermal rw tw R V' O1 O2).
      * right; right; left.
        assert (A : start_attempt_fails tk st visual thermal)
          by (split; [exact R | split; [exact V' | right; exact O2]]).
        split; auto.
        apply (process_failed_start tk st visual thermal A).
      * right; right; left.
        assert (A : start_attempt_fails tk st visual thermal)
          by (split; [exact R | split; [exact V' | left; exact O1]]).
        split; auto.
        apply (process_failed_start tk st visual thermal A).
Qed.


Lemma lives_app a b : lives (a ++ b) = lives a ++ lives b.
Proof. apply flat_map_app. Qed.

Lemma lives_ev_reset tk : lives (ev_reset tk) = [].
Proof. unfold ev_reset. destruct (reset_flag tk); reflexivity. Qed.

Lemma lives_make_writer tk base : lives (snd (make_writer tk base)) = [].
Proof.
  destruct (make_writer_spec tk base) as (F & _).
  induction F as [|e evs A F IH]; simpl; auto.
  destruct e; simpl in A; try contradiction; exact IH.
Qed.

Lemma lives_flush rw tw frames : lives (flush rw tw frames) = [].
Proof. induction frames; simpl; auto. Qed.

Lemma lives_release w : lives (release_if_open w) = [].
Proof. destruct w; reflexivity. Qed.

Lemma photos_release w : photos (release_if_open w) = [].
Proof. destruct w; reflexivity. Qed.

Lemma writes_release w : writes (release_if_open w) = [].
Proof. destruct w; reflexivity. Qed.

Lemma statuses_release w : statuses (release_if_open w) = [].
Proof. destruct w; reflexivity. Qed.

Lemma after_live g l :
  lives (EvLive g :: l) = g :: lives l /\
  opened (EvLive g :: l) = opened l /\ released (EvLive g :: l) = released l /\
  writes (EvLive g :: l) = writes l /\ photos (EvLive g :: l) = photos l /\
  statuses (EvLive g :: l) = statuses l.
Proof. repeat split. Qed.

Ltac trace_normal tk rw tw pb :=
  repeat match goal with
         | |- context [EvLive ?g :: ?l] =>
             let L := fresh "L" in let O := fresh "O" in let R := fresh "R" in
             let W := fresh "W" in let P := fresh "P" in let S := fresh "S" in
             destruct (after_live g l) as (L & O & R & W & P & S);
             rewrite ?lives_app, ?opened_app, ?released_app, ?writes_app,
               ?photos_app, ?statuses_app;
             rewrite ?L, ?O, ?R, ?W, ?P, ?S; clear L O R W P S
         end;
  rewrite ?lives_app, ?lives_ev_reset, ?lives_make_writer, ?lives_flush,
    ?lives_release, ?photos_release, ?writes_release, ?statuses_release;
  split_trace; use_trace_facts tk rw tw pb;
  rewrite ?photos_release, ?writes_release, ?statuses_release.

(** The four outcomes, read off an equation for [process]. *)
Ltac by_outcome C tk st visual thermal H :=
  let R := fresh "R" in let V := fresh "V" in let P := fresh "P" in
  let rw := fresh "rw" in let tw := fresh "tw" in
  let O1 := fresh "O1" in let O2 := fresh "O2" in
  let A := fresh "A" in let Ew := fresh "Ew" in let Et := fresh "Et" in
  destruct (process_cases tk st visual thermal C)
    as [(R & V & P) | [(R & V & rw & tw & O1 & O2 & P)
                      | [(A & P) | (R & rw & tw & Ew & Et & P)]]];
  rewrite P in H;
  unfold quiet_result, started_result, failed_result, recording_result in H;
  injection H as <- <-.

Lemma visual_out_is_visual tk st visual thermal :
  p_visual_out (perceive tk st visual thermal) = visual.
Proof. apply perceive_prebuffer. Qed.

(** One iteration and the telemetry.  A status is published exactly
    when the recording flag changes, and it carries the new flag and the
    new event count; the count grows by one when a recording starts and is
    otherwise unchanged. *)
Lemma iteration_telemetry tk st st' evs :
  sinks_consistent st ->
  iteration tk st = Some (st', evs) ->
  statuses evs
  = (if Bool.eqb (recording st) (recording st') then []
     else [(recording st', events_count st')]) /\
  events_count st'
  = events_count st + (if negb (recording st) && recording st' then 1 else 0).
Proof.
  intros C H.
  assert (Skip : statuses [] = (if Bool.eqb (recording st) (recording st) then []
                                else [(recording st, events_count st)]) /\
                 events_count st = events_count st
                   + (if negb (recording st) && recording st then 1 else 0)).
  { rewrite eqb_reflx. destruct (recording st); simpl; split; auto; lia. }
  unfold iteration in H.
  destruct (read tk) as [frame|]; [|inversion H; subst; exact Skip].
  destruct (decode_visual frame) as [visual|]; [|inversion H; subst; exact Skip].
  destruct (decode_thermal_raw frame) as [thermal|];
    [|inversion H; subst; exact Skip].
  destruct (shape_ok (shape visual)); [|inversion H; subst; exact Skip].
  clear Skip.
  by_outcome C tk st visual thermal H; cbn [recording events_count].
  - unfold perceived. cbn [recording events_count]. rewrite R.
    trace_normal tk (mkWriter "" "") (mkWriter "" "") (@nil (ndarray Z)).
    simpl. split; auto; lia.
  - rewrite R.
    trace_normal tk rw tw (p_prebuffer (perceive tk st visual thermal)).
    destruct (Qle_bool _ _); simpl; split; auto.
  - destruct A as (R & _). rewrite R.
    trace_normal tk (mkWriter "" "") (mkWriter "" "") (@nil (ndarray Z)).
    simpl. split; auto; lia.
  - rewrite R.
    trace_normal tk rw tw (@nil (ndarray Z)).
    destruct (stop_due tk _ st), (photo_due tk _ st); simpl; split; auto; lia.
Qed.


Lemma telemetry_app rec count l1 l2 rec1 count1 :
  telemetry rec count l1 = Some (rec1, count1) ->
  telemetry rec count (l1 ++ l2) = telemetry rec1 count1 l2.
Proof.
  revert rec count. induction l1 as [|[r n] l1 IH]; intros rec count H; simpl in *.
  - inversion H. reflexivity.
  - destruct rec.
    + destruct (negb r && (n =? count)); [|discriminate]. apply IH, H.
    + destruct (r && (n =? count + 1)); [|discriminate]. apply IH, H.
Qed.

Lemma iteration_telemetry_ok tk st st' evs :
  sinks_consistent st ->
  iteration tk st = Some (st', evs) ->
  telemetry (recording st) (events_count st) (statuses evs)
  = Some (recording st', events_count st').
Proof.
  intros C H. destruct (iteration_telemetry tk st st' evs C H) as (S & E).
  rewrite S, E.
  destruct (recording st), (recording st'); simpl;
    rewrite ?Z.add_0_r, ?Z.eqb_refl; reflexivity.
Qed.

Lemma run_telemetry ticks st st' evs :
  sinks_consistent st ->
  run ticks st = Some (st', evs) ->
  telemetry (recording st) (events_count st) (statuses evs)
  = Some (recording st', events_count st').
Proof.
  revert st evs. induction ticks as [|tk rest IH]; intros st evs C H; simpl in H.
  - inversion H; subst. reflexivity.
  - destruct (iteration tk st) as [[st1 ev1]|] eqn:E; [|discriminate].
    destruct (run rest st1) as [[st2 ev2]|] eqn:E2; [|discriminate].
    inversion H; subst. rewrite statuses_app.
    rewrite (telemetry_app _ _ _ _ _ _ (iteration_telemetry_ok tk st st1 ev1 C E)).
    apply (IH st1 ev2); auto.
    destruct (iteration_step tk st C) as (s & e & E' & (C' & _) & _).
    rewrite E in E'. inversion E'; subst. exact C'.
Qed.


(** X19. The telemetry history.  In one iteration a status is published
    exactly when the recording flag changes, carrying the new flag and
    count, and the count grows by one exactly when a recording starts.  Over
    any run from the initial state the published statuses therefore
    alternate start, stop, start, ...; the k-th start carries count k, each
    stop repeats the count of its start, and the state ends with the flag
    and count last published (idle and 0 if nothing was published). *)
Theorem telemetry_history :
  (forall tk st st' evs,
     sinks_consistent st ->
     iteration tk st = Some (st', evs) ->
     statuses evs
     = (if Bool.eqb (recording st) (recording st') then []
        else [(recording st', events_count st')]) /\
     events_count st'
     = events_count st + (if negb (recording st) && recording st' then 1 else 0)) /\
  (forall ticks visual thermal st evs,
     run ticks (initial_state visual thermal) = Some (st, evs) ->
     telemetry false 0 (statuses evs) = Some (recording st, events_count st)).
Proof.
  split.
  - apply iteration_telemetry.
  - intros ticks visual thermal st evs H.
    apply (run_telemetry ticks (initial_state visual thermal) st evs I H).
Qed.

Lemma telemetry_history_witness :
  exists st evs,
    run [all_codecs_tick; no_codec_tick; all_codecs_tick]
        (initial_state dark_visual dark_thermal) = Some (st, evs) /\
    telemetry false 0 (statuses evs) = Some (recording st, events_count st).
Proof.
  destruct (run_invariant [all_codecs_tick; no_codec_tick; all_codecs_tick] _
              (initial_invariant dark_visual dark_thermal))
    as (st & evs & R & _).
  exists st, evs. split; [exact R|].
  destruct telemetry_history as (_ & H).
  apply (H _ _ _ st evs R).
Defined.

Lemma accepted_iteration tk st visual thermal :
  accepted tk visual thermal ->
  iteration tk st = process tk st visual thermal.
Proof.
  intros (frame & R & V & T & S). apply (iteration_accept tk st frame); auto.
Qed.

Lemma dark_accepted_all : accepted all_codecs_tick dark_visual dark_thermal.
Proof. exists dark_frame. repeat split. Qed.

Lemma stop_due_iff tk p st :
  stop_due tk p st = true <->
  p_visible p = [] /\ (inject_Z POST_ROLL_SEC < now tk - last_seen st)%Q.
Proof.
  unfold stop_due. rewrite andb_true_iff, negb_true_iff, absent_iff, Qltb_lt.
  tauto.
Qed.

(** X20. The end of a recording.  While recording, an accepted frame ends
    the recording exactly when no track is visible and the last sighting
    is more than [POST_ROLL_SEC] old.  The frame is still written to both
    sinks, with no overlay, before they are released; the status published
    last carries the unchanged count; the pre-roll buffer is emptied.
    Otherwise the recording goes on with the same sinks, the last-sighting
    time moves to [now] when a track is visible, and the buffer keeps
    filling. *)
Theorem recording_ends_after_post_roll tk st visual thermal st' evs :
  accepted tk visual thermal ->
  sinks_consistent st -> recording st = true ->
  iteration tk st = Some (st', evs) ->
  let p := perceive tk st visual thermal in
  (recording st' = false <->
   p_visible p = [] /\ (inject_Z POST_ROLL_SEC < now tk - last_seen st)%Q) /\
  (recording st' = false ->
   exists rw tw,
     raw_out st = Some rw /\ trk_out st = Some tw /\
     prebuffer st' = [] /\ events_count st' = events_count st /\
     evs = ev_reset tk
           ++ [EvLive visual; EvWrite rw (Upscaled visual);
               EvWrite tw (Annotated visual []);
               EvRelease rw; EvRelease tw; EvStatus false (events_count st)]) /\
  (recording st' = true ->
   raw_out st' = raw_out st /\ trk_out st' = trk_out st /\
   prebuffer st' = p_prebuffer p /\
   last_seen st' = (if (0 <? length (p_visible p))%nat then now tk
                    else last_seen st)).
Proof.
  intros A C R H p. rewrite (accepted_iteration tk st visual thermal A) in H.
  by_outcome C tk st visual thermal H; try congruence;
    try (destruct A0; congruence).
  fold p. rewrite <- stop_due_iff.
  pose proof (visual_out_is_visual tk st visual thermal) as VO. fold p in VO.
  destruct (stop_due tk p st) eqn:S; cbn [recording raw_out trk_out prebuffer
                                         events_count last_seen].
  - split; [tauto|]. split; [|discriminate]. intros _.
    exists rw, tw. split; [exact Ew|]. split; [exact Et|].
    split; [reflexivity|]. split; [reflexivity|].
    apply stop_due_iff in S. destruct S as (V & _).
    unfold photo_due. rewrite V, VO. reflexivity.
  - split; [split; [discriminate | intro; discriminate]|].
    split; [discriminate|]. intros _. rewrite Ew, Et. repeat split.
Qed.


Lemma dark_accepted_quiet : accepted quiet_tick dark_visual dark_thermal.
Proof. exists dark_frame. repeat split. Qed.

Lemma recording_ends_after_post_roll_witness :
  exists st' evs,
    iteration quiet_tick recording_state = Some (st', evs) /\
    recording st' = false.
Proof.
  destruct (iteration_step quiet_tick recording_state I)
    as (st' & evs & E & _ & _).
  exists st', evs. split; [exact E|].
  destruct (recording_ends_after_post_roll quiet_tick recording_state
              dark_visual dark_thermal st' evs dark_accepted_quiet I eq_refl E)
    as (S & _).
  apply S. split; [reflexivity | reflexivity].
Defined.

(** X21. Frames and sinks.  While a recording is in progress every
    accepted frame is written exactly once to each sink, the plain frame to
    the raw sink first and the annotated frame to the tracked sink second,
    also on the frame that ends the recording.  An iteration that begins
    and ends idle writes to no sink, and a dropped frame writes nothing at
    all. *)
Theorem frames_reach_sinks_once tk st st' evs :
  sinks_consistent st ->
  iteration tk st = Some (st', evs) ->
  (forall visual thermal,
     accepted tk visual thermal -> recording st = true ->
     exists rw tw,
       raw_out st = Some rw /\ trk_out st = Some tw /\
       writes evs
       = [(rw, Upscaled visual);
          (tw, Annotated visual (p_visible (perceive tk st visual thermal)))]) /\
  (recording st = false -> recording st' = false -> writes evs = []) /\
  ((forall visual thermal, ~ accepted tk visual thermal) -> evs = []).
Proof.
  intros C H. split; [|split].
  - intros visual thermal A R.
    rewrite (accepted_iteration tk st visual thermal A) in H.
    by_outcome C tk st visual thermal H; try congruence;
      try (destruct A0; congruence).
    exists rw, tw. split; [exact Ew|]. split; [exact Et|].
    rewrite (visual_out_is_visual tk st visual thermal).
    trace_normal tk rw tw (@nil (ndarray Z)).
    destruct (photo_due tk _ st), (stop_due tk _ st); reflexivity.
  - intros R R'. unfold iteration in H.
    destruct (read tk) as [frame|]; [|inversion H; reflexivity].
    destruct (decode_visual frame) as [visual|]; [|inversion H; reflexivity].
    destruct (decode_thermal_raw frame) as [thermal|];
      [|inversion H; reflexivity].
    destruct (shape_ok (shape visual)); [|inversion H; reflexivity].
    by_outcome C tk st visual thermal H; try congruence;
      cbn [recording] in R'; try discriminate.
    + trace_normal tk (mkWriter "" "") (mkWriter "" "") (@nil (ndarray Z)).
      reflexivity.
    + trace_normal tk (mkWriter "" "") (mkWriter "" "") (@nil (ndarray Z)).
      reflexivity.
  - intro N. unfold iteration in H.
    destruct (read tk) as [frame|] eqn:R; [|inversion H; reflexivity].
    destruct (decode_visual frame) as [visual|] eqn:V; [|inversion H; reflexivity].
    destruct (decode_thermal_raw frame) as [thermal|] eqn:T;
      [|inversion H; reflexivity].
    destruct (shape_ok (shape visual)) eqn:S; [|inversion H; reflexivity].
    exfalso. apply (N visual thermal). exists frame. auto.
Qed.

Lemma frames_reach_sinks_once_witness :
  exists st' evs,
    iteration quiet_tick recording_state = Some (st', evs) /\
    length (writes evs) = 2%nat.
Proof.
  destruct (iteration_step quiet_tick recording_state I)
    as (st' & evs & E & _ & _).
  exists st', evs. split; [exact E|].
  destruct (frames_reach_sinks_once quiet_tick recording_state st' evs I E)
    as (W & _).
  destruct (W dark_visual dark_thermal dark_accepted_quiet eq_refl)
    as (rw & tw & _ & _ & ->).
  reflexivity.
Defined.


Lemma photo_due_iff tk p st :
  photo_due tk p st = true <->
  p_visible p <> [] /\
  (inject_Z PHOTO_INTERVAL_SEC <= now tk - last_photo_time st)%Q.
Proof.
  unfold photo_due. rewrite andb_true_iff, present_iff, Qle_bool_iff. tauto.
Qed.

(** X22. The photo schedule.  While recording, an accepted frame is
    photographed exactly when a track is visible and the last photo is at
    least [PHOTO_INTERVAL_SEC] old, and the photo time then moves to [now].
    An idle frame with nothing visible takes no photo.  A start attempt
    always takes the start snapshot, and a successful start, which resets
    the photo time to 0, takes the periodic photo of the same frame as well
    whenever [now] is at least [PHOTO_INTERVAL_SEC]. *)
Theorem photo_schedule tk st visual thermal st' evs :
  accepted tk visual thermal ->
  sinks_consistent st ->
  iteration tk st = Some (st', evs) ->
  let p := perceive tk st visual thermal in
  (photo_due tk p st = true <->
   p_visible p <> [] /\
   (inject_Z PHOTO_INTERVAL_SEC <= now tk - last_photo_time st)%Q) /\
  (recording st = true ->
   photos evs = (if photo_due tk p st
                 then [(photo_path (ts_p tk), visual)] else []) /\
   (recording st' = true ->
    last_photo_time st'
    = if photo_due tk p st then now tk else last_photo_time st)) /\
  (recording st = false -> p_visible p = [] -> photos evs = []) /\
  (recording st = false -> p_visible p <> [] ->
   photos evs
   = (photo_path (ts tk), visual)
     :: (if recording st'
            && Qle_bool (inject_Z PHOTO_INTERVAL_SEC) (now tk - 0)
         then [(photo_path (ts_p tk), visual)] else [])).
Proof.
  intros A C H p. split; [apply photo_due_iff|].
  rewrite (accepted_iteration tk st visual thermal A) in H.
  pose proof (visual_out_is_visual tk st visual thermal) as VO. fold p in VO.
  by_outcome C tk st visual thermal H; fold p; rewrite ?VO.
  - fold p in V. split; [intro; congruence|].
    split; [|intros _ N; contradiction]. intros _ _.
    trace_normal tk (mkWriter "" "") (mkWriter "" "") (@nil (ndarray Z)).
    reflexivity.
  - fold p in V. split; [intro; congruence|].
    split; [intros _ N; contradiction|]. intros _ _.
    cbn [recording andb].
    trace_normal tk rw tw (p_prebuffer p).
    destruct (Qle_bool _ _); reflexivity.
  - destruct A0 as (R & V & F). fold p in V. split; [intro; congruence|].
    split; [intros _ N; contradiction|]. intros _ _. cbn [recording andb].
    trace_normal tk (mkWriter "" "") (mkWriter "" "") (@nil (ndarray Z)).
    reflexivity.
  - split; [|split; intros; congruence]. intros _. split.
    + trace_normal tk rw tw (@nil (ndarray Z)).
      destruct (photo_due tk p st), (stop_due tk p st); reflexivity.
    + destruct (stop_due tk p st); cbn [recording last_photo_time];
        [discriminate | reflexivity].
Qed.

Lemma photo_schedule_witness :
  exists st' evs,
    iteration quiet_tick recording_state = Some (st', evs) /\ photos evs = [].
Proof.
  destruct (iteration_step quiet_tick recording_state I)
    as (st' & evs & E & _ & _).
  exists st', evs. split; [exact E|].
  destruct (photo_schedule quiet_tick recording_state dark_visual dark_thermal
              st' evs dark_accepted_quiet I E) as (_ & P & _).
  destruct (P eq_refl) as (-> & _). reflexivity.
Defined.

(** X23. The live preview.  Every accepted frame is written to the live
    JPEG exactly once, whatever the recording state, and before any sink,
    photo or status output of the iteration (only the removal of the reset
    flag comes earlier). *)
Theorem live_preview_every_frame tk st visual thermal st' evs :
  accepted tk visual thermal ->
  sinks_consistent st ->
  iteration tk st = Some (st', evs) ->
  exists rest,
    evs = ev_reset tk ++ EvLive visual :: rest /\ lives rest = [] /\
    lives evs = [visual].
Proof.
  intros A C H.
  rewrite (accepted_iteration tk st visual thermal A) in H.
  pose proof (visual_out_is_visual tk st visual thermal) as VO.
  by_outcome C tk st visual thermal H; rewrite VO;
    eexists; (split; [reflexivity|]).
  - trace_normal tk (mkWriter "" "") (mkWriter "" "") (@nil (ndarray Z)).
    split; reflexivity.
  - trace_normal tk rw tw (p_prebuffer (perceive tk st visual thermal)).
    destruct (Qle_bool _ _); split; reflexivity.
  - trace_normal tk (mkWriter "" "") (mkWriter "" "") (@nil (ndarray Z)).
    split; reflexivity.
  - trace_normal tk rw tw (@nil (ndarray Z)).
    destruct (photo_due tk _ st), (stop_due tk _ st); split; reflexivity.
Qed.

Lemma live_preview_every_frame_witness :
  exists st' evs,
    iteration quiet_tick recording_state = Some (st', evs) /\
    lives evs = [dark_visual].
Proof.
  destruct (iteration_step quiet_tick recording_state I)
    as (st' & evs & E & _ & _).
  exists st', evs. split; [exact E|].
  destruct (live_preview_every_frame quiet_tick recording_state dark_visual
              dark_thermal st' evs dark_accepted_quiet I E)
    as (rest & _ & _ & L).
  exact L.
Defined.

Lemma keep_blobs_nil contours :
  keep_blobs contours = [] <->
  forall area b, In (area, b) contours -> (area < inject_Z MIN_HOT_AREA)%Q.
Proof.
  induction contours as [|[a0 b0] rest IH]; simpl.
  - split; [intros _ area b [] | reflexivity].
  - destruct (Qltb a0 (inject_Z MIN_HOT_AREA)) eqn:E.
    + rewrite IH. apply Qltb_lt in E. split.
      * intros H area b [X | X]; [inversion X; subst; exact E | eauto].
      * intros H area b X. eauto.
    + split; [discriminate|]. intro H. exfalso.
      assert (L : (a0 < inject_Z MIN_HOT_AREA)%Q) by (apply (H a0 b0); auto).
      apply Qltb_lt in L. congruence.
Qed.

Lemma visible_iff_blob tk st visual thermal :
  p_visible (perceive tk st visual thermal) <> [] <-> blob_seen tk st thermal.
Proof.
  pose proof (proj2 (perceive_tracks tk st visual thermal)) as U.
  cbv zeta in U.
  set (bg0 := if reset_flag tk then as_background thermal else background st) in *.
  assert (E : p_visible (perceive tk st visual thermal)
              = snd (update_tracks
                       (merge_detections
                          (fst (detect_hot_objects (find_blobs tk) thermal bg0)))
                       (tracks st) (now tk))).
  { rewrite <- U. reflexivity. }
  rewrite E. unfold blob_seen. fold bg0.
  cbn [fst detect_hot_objects].
  split.
  - intro N.
    destruct (keep_blobs (find_blobs tk (hot_mask thermal bg0))) as [|d ds] eqn:K.
    + exfalso. apply N. apply (proj2 (proj2 (visible_count _ _ _))).
      reflexivity.
    + clear N E U.
      induction (find_blobs tk (hot_mask thermal bg0)) as [|[a0 b0] rest IH];
        simpl in K; [discriminate|].
      destruct (Qltb a0 (inject_Z MIN_HOT_AREA)) eqn:L.
      * destruct (IH K) as (area & b & I & G). exists area, b. simpl; auto.
      * exists a0, b0. split; [simpl; auto|].
        apply Qnot_lt_le. intro X. apply Qltb_lt in X. congruence.
  - intros (area & b & I & G) N.
    apply (proj1 (proj2 (visible_count _ _ _))) in N.
    apply (proj1 (merge_detections_nil_iff _)) in N.
    pose proof (proj1 (keep_blobs_nil _) N area b I) as L.
    exact (Qlt_not_le _ _ L G).
Qed.

(** X24. What triggers a recording.  The visible list of a frame is
    non-empty exactly when OpenCV reports, on that frame's hot mask, at
    least one contour of area at least [MIN_HOT_AREA]; tracks kept from
    earlier frames are not visible by themselves.  So from idle the start
    snapshot is taken, and the sinks are tried, exactly on such frames, and
    a recording can only start on one. *)
Theorem recording_trigger tk st visual thermal st' evs :
  accepted tk visual thermal ->
  sinks_consistent st -> recording st = false ->
  iteration tk st = Some (st', evs) ->
  (p_visible (perceive tk st visual thermal) <> [] <-> blob_seen tk st thermal) /\
  (photos evs <> [] <-> blob_seen tk st thermal) /\
  (recording st' = true -> blob_seen tk st thermal).
Proof.
  intros A C R H.
  pose proof (visible_iff_blob tk st visual thermal) as B.
  split; [exact B|]. rewrite <- B.
  rewrite (accepted_iteration tk st visual thermal A) in H.
  by_outcome C tk st visual thermal H; try congruence.
  - split; [|unfold perceived; cbn [recording]; intro X; congruence].
    trace_normal tk (mkWriter "" "") (mkWriter "" "") (@nil (ndarray Z)).
    split; [intro N; exfalso; apply N; reflexivity | congruence].
  - split; [|auto].
    trace_normal tk rw tw (p_prebuffer (perceive tk st visual thermal)).
    split; [auto | intros _; discriminate].
  - destruct A0 as (_ & V & _). split; [|discriminate].
    trace_normal tk (mkWriter "" "") (mkWriter "" "") (@nil (ndarray Z)).
    split; [auto | intros _; discriminate].
Qed.

Lemma recording_trigger_witness :
  exists st' evs,
    iteration quiet_tick (initial_state dark_visual dark_thermal)
    = Some (st', evs) /\
    photos evs = [].
Proof.
  destruct (iteration_step quiet_tick (initial_state dark_visual dark_thermal) I)
    as (st' & evs & E & _ & _).
  exists st', evs. split; [exact E|].
  destruct (recording_trigger quiet_tick (initial_state dark_visual dark_thermal)
              dark_visual dark_thermal st' evs
              dark_accepted_quiet I eq_refl E) as (_ & P & _).
  destruct (photos evs) as [|x l]; [reflexivity|]. exfalso.
  destruct (proj1 P ltac:(discriminate)) as (area & b & [] & _).
Defined.


End PipelineLaws.

(** ** Laws of the duration format *)

Module FormattingLaws.
Import Formatting.

Lemma fmt_02d_small_nat (k : nat) :
  (k < 100)%nat -> fmt_02d (Z.of_nat k) = two_digits (Z.of_nat k).
Proof.
  intro H.
  do 100 (destruct k as [|k]; [vm_compute; reflexivity|]).
  lia.
Qed.

Lemma fmt_02d_small n : 0 <= n < 100 -> fmt_02d n = two_digits n.
Proof.
  intro H. rewrite <- (Z2Nat.id n) by lia. apply fmt_02d_small_nat. lia.
Qed.

Lemma whole_seconds_nonneg sec : 0 <= whole_seconds sec.
Proof.
  unfold whole_seconds. destruct (Qltb 0 sec) eqn:E; [|lia].
  apply GeometryFacts.Qltb_lt in E. unfold Qtrunc.
  assert (L : Qle_bool 0 sec = true) by (apply Qle_bool_iff, Qlt_le_weak, E).
  rewrite L. change 0 with (Qfloor (inject_Z 0)).
  apply Qfloor_resp_le, Qlt_le_weak, E.
Qed.

(** X25. [format_hhmmss] splits the whole seconds of a duration into
    hours, minutes below 60 and seconds below 60 that add up to it, and
    prints each with at least two digits; a duration that is zero or
    negative prints as 00:00:00, and any duration under one hundred hours
    prints as exactly eight characters DD:DD:DD. *)
Theorem format_hhmmss_fields sec :
  let total := whole_seconds sec in
  let hh := total / 3600 in
  let mm := (total mod 3600) / 60 in
  let ss := total mod 60 in
  0 <= hh /\ 0 <= mm < 60 /\ 0 <= ss < 60 /\
  hh * 3600 + mm * 60 + ss = total /\
  format_hhmmss sec
  = (fmt_02d hh ++ ":" ++ two_digits mm ++ ":" ++ two_digits ss)%string /\
  (total < 360000 ->
   format_hhmmss sec
   = (two_digits hh ++ ":" ++ two_digits mm ++ ":" ++ two_digits ss)%string /\
   String.length (format_hhmmss sec) = 8%nat) /\
  ((sec <= 0)%Q -> format_hhmmss sec = "00:00:00"%string).
Proof.
  intros total hh mm ss.
  pose proof (whole_seconds_nonneg sec) as P. fold total in P.
  assert (Hh : 0 <= hh) by (apply Z.div_pos; lia).
  assert (Hm : 0 <= mm < 60).
  { unfold mm. pose proof (Z.mod_pos_bound total 3600 ltac:(lia)).
    split; [apply Z.div_pos; lia | apply Z.div_lt_upper_bound; lia]. }
  assert (Hs : 0 <= ss < 60) by (apply Z.mod_pos_bound; lia).
  assert (Sum : hh * 3600 + mm * 60 + ss = total).
  { unfold hh, mm, ss.
    pose proof (Z.div_mod total 3600 ltac:(lia)).
    pose proof (Z.div_mod (total mod 3600) 60 ltac:(lia)).
    assert (E : (total mod 3600) mod 60 = total mod 60).
    { rewrite <- (Z.mod_mod_divide total 3600 60); [reflexivity|].
      exists 60. reflexivity. }
    lia. }
  assert (F : format_hhmmss sec
              = (fmt_02d hh ++ ":" ++ two_digits mm ++ ":" ++ two_digits ss)%string).
  { unfold format_hhmmss. fold total. fold hh mm ss.
    rewrite (fmt_02d_small mm), (fmt_02d_small ss) by lia. reflexivity. }
  split; [exact Hh|]. split; [exact Hm|]. split; [exact Hs|].
  split; [exact Sum|]. split; [exact F|]. split.
  - intro L. assert (H100 : 0 <= hh < 100).
    { split; auto. apply Z.div_lt_upper_bound; lia. }
    rewrite F, (fmt_02d_small hh H100). split; reflexivity.
  - intro N. unfold format_hhmmss, whole_seconds.
    replace (Qltb 0 sec) with false; [reflexivity|].
    symmetry. unfold Qltb. apply negb_false_iff, Qle_bool_iff, N.
Qed.

Lemma format_hhmmss_fields_witness :
  format_hhmmss (7384 # 1) = "02:03:04"%string /\
  format_hhmmss (- (5 # 2)) = "00:00:00"%string.
Proof.
  split.
  - destruct (format_hhmmss_fields (7384 # 1)) as (_ & _ & _ & _ & _ & S & _).
    destruct S as (-> & _); [vm_compute; reflexivity | reflexivity].
  - destruct (format_hhmmss_fields (- (5 # 2))) as (_ & _ & _ & _ & _ & _ & N).
    apply N. discriminate.
Defined.

End FormattingLaws.

(** ** Laws of the camera probe and of start-up *)

Module StartupLaws.
Import Decoder Pipeline Startup.
Import StartupNotions.

Lemma probe_step cams idx rest :
  (usable cams idx /\ probe cams (idx :: rest) = (Some idx, [])) \/
  (~ usable cams idx /\
   probe cams (idx :: rest)
   = (fst (probe cams rest), idx :: snd (probe cams rest))).
Proof.
  cbn [probe]. unfold usable.
  destruct (probe cams rest) as [r rel]. cbn [fst snd].
  destruct (cam_opened (cams idx)); cbn [negb].
  - destruct (cam_first (cams idx)) as [[h w]|].
    + destruct (looks_like_tc001 h w) eqn:L.
      * left. split; [|reflexivity]. split; [reflexivity|]. exists h, w. auto.
      * right. split; [|reflexivity].
        intros (_ & h' & w' & E & L'). inversion E; subst. congruence.
    + right. split; [|reflexivity]. intros (_ & h' & w' & E & _). discriminate.
  - right. split; [|reflexivity]. intros (E & _). discriminate.
Qed.

Lemma probe_result cams idxs :
  match probe cams idxs with
  | (Some idx, released) =>
      exists post, idxs = released ++ idx :: post /\
                   usable cams idx /\
                   forall k, In k released -> ~ usable cams k
  | (None, released) =>
      released = idxs /\ forall k, In k idxs -> ~ usable cams k
  end.
Proof.
  induction idxs as [|idx rest IH].
  - simpl. split; [reflexivity | intros k []].
  - destruct (probe_step cams idx rest) as [(U & ->) | (N & ->)].
    + exists rest. split; [reflexivity|]. split; [exact U | intros k []].
    + destruct (probe cams rest) as [[i|] rel]; cbn [fst snd].
      * destruct IH as (post & E & U & F). exists post. subst rest.
        split; [reflexivity|]. split; [exact U|].
        intros k [<- | H]; auto.
      * destruct IH as (E & F). subst rel. split; [reflexivity|].
        intros k [<- | H]; auto.
Qed.

(** X26. [open_tc001_capture] tries the indices 0 to 4 in order and
    returns the first capture that opens and whose first frame has the
    stacked shape (sensor width, at least twice the sensor height) or the
    wide shape (sensor height, at least twice the sensor width).  Every
    capture tried before it is released, none after it is touched, and the
    one returned is not released.  It returns nothing exactly when none of
    the five is usable, having released all five. *)
Theorem probe_picks_first_usable cams :
  (forall idx,
     fst (open_tc001_capture cams) = Some idx ->
     0 <= idx <= 4 /\ usable cams idx /\
     (forall k, 0 <= k < idx -> ~ usable cams k) /\
     snd (open_tc001_capture cams)
     = filter (fun k => k <? idx) [0; 1; 2; 3; 4]) /\
  (fst (open_tc001_capture cams) = None <->
   forall k, 0 <= k <= 4 -> ~ usable cams k) /\
  (fst (open_tc001_capture cams) = None ->
   snd (open_tc001_capture cams) = [0; 1; 2; 3; 4]).
Proof.
  unfold open_tc001_capture.
  pose proof (probe_result cams [0; 1; 2; 3; 4]) as R.
  destruct (probe cams [0; 1; 2; 3; 4]) as [[i|] rel]; cbn [fst snd].
  - destruct R as (post & E & U & F). split; [|split].
    + intros idx H. inversion H; subst i. clear H.
      assert (Cases :
        (rel = [] /\ idx = 0) \/ (rel = [0] /\ idx = 1) \/
        (rel = [0; 1] /\ idx = 2) \/ (rel = [0; 1; 2] /\ idx = 3) \/
        (rel = [0; 1; 2; 3] /\ idx = 4)).
      { clear - E.
        destruct rel as [|a rel]; simpl in E; inversion E; subst; auto.
        destruct rel as [|a rel]; simpl in *; inversion H1; subst; auto.
        destruct rel as [|a rel]; simpl in *; inversion H2; subst; auto.
        destruct rel as [|a rel]; simpl in *; inversion H3; subst; auto 6.
        destruct rel as [|a rel]; simpl in *; inversion H4; subst; auto 6.
        destruct rel; discriminate. }
      assert (B : forall k, 0 <= k < idx -> In k rel).
      { intros k Hk.
        destruct Cases as [(-> & ->) | [(-> & ->) | [(-> & ->)
                          | [(-> & ->) | (-> & ->)]]]]; simpl; lia. }
      split; [|split; [exact U|split]].
      * destruct Cases as [(_ & ->) | [(_ & ->) | [(_ & ->)
                          | [(_ & ->) | (_ & ->)]]]]; lia.
      * intros k Hk. apply F, B, Hk.
      * destruct Cases as [(-> & ->) | [(-> & ->) | [(-> & ->)
                          | [(-> & ->) | (-> & ->)]]]]; reflexivity.
    + split; [discriminate|]. intro A. exfalso.
      assert (I : In i [0; 1; 2; 3; 4]).
      { rewrite E. apply in_or_app. right. simpl. auto. }
      apply (A i); [simpl in I; lia | exact U].
    + discriminate.
  - destruct R as (E & F). split; [|split].
    + intros idx H. discriminate.
    + split; [|reflexivity]. intros _ k Hk. apply F. simpl. lia.
    + intros _. exact E.
Qed.

Lemma probe_picks_first_usable_witness :
  let cams := fun idx =>
    if idx =? 2 then mkCamera true (Some (384, 256))
    else if idx =? 1 then mkCamera true (Some (480, 640))
    else mkCamera false None in
  snd (open_tc001_capture cams) = [0; 1].
Proof.
  intro cams.
  destruct (probe_picks_first_usable cams) as (P & _).
  destruct (P 2 eq_refl) as (_ & _ & _ & ->). reflexivity.
Defined.

Lemma warm_up_result reads n : forall k,
  match warm_up reads k n with
  | Some frame =>
      exists j, (k <= j < k + n)%nat /\ valid_read reads j frame /\
                forall i, (k <= i < j)%nat -> invalid_read reads i
  | None => forall i, (k <= i < k + n)%nat -> invalid_read reads i
  end.
Proof.
  induction n as [|n IH]; intro k; cbn [warm_up].
  - intros i Hi. lia.
  - assert (Skip :
      invalid_read reads k ->
      match warm_up reads (S k) n with
      | Some frame =>
          exists j, (k <= j < k + S n)%nat /\ valid_read reads j frame /\
                    forall i, (k <= i < j)%nat -> invalid_read reads i
      | None => forall i, (k <= i < k + S n)%nat -> invalid_read reads i
      end).
    { intro Bad. specialize (IH (S k)).
      destruct (warm_up reads (S k) n) as [frame|].
      - destruct IH as (j & Hj & V & F). exists j.
        split; [lia|]. split; [exact V|].
        intros i Hi. destruct (Nat.eq_dec i k) as [->|]; [exact Bad|].
        apply F. lia.
      - intros i Hi. destruct (Nat.eq_dec i k) as [->|]; [exact Bad|].
        apply IH. lia. }
    destruct (reads k) as [frame|] eqn:R.
    + destruct (looks_like_tc001 (f_h frame) (f_w frame)) eqn:L.
      * exists k. split; [lia|]. split; [split; assumption|].
        intros i Hi. lia.
      * apply Skip. intros f (E & L'). rewrite R in E. inversion E; subst.
        congruence.
    + apply Skip. intros f (E & _). rewrite R in E. discriminate.
Qed.

(** X27. [main] enters its loop only from the first frame, among the
    first twenty reads of the capture, that passes the shape test: that
    frame is decoded into the first background and the first smoothed
    image, nothing is recording, the pre-roll buffer and the track table
    are empty, and the one status published is "not recording, 0 events".
    Frames read before it are dropped and frames after it are not
    consulted: when that first frame does not decode, [main] returns even
    if a later read would have. *)
Theorem start_up_uses_first_valid_frame cams reads :
  (forall st evs,
     start_up cams reads = Some (st, evs) ->
     exists idx k frame visual thermal,
       fst (open_tc001_capture cams) = Some idx /\
       (k < 20)%nat /\ valid_read reads k frame /\
       (forall i, (i < k)%nat -> invalid_read reads i) /\
       decode_visual frame = Some visual /\
       decode_thermal_raw frame = Some thermal /\
       st = initial_state visual thermal /\
       evs = [EvStatus false 0] /\
       loop_invariant st) /\
  (forall k frame,
     (k < 20)%nat -> valid_read reads k frame ->
     (forall i, (i < k)%nat -> invalid_read reads i) ->
     decode_visual frame = None \/ decode_thermal_raw frame = None ->
     start_up cams reads = None).
Proof.
  unfold start_up.
  pose proof (warm_up_result reads 20 0) as W.
  split.
  - intros st evs H.
    destruct (fst (open_tc001_capture cams)) as [idx|]; [|discriminate].
    destruct (warm_up reads 0 20) as [frame|]; [|discriminate].
    destruct W as (j & Hj & V & F).
    destruct (decode_visual frame) as [visual|] eqn:DV; [|discriminate].
    destruct (decode_thermal_raw frame) as [thermal|] eqn:DT; [|discriminate].
    inversion H; subst st evs.
    exists idx, j, frame, visual, thermal.
    split; [reflexivity|]. split; [lia|]. split; [exact V|].
    split; [intros i Hi; apply F; lia|].
    split; [exact DV|]. split; [exact DT|].
    split; [reflexivity|]. split; [reflexivity|].
    apply PipelineFacts.initial_invariant.
  - intros k frame Hk V F D.
    destruct (fst (open_tc001_capture cams)) as [idx|]; [|reflexivity].
    destruct (warm_up reads 0 20) as [frame'|].
    + destruct W as (j & Hj & V' & F').
      assert (j = k).
      { destruct (Nat.lt_total j k) as [L | [E | L]]; [| exact E |].
        - exfalso. exact (F j L frame' V').
        - exfalso. apply (F' k (conj (Nat.le_0_l k) L) frame V). }
      subst j. destruct V as (R & _), V' as (R' & _).
      rewrite R in R'. inversion R'; subst frame'.
      destruct D as [-> | D]; [reflexivity|].
      rewrite D. destruct (decode_visual frame); reflexivity.
    + exfalso. apply (W k (conj (Nat.le_0_l k) Hk) frame V).
Qed.

Lemma start_up_uses_first_valid_frame_witness :
  let cams := fun _ : Z => mkCamera true (Some (384, 256)) in
  let flat := mkFrame 384 256 None (fun _ => Byte.x00) in
  let good := mkFrame 384 256 (Some 2) (fun _ => Byte.x00) in
  let reads := fun k => match k with
                        | O => None
                        | S O => Some flat
                        | _ => Some good
                        end in
  start_up cams reads = None.
Proof.
  intros cams flat good reads.
  apply (proj2 (start_up_uses_first_valid_frame cams reads) 1%nat flat).
  - lia.
  - split; reflexivity.
  - intros i Hi frame (E & _). assert (i = 0%nat) by lia. subst i.
    discriminate.
  - left. reflexivity.
Defined.

End StartupLaws.

(** ** Laws of the status file *)

Module StatusLaws.
Import Pipeline PipelineFacts PipelineNotions PipelineLaws StatusFile.

Section Reader.

Variable int_of_str : string -> option Z.

Local Abbreviation reading := (get_status int_of_str).

Lemma read_back recording events ts :
  reading (Doc (status_doc recording events ts)) = (recording, events).
Proof. reflexivity. Qed.

(** The status path holds what it held, or the new document whole. *)
Lemma write_status_atomic fault r n ts fs :
  status_file (write_status fault r n ts fs)
  = match fault with
    | NoFault => Doc (status_doc r n ts)
    | _ => status_file fs
    end.
Proof. destruct fault; reflexivity. Qed.

Lemma publish_reading answers l : forall k fs,
  reading (status_file (publish answers k l fs)) = reading (status_file fs) \/
  In (reading (status_file (publish answers k l fs))) l.
Proof.
  induction l as [|[r n] rest IH]; intros k fs; cbn [publish].
  - left. reflexivity.
  - destruct (IH (S k) (write_status (fst (answers k)) r n (snd (answers k)) fs))
      as [E | I].
    + rewrite E, write_status_atomic.
      destruct (fst (answers k)); auto.
      right. left. symmetry. apply read_back.
    + right. right. exact I.
Qed.

Lemma publish_last answers l last_one : forall k fs,
  fst (answers (k + length l)%nat) = NoFault ->
  reading (status_file (publish answers k (l ++ [last_one]) fs)) = last_one.
Proof.
  induction l as [|[r n] rest IH]; intros k fs H.
  - destruct last_one as [r n]. cbn [app publish]. cbn [length] in H.
    rewrite Nat.add_0_r in H. rewrite write_status_atomic, H. apply read_back.
  - cbn [app publish]. apply IH. cbn [length] in H.
    replace (S k + length rest)%nat with (k + S (length rest))%nat by lia.
    exact H.
Qed.

(** The history a checker accepts ends with the pair it returns. *)
Lemma telemetry_last l : forall rec count r n,
  telemetry rec count l = Some (r, n) ->
  l = [] /\ (r, n) = (rec, count) \/ exists l', l = l' ++ [(r, n)].
Proof.
  induction l as [|[r0 n0] rest IH]; intros rec count r n H; cbn [telemetry] in H.
  - left. inversion H. auto.
  - right.
    assert (Step : exists rec' count',
               telemetry rec' count' rest = Some (r, n) /\
               (r0, n0) = (rec', count')).
    { destruct rec.
      - destruct (negb r0 && (n0 =? count)) eqn:T; [|discriminate].
        apply andb_true_iff in T. destruct T as (T1 & T2).
        apply negb_true_iff in T1. apply Z.eqb_eq in T2. subst.
        exists false, count. auto.
      - destruct (r0 && (n0 =? count + 1)) eqn:T; [|discriminate].
        apply andb_true_iff in T. destruct T as (T1 & T2).
        apply Z.eqb_eq in T2. subst. exists true, (count + 1). auto. }
    destruct Step as (rec' & count' & T & E).
    destruct (IH _ _ _ _ T) as [(-> & E') | (l' & ->)].
    + exists []. cbn [app]. rewrite E, E'. reflexivity.
    + exists ((r0, n0) :: l'). reflexivity.
Qed.

(** X28. What the web application shows.  [main] publishes the status
    "idle, 0 events" before its loop and then one status per change of the
    recording flag; every one goes to a temporary file that is moved over
    the status file, and every failure is swallowed.  Whatever fails,
    after any run [get_status] never sees a half-written status: it
    returns what the file gave before [main] started or one of the
    published pairs.  If the last write succeeded it returns the recording
    flag and the event count the recorder holds. *)
Theorem web_status_follows_recorder ticks visual thermal st evs answers fs :
  run ticks (initial_state visual thermal) = Some (st, evs) ->
  let published := (false, 0) :: statuses evs in
  let seen := reading (status_file (publish answers 0 published fs)) in
  (seen = reading (status_file fs) \/ In seen published) /\
  (fst (answers (length (statuses evs))) = NoFault ->
   seen = (recording st, events_count st)).
Proof.
  intros R published seen. split; [apply publish_reading|].
  intro OK. subst seen published.
  pose proof (run_telemetry ticks _ st evs
                (proj1 (initial_invariant visual thermal)) R) as T.
  cbn [initial_state recording events_count] in T.
  destruct (telemetry_last _ _ _ _ _ T) as [(E & S) | (l' & E)].
  - rewrite E in *. rewrite S.
    apply (publish_last answers [] (false, 0) 0%nat fs). exact OK.
  - rewrite E in *. rewrite app_comm_cons.
    apply (publish_last answers ((false, 0) :: l')).
    rewrite length_app in OK. cbn [length] in *.
    replace (0 + S (length l'))%nat with (length l' + 1)%nat by lia.
    exact OK.
Qed.

End Reader.

Lemma web_status_follows_recorder_witness :
  exists st evs,
    run [all_codecs_tick] (initial_state dark_visual dark_thermal)
    = Some (st, evs) /\
    get_status (fun _ => None)
      (status_file (publish (fun _ => (NoFault, 0%Q)) 0
                            ((false, 0) :: statuses evs)
                            (mkFs Missing Unparsable)))
    = (recording st, events_count st).
Proof.
  destruct (run_invariant [all_codecs_tick] _
              (initial_invariant dark_visual dark_thermal))
    as (st & evs & R & _).
  exists st, evs. split; [exact R|].
  apply (proj2 (web_status_follows_recorder (fun _ => None) _ _ _ st evs
                  (fun _ => (NoFault, 0%Q)) (mkFs Missing Unparsable) R)).
  reflexivity.
Defined.

Section Defaults.

Variable int_of_str : string -> option Z.

Local Abbreviation reading := (get_status int_of_str).


End Defaults.


End StatusLaws.

(** ** The background model over a still scene *)

Module SegmentationLaws.
Import Geometry Decoder Segmentation SegmentationFacts.
Import SegmentationNotions.

Lemma settle_is_pixel find_blobs thermal background r c :
  at2 (snd (detect_hot_objects find_blobs thermal background)) r c
  = settle (at2 thermal r c) 1 (at2 background r c).
Proof. reflexivity. Qed.

Lemma hot_frozen t b n :
  hot_px t b = true -> settle t n b = b.
Proof.
  intro H. induction n as [|n IH]; cbn [settle]; [reflexivity|].
  rewrite IH. unfold new_bg_px. rewrite H. reflexivity.
Qed.

Lemma cold_step t b :
  0 <= t < 2 ^ 16 -> in_range b -> hot_px t b = false ->
  in_range (new_bg_px t b) /\
  hot_px t (new_bg_px t b) = false /\
  (new_bg_px t b - inject_Z t == (99 # 100) * (b - inject_Z t))%Q.
Proof.
  intros T (L & U) C.
  destruct (new_bg_px_range t b T L U) as (L' & U').
  split; [split; assumption|].
  assert (E : (new_bg_px t b - inject_Z t == (99 # 100) * (b - inject_Z t))%Q).
  { unfold new_bg_px. rewrite C. unfold BG_UPDATE_ALPHA. lra. }
  split; [|exact E].
  destruct (hot_px t (new_bg_px t b)) eqn:H; [|reflexivity]. exfalso.
  apply (hot_px_iff t _ T L' U') in H.
  assert (N : ~ (inject_Z THERMAL_DELTA_RAW < inject_Z t - b)%Q).
  { intro X. apply (hot_px_iff t b T L U) in X. congruence. }
  rewrite THERMAL_DELTA_RAW_value in *. apply N. clear N.
  change (inject_Z 96) with 96%Q in *. lra.
Qed.

Lemma cold_settles t b n :
  0 <= t < 2 ^ 16 -> in_range b -> hot_px t b = false ->
  in_range (settle t n b) /\ hot_px t (settle t n b) = false.
Proof.
  intros T R C. induction n as [|n (R' & C')]; cbn [settle]; [auto|].
  destruct (cold_step t _ T R' C') as (R2 & C2 & _). auto.
Qed.

(** X30. A still scene.  While a pixel keeps the same 16-bit thermal
    value and the background is not reset, its classification never
    changes.  A hot pixel stays hot and its background value is frozen,
    so a warm object that does not move stays in the hot mask on every
    frame and is never absorbed into the background.  A cold pixel stays
    cold, and each frame its background moves toward the thermal value
    without overshooting it, the remaining difference being multiplied by
    [1 - BG_UPDATE_ALPHA] (in the exact arithmetic of the model). *)
Theorem still_scene_classification t b n :
  0 <= t < 2 ^ 16 -> in_range b ->
  hot_px t (settle t n b) = hot_px t b /\
  (hot_px t b = true -> settle t n b = b) /\
  (hot_px t b = false ->
   (settle t (S n) b - inject_Z t
    == (1 - BG_UPDATE_ALPHA) * (settle t n b - inject_Z t))%Q /\
   ((b <= inject_Z t)%Q -> (b <= settle t n b)%Q /\ (settle t n b <= inject_Z t)%Q) /\
   ((inject_Z t <= b)%Q -> (inject_Z t <= settle t n b)%Q /\ (settle t n b <= b)%Q)).
Proof.
  intros T R.
  split; [|split].
  - destruct (hot_px t b) eqn:H.
    + rewrite (hot_frozen t b n H). exact H.
    + apply (cold_settles t b n T R H).
  - apply hot_frozen.
  - intro C. split.
    + destruct (cold_settles t b n T R C) as (R' & C').
      destruct (cold_step t _ T R' C') as (_ & _ & E).
      cbn [settle]. rewrite E. unfold BG_UPDATE_ALPHA. lra.
    + assert (M : forall k,
        ((b <= inject_Z t)%Q ->
         (b <= settle t k b)%Q /\ (settle t k b <= inject_Z t)%Q) /\
        ((inject_Z t <= b)%Q ->
         (inject_Z t <= settle t k b)%Q /\ (settle t k b <= b)%Q)).
      { induction k as [|k (Lo & Hi)].
        - cbn [settle]. split; intro; split; lra.
        - destruct (cold_settles t b k T R C) as (R' & C').
          destruct (cold_step t _ T R' C') as (_ & _ & E).
          cbn [settle]. split; intro X.
          + destruct (Lo X). split; lra.
          + destruct (Hi X). split; lra. }
      exact (M n).
Qed.

Lemma still_scene_classification_witness :
  hot_px 1100 (settle 1100 25 (inject_Z 1000)) = true /\
  hot_px 1050 (settle 1050 25 (inject_Z 1000)) = false.
Proof.
  split.
  - rewrite (proj1 (still_scene_classification 1100 (inject_Z 1000) 25
                      ltac:(lia) ltac:(split; discriminate))).
    reflexivity.
  - rewrite (proj1 (still_scene_classification 1050 (inject_Z 1000) 25
                      ltac:(lia) ltac:(split; discriminate))).
    reflexivity.
Defined.

End SegmentationLaws.
